(** * IBM MFM track codec (greaseweazle/codec/ibm/mfm.py)

    A shallow embedding of the MFM codec: the byte <-> bit-cell tables, the
    clock-insertion pass, the raw-track decoder (sync search, mark
    classification, revolution normalisation, merge), the image marshalling
    of a formatted track, the verifier and the geometry synthesiser.

    Conventions.  Python integers are [Z].  A [bytes]/[bytearray] value is a
    [list Z] whose elements satisfy [is_byte]; a [bitarray] is a [list bool]
    (big-endian inside each byte).  Python lists indexed or updated in place
    use stdpp's [!!] and [<[_:=_]>].  An uncaught Python exception is [None]
    in the option monad. *)

From stdpp Require Import base option list numbers sorting.
From Stdlib Require Import ZArith Lia QArith.
Local Open Scope Z_scope.

(** ** Bytes and Python primitives *)

Definition is_byte (x : Z) : Prop := 0 <= x < 256.

(** [range(n)] *)
Definition range (n : Z) : list Z := seqZ 0 n.

(** [l[lo:hi]]: a negative index counts from the end, and both ends are
    clamped to the length. *)
Definition clamp_index (len i : Z) : Z :=
  if i <? 0 then Z.max (i + len) 0 else Z.min i len.

Definition slice {A} (l : list A) (lo hi : Z) : list A :=
  let len := Z.of_nat (length l) in
  let lo' := clamp_index len lo in
  let hi' := clamp_index len hi in
  take (Z.to_nat (hi' - lo')) (drop (Z.to_nat lo') l).

(** [l[i]] with Python's negative indices; [None] is [IndexError]. *)
Definition py_index {A} (l : list A) (i : Z) : option A :=
  if 0 <=? i then l !! Z.to_nat i
  else if - Z.of_nat (length l) <=? i then
         l !! Z.to_nat (Z.of_nat (length l) + i)
       else None.

(** [a << n]; a negative shift count is [ValueError]. *)
Definition py_shl (a n : Z) : option Z :=
  if 0 <=? n then Some (Z.shiftl a n) else None.

(** [l[::2]] *)
Fixpoint stride2 {A} (l : list A) : list A :=
  match l with
  | [] => []
  | x :: l' => x :: match l' with [] => [] | _ :: l'' => stride2 l'' end
  end.

(** [struct.pack('>H', v)] for [0 <= v < 65536] *)
Definition pack_H (v : Z) : list Z :=
  [Z.land (Z.shiftr v 8) 255; Z.land v 255].

(** ** Modulation codec *)

(** One entry of [encode_list]: the inner loop over [range(8)]. *)
Definition encode_entry (x : Z) : Z :=
  foldl (fun y i => Z.lor (Z.shiftl y 2) (Z.land (Z.shiftr x (7 - i)) 1))
        0 (range 8).

Definition encode_list : list Z := map encode_entry (range 256).

(** One entry of [decode_list]: the inner loop over [range(16)]. *)
Definition decode_entry (x : Z) : Z :=
  foldl (fun y i =>
           if negb (Z.land x (Z.shiftl 1 (i * 2)) =? 0)
           then Z.lor y (Z.shiftl 1 i) else y)
        0 (range 16).

Definition decode_list : list Z := map decode_entry (range (0x5555 + 1)).

(** Table lookups; the index is always in range for byte inputs. *)
Definition encode_lookup (x : Z) : Z := default 0 (encode_list !! Z.to_nat x).
Definition decode_lookup (k : Z) : Z := default 0 (decode_list !! Z.to_nat k).

Definition encode (dat : list Z) : list Z :=
  flat_map (fun x => pack_H (encode_lookup x)) dat.

Definition decode_pair (xy : Z * Z) : Z :=
  decode_lookup (Z.land (Z.lor (Z.shiftl xy.1 8) xy.2) 0x5555).

Definition decode (dat : list Z) : list Z :=
  map decode_pair (zip (stride2 dat) (stride2 (drop 1 dat))).

(** One iteration of the loop of [mfm_encode]: from the carried [y] and the
    input byte [x] to the new [y], which is also the byte appended. *)
Definition mfm_step (y x : Z) : Z :=
  let y := Z.lor (Z.shiftl y 8) x in
  let y := if Z.land x 0xaa =? 0
           then Z.lor y (Z.land (Z.lnot (Z.lor (Z.shiftr y 1) (Z.shiftl y 1)))
                                0xaaaa)
           else y in
  Z.land y 255.

Fixpoint mfm_encode_from (y : Z) (dat : list Z) : list Z :=
  match dat with
  | [] => []
  | x :: dat' => let y' := mfm_step y x in y' :: mfm_encode_from y' dat'
  end.

Definition mfm_encode (dat : list Z) : list Z := mfm_encode_from 0 dat.

(** ** Bit arrays *)

(** [bitarray(endian='big').frombytes] *)
Definition bits_of_byte (x : Z) : list bool :=
  map (fun i => Z.testbit x (7 - i)) (range 8).

Definition frombytes (b : list Z) : list bool := flat_map bits_of_byte b.

(** The value of at most 8 bits, first bit highest, padded with zero bits. *)
Definition byte_of_bits (bs : list bool) : Z :=
  foldl (fun acc (ib : Z * bool) => if ib.2 then Z.lor acc (Z.shiftl 1 (7 - ib.1)) else acc)
        0 (zip (range 8) bs).

(** [bitarray.tobytes]: 8 bits per byte, the last byte padded.  Each step
    takes up to 8 bits, so [length bits] steps are enough. *)
Fixpoint tobytes_chunks (fuel : nat) (bits : list bool) : list Z :=
  match fuel, bits with
  | _, [] => []
  | O, _ => []
  | S fuel', _ => byte_of_bits (take 8 bits) :: tobytes_chunks fuel' (drop 8 bits)
  end.

Definition tobytes (bits : list bool) : list Z :=
  tobytes_chunks (length bits) bits.

Fixpoint is_prefix (pat bits : list bool) : bool :=
  match pat, bits with
  | [], _ => true
  | _ :: _, [] => false
  | p :: pat', b :: bits' => Bool.eqb p b && is_prefix pat' bits'
  end.

(** [bits.itersearch(pat)]: every offset at which [pat] occurs, ascending. *)
Fixpoint itersearch_from (offs : Z) (bits pat : list bool) : list Z :=
  match bits with
  | [] => []
  | _ :: bits' =>
      (if is_prefix pat bits then [offs] else [])
        ++ itersearch_from (offs + 1) bits' pat
  end.

Definition itersearch (bits pat : list bool) : list Z :=
  itersearch_from 0 bits pat.

Definition iam_sync_bytes : list Z := mjoin (replicate 3 [0x52; 0x24]).
Definition iam_sync : list bool := frombytes iam_sync_bytes.

Definition sync_bytes : list Z := mjoin (replicate 3 [0x44; 0x89]).
Definition sync : list bool := frombytes sync_bytes.

(** ** CRC engine

    [crcmod.predefined.Crc('crc-ccitt-false')]: polynomial 0x1021, initial
    value 0xffff, no reflection, no final xor. *)

Definition crc16_bit (crc : Z) : Z :=
  if negb (Z.land crc 0x8000 =? 0)
  then Z.land (Z.lxor (Z.shiftl crc 1) 0x1021) 0xffff
  else Z.land (Z.shiftl crc 1) 0xffff.

Definition crc16_byte (crc x : Z) : Z :=
  Nat.iter 8 crc16_bit (Z.lxor crc (Z.shiftl x 8)).

Definition crc16 (b : list Z) : Z := foldl crc16_byte 0xffff b.

(** ** Area model *)

(** Modelled from the spec: the area classes [IAM], [IDAM], [DAM] and
    [Sector] of [greaseweazle/codec/ibm/ibm.py], which is not part of the
    sources at hand.  Every area has a bit-offset extent; an ID field and a
    data field carry a CRC (0 is valid, 0xffff never checked); a sector is
    its ID field and data field, spans from the start of the first to the
    end of the second, and has a CRC of its own that is zero exactly when
    both children's are.  A placeholder data field has no data. *)
Record IAM := mkIAM { iam_start : Z; iam_end : Z }.

Record IDAM := mkIDAM {
  idam_start : Z; idam_end : Z; idam_crc : Z;
  idam_c : Z; idam_h : Z; idam_r : Z; idam_n : Z }.

Record DAM := mkDAM {
  dam_start : Z; dam_end : Z; dam_crc : Z; dam_mark : Z; dam_data : list Z }.

Record Sector := mkSector {
  sec_start : Z; sec_end : Z; sec_crc : Z; idam : IDAM; dam : DAM }.

(** Modelled from the spec: the constructor [Sector(idam, dam)]. *)
Definition new_Sector (i : IDAM) (d : DAM) : Sector :=
  mkSector (idam_start i) (dam_end d) (Z.lor (idam_crc i) (dam_crc d)) i d.

(** What the scan of a bit stream appends to [areas]. *)
Inductive area :=
| AIAM (a : IAM)
| AIDAM (a : IDAM)
| ADAM (a : DAM)
| ASector (a : Sector).

Definition area_start (a : area) : Z :=
  match a with
  | AIAM x => iam_start x
  | AIDAM x => idam_start x
  | ADAM x => dam_start x
  | ASector x => sec_start x
  end.

(** Modelled from the spec: [a.delta(p)] re-expresses the offsets of an area
    relative to [p]; for a sector, those of its two fields as well. *)
Definition IDAM_delta (x : IDAM) (p : Z) : IDAM :=
  mkIDAM (idam_start x - p) (idam_end x - p) (idam_crc x)
         (idam_c x) (idam_h x) (idam_r x) (idam_n x).

Definition DAM_delta (x : DAM) (p : Z) : DAM :=
  mkDAM (dam_start x - p) (dam_end x - p) (dam_crc x) (dam_mark x) (dam_data x).

Definition area_delta (a : area) (p : Z) : area :=
  match a with
  | AIAM x => AIAM (mkIAM (iam_start x - p) (iam_end x - p))
  | AIDAM x => AIDAM (IDAM_delta x p)
  | ADAM x => ADAM (DAM_delta x p)
  | ASector x =>
      ASector (mkSector (sec_start x - p) (sec_end x - p) (sec_crc x)
                        (IDAM_delta (idam x) p) (DAM_delta (dam x) p))
  end.

#[global] Instance IAM_eq_dec : EqDecision IAM.
Proof. solve_decision. Defined.
#[global] Instance IDAM_eq_dec : EqDecision IDAM.
Proof. solve_decision. Defined.
#[global] Instance DAM_eq_dec : EqDecision DAM.
Proof. solve_decision. Defined.
#[global] Instance Sector_eq_dec : EqDecision Sector.
Proof. solve_decision. Defined.
#[global] Instance area_eq_dec : EqDecision area.
Proof. solve_decision. Defined.

(** Modelled from the spec: the mark bytes of the class [IBMTrack], fixed by
    the IBM MFM standard. *)
Definition MARK_IAM : Z := 0xfc.
Definition MARK_IDAM : Z := 0xfe.
Definition MARK_DAM : Z := 0xfb.
Definition MARK_DDAM : Z := 0xf8.

Definition gap_presync : Z := 12.
Definition gapbyte : Z := 0x4e.

(** ** Tracks *)

(** The attributes of [IBM_MFM] and [IBM_MFM_Formatted] objects.  Times are
    exact rationals where Python has floats. *)
Record track := mkTrack {
  trk_cyl : Z; trk_head : Z;
  iams : list IAM; sectors : list Sector;
  has_iam : bool;
  time_per_rev : Q; clock : Q;
  raw_iams : list IAM; raw_sectors : list Sector;
  img_bps : option Z;
  nsec : Z }.

Definition set_iams (t : track) (l : list IAM) : track :=
  mkTrack (trk_cyl t) (trk_head t) l (sectors t) (has_iam t)
          (time_per_rev t) (clock t) (raw_iams t) (raw_sectors t)
          (img_bps t) (nsec t).

Definition set_sectors (t : track) (l : list Sector) : track :=
  mkTrack (trk_cyl t) (trk_head t) (iams t) l (has_iam t)
          (time_per_rev t) (clock t) (raw_iams t) (raw_sectors t)
          (img_bps t) (nsec t).

Definition set_has_iam (t : track) (b : bool) : track :=
  mkTrack (trk_cyl t) (trk_head t) (iams t) (sectors t) b
          (time_per_rev t) (clock t) (raw_iams t) (raw_sectors t)
          (img_bps t) (nsec t).

Definition set_raw (t : track) (ri : list IAM) (rs : list Sector) : track :=
  mkTrack (trk_cyl t) (trk_head t) (iams t) (sectors t) (has_iam t)
          (time_per_rev t) (clock t) ri rs (img_bps t) (nsec t).

(** [IBM_MFM_Formatted(cyl, head)]: empty lists and no image stride; the
    attributes that the constructor leaves unset ([has_iam], the two times,
    [nsec]) get a neutral value. *)
Definition new_track (cyl head : Z) : track :=
  mkTrack cyl head [] [] false 0%Q 0%Q [] [] None 0.

(** Modelled from the spec: [nr_missing()] of [IBMTrack], the tally of
    sectors whose CRC is not zero. *)
Definition nr_missing (t : track) : Z :=
  Z.of_nat (length (filter (fun s => sec_crc s <> 0) (sectors t))).

(** [l.sort(key = key)]: Python's sort is stable. *)
Fixpoint insert_by {A} (key : A -> Z) (x : A) (l : list A) : list A :=
  match l with
  | [] => [x]
  | y :: l' => if key x <=? key y then x :: l else y :: insert_by key x l'
  end.

Definition sort_by {A} (key : A -> Z) (l : list A) : list A :=
  foldr (insert_by key) [] l.

(** ** Flux decoder: [IBM_MFM.decode_raw]

    The demodulator ([RawTrack]) is outside this file: [decode_raw] is given
    its results, the bit array [bits] and the list [revolutions] of the
    lengths of the revolutions captured. *)

(** [decode(bits[lo:hi].tobytes())] *)
Definition decode_bits (bits : list bool) (lo hi : Z) : list Z :=
  decode (tobytes (slice bits lo hi)).

(** The mark byte after a sync at [offs]; the caller has checked that the
    four encoded bytes are there, so element 0 exists. *)
Definition mark_at (bits : list bool) (offs : Z) : Z :=
  default 0 (decode_bits bits (offs + 3 * 16) (offs + 4 * 16) !! 0%nat).

(** The first loop: index marks. *)
Definition scan_iam_step (bits : list bool)
    (st : list area * bool) (offs : Z) : list area * bool :=
  let '(areas, seen) := st in
  if Z.of_nat (length bits) <? offs + 4 * 16 then st
  else if mark_at bits offs =? MARK_IAM
       then (areas ++ [AIAM (mkIAM offs (offs + 4 * 16))], true)
       else st.

(** [struct.unpack(">4x4B2x", b)] of a 10-byte field *)
Definition unpack_chrn (b : list Z) : Z * Z * Z * Z :=
  (default 0 (b !! 4%nat), default 0 (b !! 5%nat),
   default 0 (b !! 6%nat), default 0 (b !! 7%nat)).

(** The second loop: ID and data fields.  The state is [areas] and the
    pending [idam]; a [continue] returns the state as it is. *)
Definition scan_sync_step (bits : list bool)
    (st : list area * option IDAM) (offs : Z) : list area * option IDAM :=
  let '(areas, pending) := st in
  if Z.of_nat (length bits) <? offs + 4 * 16 then st
  else
    let mark := mark_at bits offs in
    if mark =? MARK_IDAM then
      let s := offs in
      let e := offs + 10 * 16 in
      if Z.of_nat (length bits) <? e then st
      else
        let b := decode_bits bits s e in
        let '(c, h, r, n) := unpack_chrn b in
        let crc := crc16 b in
        (match pending with Some i => areas ++ [AIDAM i] | None => areas end,
         Some (mkIDAM s e crc c h r n))
    else if (mark =? MARK_DAM) || (mark =? MARK_DDAM) then
      match pending with
      | None =>
          (areas ++ [ADAM (mkDAM offs (offs + 4 * 16) 0xffff mark [])], None)
      | Some i =>
          if idam_end i - offs >? 1000 then
            (areas ++ [ADAM (mkDAM offs (offs + 4 * 16) 0xffff mark [])], None)
          else
            let sz := Z.shiftl 128 (idam_n i) in
            let s := offs in
            let e := offs + (4 + sz + 2) * 16 in
            if Z.of_nat (length bits) <? e then st
            else
              let b := decode_bits bits s e in
              let crc := crc16 b in
              let d := mkDAM s e crc mark (slice b 4 (-2)) in
              (areas ++ [ASector (new_Sector i d)], None)
      end
    else st.

(** Part 1 of [decode_raw]: the areas of the dump, and whether an index mark
    was seen. *)
Definition scan_areas (bits : list bool) : list area * bool :=
  let '(areas, seen) := foldl (scan_iam_step bits) ([], false) (itersearch bits iam_sync) in
  let '(areas, pending) :=
    foldl (scan_sync_step bits) (areas, None) (itersearch bits sync) in
  (match pending with Some i => areas ++ [AIDAM i] | None => areas end, seen).

(** One iteration of the conversion to offsets within the track.  The state
    is [p], [n] ([None] is [float('inf')]) and what is left of the iterator
    over [revolutions]. *)
Definition normalise_step (st : Z * option Z * list Z * list area) (a : area)
    : Z * option Z * list Z * list area :=
  let '(p, n, index, out) := st in
  let '(p, n, index) :=
    match n with
    | Some n' =>
        if n' <=? area_start a then
          match index with
          | r :: index' => (n', Some (n' + r), index')
          | [] => (n', None, [])
          end
        else (p, n, index)
    | None => (p, n, index)
    end in
  (p, n, index, out ++ [area_delta a p]).

(** The areas sorted, re-expressed and sorted again; [None] is the
    [StopIteration] of the first [next(index)]. *)
Definition normalise (revolutions : list Z) (areas : list area)
    : option (list area) :=
  match revolutions with
  | [] => None
  | n :: index =>
      let '(_, _, _, out) :=
        foldl normalise_step (0, Some n, index, [])
              (sort_by area_start areas) in
      Some (sort_by area_start out)
  end.

(** Whether an entry of a deduplicated list is the area at [start]. *)
Definition close_to (start s_start : Z) : Prop := Z.abs (s_start - start) < 1000.

#[global] Instance close_to_dec start s_start : Decision (close_to start s_start).
Proof. unfold close_to. apply _. Defined.

(** One iteration of the loop that adds to the deduplicated lists. *)
Definition merge_step (t : track) (a : area) : track :=
  match a with
  | AIAM x =>
      match list_find (fun s => close_to (iam_start x) (iam_start s)) (iams t) with
      | Some _ => t
      | None => set_iams t (iams t ++ [x])
      end
  | ASector x =>
      match list_find (fun s => close_to (sec_start x) (sec_start s)) (sectors t) with
      | Some (i, s) =>
          if negb (sec_crc s =? 0) && (sec_crc x =? 0)
          then set_sectors t (<[i := x]> (sectors t))
          else t
      | None => set_sectors t (sectors t ++ [x])
      end
  | AIDAM _ | ADAM _ => t
  end.

Definition merge_areas (t : track) (areas : list area) : track :=
  foldl merge_step t areas.

(** [IBM_MFM.decode_raw] *)
Definition decode_raw (self : track) (bits : list bool) (revolutions : list Z)
    : option track :=
  let '(areas, seen) := scan_areas bits in
  let self := if seen then set_has_iam self true else self in
  areas ← normalise revolutions areas;
  Some (merge_areas self areas).

(** ** Formatted tracks: [IBM_MFM_Formatted] *)

Definition same_chrn (s r : Sector) : bool :=
  (idam_c (idam s) =? idam_c (idam r)) && (idam_h (idam s) =? idam_h (idam r))
  && (idam_r (idam s) =? idam_r (idam r)) && (idam_n (idam s) =? idam_n (idam r)).

Definition IDAM_set_crc (x : IDAM) (crc : Z) : IDAM :=
  mkIDAM (idam_start x) (idam_end x) crc
         (idam_c x) (idam_h x) (idam_r x) (idam_n x).

Definition DAM_set_crc (x : DAM) (crc : Z) : DAM :=
  mkDAM (dam_start x) (dam_end x) crc (dam_mark x) (dam_data x).

(** The body of the inner loop: what a raw sector [r] with a good ID field
    does to an expected sector [s]. *)
Definition match_sector (r s : Sector) : Sector :=
  if same_chrn s r then
    let i := IDAM_set_crc (idam s) 0 in
    if (dam_crc (dam r) =? 0) && negb (dam_crc (dam s) =? 0)
    then mkSector (sec_start s) (sec_end s) 0 i
                  (mkDAM (dam_start (dam s)) (dam_end (dam s)) 0
                         (dam_mark (dam s)) (dam_data (dam r)))
    else mkSector (sec_start s) (sec_end s) (sec_crc s) i (dam s)
  else s.

(** The outer loop over [raw_sectors]; the warnings printed for unexpected
    sectors are not modelled. *)
Definition match_raw (sectors : list Sector) (r : Sector) : list Sector :=
  if negb (idam_crc (idam r) =? 0) then sectors
  else map (match_sector r) sectors.

(** [IBM_MFM_Formatted.decode_raw]: the base decoder runs on the raw lists,
    which it updates in place, and the expected sectors are then matched. *)
Definition decode_raw_formatted (self : track) (bits : list bool)
    (revolutions : list Z) : option track :=
  t ← decode_raw (set_sectors (set_iams self (raw_iams self)) (raw_sectors self))
                 bits revolutions;
  let t := set_raw t (iams t) (sectors t) in
  let t := set_sectors (set_iams t (iams self)) (sectors self) in
  Some (set_sectors t (foldl match_raw (sectors t) (raw_sectors t))).

(** [verify_track]: the read-back track, before the flux is decoded. *)
Definition readback_sector (x : Sector) : Sector :=
  new_Sector (IDAM_set_crc (idam x) 0xffff) (DAM_set_crc (dam x) 0xffff).

Definition readback_init (self : track) : track :=
  let rb := new_track (trk_cyl self) (trk_head self) in
  mkTrack (trk_cyl rb) (trk_head rb)
          (iams rb ++ iams self)
          (sectors rb ++ map readback_sector (sectors self))
          (has_iam rb) (time_per_rev self) (clock self)
          (raw_iams rb) (raw_sectors rb) (img_bps rb) (nsec rb).

Definition verify_track (self : track) (bits : list bool)
    (revolutions : list Z) : option bool :=
  readback_track ← decode_raw_formatted (readback_init self) bits revolutions;
  if negb (nr_missing readback_track =? 0) then Some false
  else Some (bool_decide (sectors self = sectors readback_track)).

(** [s.crc = s.idam.crc = s.dam.crc = 0] and [s.dam.data = data] *)
Definition store_slice (s : Sector) (data : list Z) : Sector :=
  mkSector (sec_start s) (sec_end s) 0 (IDAM_set_crc (idam s) 0)
           (mkDAM (dam_start (dam s)) (dam_end (dam s)) 0 (dam_mark (dam s))
                  data).

(** [set_img_track]: the loop over the sectors in sector-ID order.  The
    state is [pos]; [None] is the [ValueError] of a negative shift count. *)
Fixpoint assign_slices (bps : option Z) (tdat : list Z) (pos : Z)
    (l : list Sector) : option (list Sector) :=
  match l with
  | [] => Some []
  | s :: l' =>
      size ← py_shl 128 (idam_n (idam s));
      let s' := store_slice s (slice tdat pos (pos + size)) in
      rest ← assign_slices bps tdat
                (match bps with Some b => pos + b | None => pos + size end) l';
      Some (s' :: rest)
  end.

(** [functools.reduce(lambda x, y: x + (128<<y.idam.n), sectors, 0)] *)
Definition total_size (l : list Sector) : option Z :=
  foldl (fun acc s => x ← acc; size ← py_shl 128 (idam_n (idam s)); Some (x + size))
        (Some 0) l.

(** [set_img_track]: the track afterwards and the value returned. *)
Definition set_img_track (self : track) (tdat : list Z) : option (track * Z) :=
  let by_id := sort_by (fun x => idam_r (idam x)) (sectors self) in
  totsize ← match img_bps self with
            | Some b => Some (Z.of_nat (length by_id) * b)
            | None => total_size by_id
            end;
  let tdat := if Z.of_nat (length tdat) <? totsize
              then tdat ++ replicate (Z.to_nat (totsize - Z.of_nat (length tdat))) 0
              else tdat in
  assigned ← assign_slices (img_bps self) tdat 0 by_id;
  Some (set_sectors self (sort_by sec_start assigned), totsize).

(** [get_img_track]; [None] is the [ValueError] of [bytes] of a negative
    count. *)
Definition gather_sector (bps : option Z) (tdat : option (list Z)) (s : Sector)
    : option (list Z) :=
  tdat ← tdat;
  let tdat := tdat ++ dam_data (dam s) in
  match bps with
  | Some b =>
      let pad := b - Z.of_nat (length (dam_data (dam s))) in
      if pad <? 0 then None else Some (tdat ++ replicate (Z.to_nat pad) 0)
  | None => Some tdat
  end.

Definition get_img_track (self : track) : option (list Z) :=
  foldl (gather_sector (img_bps self)) (Some [])
        (sort_by (fun x => idam_r (idam x)) (sectors self)).

(** ** Geometry synthesiser: [IBM_MFM_Formatted.from_config] *)

(** The configuration surface that [from_config] reads; a gap, the head
    override and the image stride may be [None]. *)
Record Configuration := mkConfiguration {
  cfg_secs : Z; cfg_sz : list Z; cfg_id : Z; cfg_h : option Z;
  cfg_cskew : Z; cfg_hskew : Z; cfg_interleave : Z; cfg_iam : bool;
  cfg_gap1 : option Z; cfg_gap2 : option Z; cfg_gap3 : option Z;
  cfg_gap4a : option Z;
  cfg_rate : Z; cfg_rpm : Z; cfg_img_bps : option Z }.

Definition GAP_4A : Z := 80.
Definition GAP_1 : Z := 50.
Definition GAP_2 : Z := 22.
Definition GAP_3 : list Z := [32; 54; 84; 116; 255; 255; 255; 255].

(** [a // b]; [None] is [ZeroDivisionError]. *)
Definition py_div (a b : Z) : option Z :=
  if b =? 0 then None else Some (a / b).

Definition sec_n (config : Configuration) (i : Z) : option Z :=
  if i <? Z.of_nat (length (cfg_sz config)) then py_index (cfg_sz config) i
  else py_index (cfg_sz config) (-1).

(** The gaps chosen before the length is computed. *)
Definition config_gap_1 (config : Configuration) : option Z :=
  if cfg_iam config then Some (default GAP_1 (cfg_gap1 config)) else None.

Definition config_idx_sz (config : Configuration) : Z :=
  default GAP_4A (cfg_gap4a config)
  + match config_gap_1 config with
    | Some g => gap_presync + 4 + g
    | None => 0
    end.

(** [tracklen] as it stands before the data rate is chosen: gaps, field
    overheads and sector data, in bit-cells. *)
Definition config_tracklen (config : Configuration) : option Z :=
  let nsec := cfg_secs config in
  let idam_sz := gap_presync + 8 + 2 + default GAP_2 (cfg_gap2 config) in
  let dam_sz_pre := gap_presync + 4 in
  let dam_sz_post := 2 + default 0 (cfg_gap3 config) in
  let tracklen := config_idx_sz config
                  + (idam_sz + dam_sz_pre + dam_sz_post) * nsec in
  tracklen ← foldl (fun acc i =>
                      x ← acc; n ← sec_n config i; size ← py_shl 128 n;
                      Some (x + size))
                   (Some tracklen) (range nsec);
  Some (tracklen * 16).

(** [maxlen] of tier [i] *)
Definition tier_maxlen (rpm i : Z) : Z :=
  Z.shiftl (50000 * 300 / rpm) i + 5000.

(** The loop [for i in range(1, 4)]: the value of [i] when it is left, by
    [break] or at the end of the range. *)
Fixpoint select_tier (tracklen rpm : Z) (tiers : list Z) (i : Z) : Z :=
  match tiers with
  | [] => i
  | j :: tiers' =>
      if tracklen <? tier_maxlen rpm j then j
      else select_tier tracklen rpm tiers' j
  end.

(** [rate] after the automatic choice *)
Definition config_rate (config : Configuration) (tracklen : Z) : option Z :=
  if cfg_rate config =? 0 then
    if cfg_rpm config =? 0 then None
    else Some (Z.shiftl 125 (select_tier tracklen (cfg_rpm config) (seqZ 1 3) 0))
  else Some (cfg_rate config).

(** The inner [while] of the sector map: the first free slot from [pos] on.
    A free slot exists whenever the loop is entered, so at most one pass
    over the map is made; [fuel] is that bound. *)
Fixpoint free_slot (fuel : nat) (sec_map : list Z) (nsec pos : Z) : option Z :=
  match fuel with
  | O => None
  | S fuel' =>
      x ← py_index sec_map pos;
      if negb (x =? -1) then free_slot fuel' sec_map nsec (Z.modulo (pos + 1) nsec)
      else Some pos
  end.

(** The logical sector map in rotational order. *)
Definition sector_map (config : Configuration) (cyl head : Z) : option (list Z) :=
  let nsec := cfg_secs config in
  let sec_map := replicate (Z.to_nat nsec) (-1) in
  let pos := if negb (nsec =? 0)
             then Z.modulo (cyl * cfg_cskew config + head * cfg_hskew config) nsec
             else 0 in
  st ← foldl (fun st i =>
                '(sec_map, pos) ← st;
                pos ← free_slot (S (length sec_map)) sec_map nsec pos;
                Some (<[Z.to_nat pos := i]> sec_map,
                      Z.modulo (pos + cfg_interleave config) nsec))
             (Some (sec_map, pos)) (range nsec);
  Some st.1.

(** [b'-=[BAD SECTOR]=-'] *)
Definition bad_sector_fill : list Z :=
  [45; 61; 91; 66; 65; 68; 32; 83; 69; 67; 84; 79; 82; 93; 61; 45].

(** One iteration of the loop that places the sectors; the state is [pos]
    and [t.sectors]. *)
Definition place_sector (config : Configuration) (cyl h gap_2 gap_3 : Z)
    (sec_map : list Z) (st : option (Z * list Sector)) (i : Z)
    : option (Z * list Sector) :=
  '(pos, secs) ← st;
  sec ← py_index sec_map i;
  let pos := pos + gap_presync in
  n ← sec_n config sec;
  let idam := mkIDAM (pos * 16) ((pos + 10) * 16) 0xffff
                     cyl h (cfg_id config + sec) n in
  let pos := pos + (10 + gap_2 + gap_presync) in
  size ← py_shl 128 (idam_n idam);
  let dam := mkDAM (pos * 16) ((pos + 4 + size + 2) * 16) 0xffff MARK_DAM
                   (mjoin (replicate (Z.to_nat (size / 16)) bad_sector_fill)) in
  Some (pos + (4 + size + 2 + gap_3), secs ++ [new_Sector idam dam]).

Definition from_config (config : Configuration) (cyl head : Z) : option track :=
  let nsec := cfg_secs config in
  let gap_1 := config_gap_1 config in
  let gap_2 := default GAP_2 (cfg_gap2 config) in
  let gap_3 := default 0 (cfg_gap3 config) in
  let gap_4a := default GAP_4A (cfg_gap4a config) in
  tracklen ← config_tracklen config;
  let rpm := cfg_rpm config in
  rate ← config_rate config tracklen;
  let '(gap_2, tracklen) :=
    if bool_decide (cfg_gap2 config = None) && (1000 <=? rate)
    then (41, tracklen + 16 * nsec * (41 - gap_2))
    else (gap_2, tracklen) in
  tracklen_bc ← py_div (rate * 400 * 300) rpm;
  '(gap_3, tracklen) ←
    (if negb (nsec =? 0) && bool_decide (cfg_gap3 config = None) then
       let space := Z.max 0 (tracklen_bc - tracklen) in
       no ← sec_n config 0;
       per_sector ← py_div space (16 * nsec);
       max_gap ← py_index GAP_3 no;
       let gap_3 := Z.min per_sector max_gap in
       Some (gap_3, tracklen + 16 * nsec * gap_3)
     else Some (gap_3, tracklen));
  let tracklen_bc := Z.max tracklen_bc tracklen in
  let time_per_rev := (inject_Z 60 / inject_Z rpm)%Q in
  clock ← (if tracklen_bc =? 0 then None
           else Some (time_per_rev / inject_Z tracklen_bc)%Q);
  sec_map ← sector_map config cyl head;
  let pos := gap_4a in
  let '(iams, pos) :=
    match gap_1 with
    | Some g =>
        let pos := pos + gap_presync in
        ([mkIAM (pos * 16) ((pos + 4) * 16)], pos + (4 + g))
    | None => ([], pos)
    end in
  let h := default head (cfg_h config) in
  '(_, secs) ← foldl (place_sector config cyl h gap_2 gap_3 sec_map)
                     (Some (pos, [])) (range nsec);
  Some (mkTrack cyl head iams secs false time_per_rev clock [] []
                (cfg_img_bps config) nsec).

(** ** Vocabulary of the statements *)



(** What one pass of [mfm_encode] may do to a byte [x] to give [o]: the data
    bits (mask 0x55) are kept, no bit is cleared, and a byte that already
    has a clock bit is not touched. *)
Definition clock_only (o x : Z) : Prop :=
  Z.land o 0x55 = Z.land x 0x55 /\ Z.land o x = x
  /\ (Z.land x 0xaa <> 0 -> o = x).

(** The areas that [merge_step] looks at. *)
Definition is_kept (a : area) : bool :=
  match a with
  | AIAM _ | ASector _ => true
  | AIDAM _ | ADAM _ => false
  end.

(** The size in bytes of the data of a sector, and of a list of sectors. *)
Definition sector_size (s : Sector) : Z := Z.shiftl 128 (idam_n (idam s)).

Definition capacity (l : list Sector) : Z :=
  foldr (fun s acc => sector_size s + acc) 0 l.

(** [buf] zero-padded to [cap] bytes when it is shorter. *)
Definition padded (cap : Z) (buf : list Z) : list Z :=
  buf ++ replicate (Z.to_nat (cap - Z.of_nat (length buf))) 0.

(** The sectors of [l], in the order of [l], with all CRCs cleared and
    holding consecutive slices of [buf]. *)
Fixpoint stored (l : list Sector) (buf : list Z) : list Sector :=
  match l with
  | [] => []
  | s :: l' =>
      store_slice s (take (Z.to_nat (sector_size s)) buf)
        :: stored l' (drop (Z.to_nat (sector_size s)) buf)
  end.

Definition crc_clear (s : Sector) : Prop :=
  sec_crc s = 0 /\ idam_crc (idam s) = 0 /\ dam_crc (dam s) = 0.

(** The image stride, when there is one, is the size of every sector. *)
Definition stride_fits (bps : option Z) (l : list Sector) : Prop :=
  match bps with
  | Some b => Forall (fun s => sector_size s = b) l
  | None => True
  end.

Definition sector_id (s : Sector) : Z := idam_r (idam s).

Definition key_le {A} (key : A -> Z) (x y : A) : Prop := key x <= key y.

(** The slots of a sector map that are still free. *)
Definition free_slots (sec_map : list Z) : list Z :=
  filter (fun x => x = -1) sec_map.


(** ** Track encoder: [IBM_MFM.raw_track] *)




(** [field + struct.pack('>H', crc16.new(field).crcValue)] *)
Definition append_crc (field : list Z) : list Z :=
  field ++ pack_H (crc16 field).




(** ** Vocabulary of further statements *)

(** The bytes without a bit under the clock mask 0xaa: what [encode] emits. *)
Definition clock_free : list Z :=
  [0x00; 0x01; 0x04; 0x05; 0x10; 0x11; 0x14; 0x15;
   0x40; 0x41; 0x44; 0x45; 0x50; 0x51; 0x54; 0x55].

(** A 16-bit word has no two adjacent one bits. *)
Definition no_adjacent_ones (w : Z) : bool := Z.land w (Z.shiftr w 1) =? 0.

(** Every four consecutive bits of a 16-bit word hold a one bit. *)
Definition no_four_zeros (w : Z) : bool :=
  forallb (fun i => negb (Z.land (Z.shiftr w i) 15 =? 0)) (range 13).

(** Two consecutive bytes of a stream, as one 16-bit word. *)
Definition word_of (o1 o2 : Z) : Z := Z.lor (Z.shiftl o1 8) o2.

Definition area_end (a : area) : Z :=
  match a with
  | AIAM x => iam_end x
  | AIDAM x => idam_end x
  | ADAM x => dam_end x
  | ASector x => sec_end x
  end.

(** A sector as the scan builds it: it spans from the start of its ID field
    to the end of its data field, the ID field takes ten encoded bytes, the
    data field four bytes of sync and mark, [128 << n] bytes of data and two
    of CRC, and the CRC of the sector is the bitwise or of the two. *)
Definition sector_shape (s : Sector) : Prop :=
  sec_start s = idam_start (idam s) /\ sec_end s = dam_end (dam s)
  /\ idam_end (idam s) = idam_start (idam s) + 10 * 16
  /\ idam_start (idam s) < dam_start (dam s)
  /\ dam_end (dam s)
     = dam_start (dam s) + (4 + Z.shiftl 128 (idam_n (idam s)) + 2) * 16
  /\ Z.of_nat (length (dam_data (dam s))) = Z.shiftl 128 (idam_n (idam s))
  /\ (dam_mark (dam s) = MARK_DAM \/ dam_mark (dam s) = MARK_DDAM)
  /\ sec_crc s = Z.lor (idam_crc (idam s)) (dam_crc (dam s)).

Definition area_shape (a : area) : Prop :=
  match a with
  | AIAM x => iam_end x = iam_start x + 4 * 16
  | AIDAM x => idam_end x = idam_start x + 10 * 16
  | ADAM x => dam_end x = dam_start x + 4 * 16 /\ dam_crc x = 0xffff
              /\ dam_data x = []
  | ASector x => sector_shape x
  end.

(** An area re-expressed relative to the first index boundary [r0] when it
    starts at or after it. *)
Definition relative_to (r0 : Z) (a : area) : area :=
  if area_start a <? r0 then a else area_delta a r0.

(** A raw sector [r] whose ID field is good and names the expected sector
    [s]; and one whose data field is good as well. *)
Definition id_copy (s r : Sector) : Prop :=
  idam_crc (idam r) = 0 /\ same_chrn s r = true.

Definition good_copy (s r : Sector) : Prop :=
  id_copy s r /\ dam_crc (dam r) = 0.

#[global] Instance id_copy_dec s r : Decision (id_copy s r).
Proof. unfold id_copy. apply _. Defined.

#[global] Instance good_copy_dec s r : Decision (good_copy s r).
Proof. unfold good_copy. apply _. Defined.

(** [s.idam.crc = 0], the rest of the sector as it was. *)
Definition id_seen (s : Sector) : Sector :=
  mkSector (sec_start s) (sec_end s) (sec_crc s) (IDAM_set_crc (idam s) 0) (dam s).

(** What the matching loops of [IBM_MFM_Formatted.decode_raw] leave of an
    expected sector [s], told without the loops. *)
Definition matched (raws : list Sector) (s : Sector) : Sector :=
  match list_find (id_copy s) raws with
  | None => s
  | Some _ =>
      if dam_crc (dam s) =? 0 then id_seen s
      else match list_find (good_copy s) raws with
           | Some (_, r) => store_slice s (dam_data (dam r))
           | None => id_seen s
           end
  end.

(** What [verify_track] asks of a sector of the track, given the raw sectors
    that were read back. *)
Definition verified_by (raws : list Sector) (s : Sector) : Prop :=
  sec_start s = idam_start (idam s) /\ sec_end s = dam_end (dam s)
  /\ crc_clear s
  /\ exists i r, list_find (good_copy s) raws = Some (i, r)
                 /\ dam_data (dam r) = dam_data (dam s).

(** The loop over the raw sectors as one expected sector sees it. *)
Definition match_fold (raws : list Sector) (s : Sector) : Sector :=
  foldl (fun acc r => if negb (idam_crc (idam r) =? 0) then acc
                      else match_sector r acc) s raws.

(** A sector as [from_config] places it for the logical sector [sec]: the
    ID counts from [config.id], the size code is that of [sec], all three
    CRCs are 0xffff, and the data field holds the filler text. *)
Definition placed_as (config : Configuration) (cyl head : Z) (sec : Z)
    (s : Sector) : Prop :=
  idam_r (idam s) = cfg_id config + sec
  /\ sec_n config sec = Some (idam_n (idam s))
  /\ 0 <= idam_n (idam s)
  /\ idam_c (idam s) = cyl
  /\ idam_h (idam s) = default head (cfg_h config)
  /\ sec_crc s = 0xffff /\ idam_crc (idam s) = 0xffff /\ dam_crc (dam s) = 0xffff
  /\ dam_mark (dam s) = MARK_DAM
  /\ dam_data (dam s)
     = mjoin (replicate (Z.to_nat (Z.shiftl 128 (idam_n (idam s)) / 16))
                        bad_sector_fill)
  /\ Z.of_nat (length (dam_data (dam s))) = Z.shiftl 128 (idam_n (idam s))
  /\ sec_start s = idam_start (idam s) /\ sec_end s = dam_end (dam s)
  /\ idam_end (idam s) = idam_start (idam s) + 10 * 16
  /\ dam_end (dam s)
     = dam_start (dam s) + (4 + Z.shiftl 128 (idam_n (idam s)) + 2) * 16.

(** [sum(l)] *)
Definition sum_Z (l : list Z) : Z := foldr Z.add 0 l.

(** Whether the data of every sector fit the image stride, if one is set. *)
Definition stride_holds (bps : option Z) (l : list Sector) : bool :=
  match bps with
  | Some b => forallb (fun s => Z.of_nat (length (dam_data (dam s))) <=? b) l
  | None => true
  end.

(** What one sector adds to the image: its data, zero-padded to the stride
    if one is set. *)
Definition image_slot (bps : option Z) (s : Sector) : list Z :=
  dam_data (dam s)
  ++ match bps with
     | Some b => replicate (Z.to_nat (b - Z.of_nat (length (dam_data (dam s))))) 0
     | None => []
     end.

(** A sector without what [set_img_track] writes: its CRCs and its data. *)
Definition geometry_of (s : Sector) : Sector := store_slice s [].

(** ** The track image as a list of fields *)

(** The two sync patterns. *)
Inductive sync_kind := FieldSync | IndexSync.

#[global] Instance sync_kind_eq_dec : EqDecision sync_kind.
Proof. solve_decision. Defined.










(** The bytes of a sector can be written: [bytes(...)] does not raise. *)
Definition writable (x : Sector) : Prop :=
  is_byte (idam_c (idam x)) /\ is_byte (idam_h (idam x))
  /\ is_byte (idam_r (idam x)) /\ is_byte (idam_n (idam x))
  /\ is_byte (dam_mark (dam x)) /\ Forall is_byte (dam_data (dam x)).





(** The sector that the scan of [decode_raw] builds from the two fields of
    [x] read without error at the offsets that [x] records. *)
Definition read_back (x : Sector) : Sector :=
  new_Sector
    (mkIDAM (sec_start x) (sec_start x + 10 * 16) 0
            (idam_c (idam x)) (idam_h (idam x)) (idam_r (idam x)) (idam_n (idam x)))
    (mkDAM (dam_start (dam x))
           (dam_start (dam x) + (4 + Z.shiftl 128 (idam_n (idam x)) + 2) * 16) 0
           (dam_mark (dam x)) (dam_data (dam x))).

(** A track whose areas [raw_track] writes where they say they are: at most
    one index mark, before the sectors; every area on a whole encoded byte,
    with room for the presync run before it; and every sector of the shape
    and with the bytes that a scan can give. *)
Definition laid_out (t : track) : Prop :=
  (length (iams t) <= 1)%nat
  /\ Forall (fun m => gap_presync * 16 <= iam_start m /\ (16 | iam_start m)
                      /\ iam_end m = iam_start m + 4 * 16
                      /\ Forall (fun s => iam_end m + gap_presync * 16
                                          <= sec_start s) (sectors t))
            (iams t)
  /\ Forall (fun s => gap_presync * 16 <= sec_start s
                      /\ (16 | sec_start s) /\ (16 | dam_start (dam s))
                      /\ idam_end (idam s) + gap_presync * 16
                         <= dam_start (dam s)
                      /\ sector_shape s /\ writable s)
            (sectors t)
  /\ StronglySorted (fun a b => sec_end a + gap_presync * 16 <= sec_start b)
                    (sectors t).


(** A sector where it was, its CRCs cleared, holding as many bytes as its
    size code says. *)
Definition refilled (s s' : Sector) : Prop :=
  exists data, s' = store_slice s data
               /\ Z.of_nat (length data) = sector_size s
               /\ Forall is_byte data.


(** ** Concrete inputs used by the examples below *)

(** Nine 512-byte sectors, interleave 1, 250 kbit/s at 300 rpm; every gap,
    the head override and the image stride are left to their defaults. *)
Definition config_dd9 : Configuration :=
  mkConfiguration 9 [2; 2; 2; 2; 2; 2; 2; 2; 2] 1 None 0 0 1 true
                  None None None None 250 300 None.

(** Four 8192-byte sectors with the data rate left to [from_config]: more
    than any tier holds at 300 rpm. *)
Definition config_oversize : Configuration :=
  mkConfiguration 4 [6] 1 None 0 0 1 true None None None None 0 300 None.

(** The bit-cells of a track image [t], as [raw_track] makes them:
    [mfm_encode(t)] read as a bit array. *)
Definition mfm_bits (t : list Z) : list bool := frombytes (mfm_encode t).

(** A field of a track image: the sync pattern, then the encoded [body]. *)
Definition field (body : list Z) : list Z := sync_bytes ++ encode body.

(** [n] gap bytes, and the presync run of zero bytes. *)
Definition gap (n : nat) : list Z := encode (replicate n gapbyte).
Definition presync : list Z := encode (replicate (Z.to_nat gap_presync) 0).

(** The two CRC bytes of a field: the CRC runs over the three sync bytes
    (0xa1 each once decoded) and the body. *)
Definition with_crc (body : list Z) : list Z :=
  body ++ pack_H (crc16 ([0xa1; 0xa1; 0xa1] ++ body)).

Definition idam_body (c h r n : Z) : list Z := with_crc [MARK_IDAM; c; h; r; n].

Definition dam_body (data : list Z) : list Z := with_crc (MARK_DAM :: data).

(** An ID field for a 128-byte sector, four gap bytes, and nothing else. *)
Definition lone_idam_bits : list bool :=
  mfm_bits (field (idam_body 0 0 1 0) ++ gap 4).

(** The sync pattern and a data mark, with no ID field before it. *)
Definition lone_dam_bits : list bool := mfm_bits (field [MARK_DAM]).

(** An ID field, 113 gap bytes and the presync run (125 bytes, 2000
    bit-cells), and the data field of a 128-byte sector: the ID field ends
    at bit-cell 160, the data sync starts at 2160. *)
Definition far_dam_bits : list bool :=
  mfm_bits (field (idam_body 0 0 1 0) ++ gap 113 ++ presync
              ++ field (dam_body (replicate 128 0xe5))).

(** One revolution of 375 bytes (6000 bit-cells) holding one 128-byte
    sector laid out as [raw_track] does, with GAP2 of 22 bytes: ID sync at
    bit-cell 400, data sync at 912.  The data bytes are [fill]; the stored
    data CRC is that of a field filled with [crc_of]. *)
Definition revolution_bits (fill crc_of : Z) : list bool :=
  let body := MARK_DAM :: replicate 128 fill in
  let stored := MARK_DAM :: replicate 128 crc_of in
  mfm_bits (gap 13 ++ presync ++ field (idam_body 0 0 1 0)
              ++ gap 10 ++ presync
              ++ field (body ++ pack_H (crc16 ([0xa1; 0xa1; 0xa1] ++ stored)))
              ++ gap 184).

(** Two revolutions of one and the same sector, and the lengths of the
    revolutions as the demodulator reports them. *)
Definition two_revolutions_bits : list bool :=
  revolution_bits 1 1 ++ revolution_bits 1 1.

(** The same, the data CRC of the first revolution being wrong. *)
Definition bad_then_good_bits : list bool :=
  revolution_bits 1 2 ++ revolution_bits 1 1.

Definition two_revolutions : list Z := [6000; 6000].

(** The track read from one good revolution: one sector, all CRCs zero. *)
Definition one_sector_track : track :=
  default (new_track 0 0)
          (decode_raw (new_track 0 0) (revolution_bits 1 1) [6000]).

(** Two 128-byte sectors with IDs 1 and 2 and an image stride of 256. *)
Definition blank_sector (start r : Z) : Sector :=
  new_Sector (mkIDAM start (start + 160) 0xffff 0 0 r 0)
             (mkDAM (start + 512) (start + 512 + 134 * 16) 0xffff MARK_DAM
                    (replicate 128 0)).

Definition strided_track : track :=
  mkTrack 0 0 [] [blank_sector 400 1; blank_sector 3400 2] false
          (60 # 300) (2 # 1000000) [] [] (Some 256) 2.

(** Two 128-byte sectors with the same ID, listed against their order on
    the track, and no image stride. *)
Definition twin_id_track : track :=
  mkTrack 0 0 [] [blank_sector 3400 1; blank_sector 400 1] false
          (60 # 300) (2 # 1000000) [] [] None 2.

(** Two 128-byte sectors with IDs 2 and 1 in track order, no stride. *)
Definition plain_track : track :=
  mkTrack 0 0 [] [blank_sector 400 2; blank_sector 3400 1] false
          (60 # 300) (2 # 1000000) [] [] None 2.

(** Image buffers: four runs of 128 equal bytes, and the first two runs. *)
Definition image_512 : list Z :=
  replicate 128 1 ++ replicate 128 2 ++ replicate 128 3 ++ replicate 128 4.

Definition image_256 : list Z := replicate 128 1 ++ replicate 128 2.

(** A later observation, 10 bit-cells off, of the sector of ID 2 at 400,
    read with good CRCs. *)
Definition good_observation : Sector :=
  store_slice (blank_sector 410 2) (replicate 128 0xe5).

(** The track [strided_track] after one good revolution holding its sector
    of ID 1 was decoded into it. *)
Definition strided_readback : track :=
  default (new_track 0 0)
          (decode_raw_formatted strided_track (revolution_bits 1 1) [6000]).

(** What the verifier's decode of two good revolutions returns for
    [one_sector_track]. *)
Definition verified_readback : track :=
  default (new_track 0 0)
          (decode_raw_formatted (readback_init one_sector_track)
                                two_revolutions_bits two_revolutions).

(** The track that [from_config] lays out for [config_dd9] on cylinder 0,
    head 0. *)
Definition dd9_track : track :=
  default (new_track 0 0) (from_config config_dd9 0 0).

(** Two 128-byte sectors with every gap given, and the track laid out for
    them on cylinder 2, head 1. *)
Definition config_gaps : Configuration :=
  mkConfiguration 2 [0] 1 None 0 0 1 true
                  (Some 40) (Some 22) (Some 30) (Some 60) 250 300 None.

Definition gaps_track : track :=
  default (new_track 0 0) (from_config config_gaps 2 1).

(** ** Codec: tables *)

Lemma encode_lookup_entry x : is_byte x -> encode_lookup x = encode_entry x.
Proof.
  intros Hx. unfold encode_lookup, encode_list.
  unfold range. rewrite list_lookup_fmap, lookup_seqZ_lt by (unfold is_byte in Hx; lia).
  simpl. f_equal. unfold is_byte in Hx. lia.
Qed.

Lemma decode_lookup_entry k :
  0 <= k <= 0x5555 -> decode_lookup k = decode_entry k.
Proof.
  intros Hk. unfold decode_lookup, decode_list.
  unfold range. rewrite list_lookup_fmap, lookup_seqZ_lt by lia.
  simpl. f_equal. lia.
Qed.

(** ** Codec: bytes and bits *)

(** A property of bytes decided by running it on the 256 byte values. *)
Lemma byte_cases (P : Z -> bool) :
  forallb P (range 256) = true -> forall x, is_byte x -> P x = true.
Proof.
  intros H x Hx. rewrite forallb_forall in H. apply H.
  apply list_elem_of_In, elem_of_seqZ. unfold is_byte in Hx. lia.
Qed.

Ltac by_byte_cases x Hx :=
  apply Z.eqb_eq; revert x Hx;
  match goal with
  | |- forall x, is_byte x -> ?f = true =>
      apply (byte_cases (fun x => f)); vm_compute; reflexivity
  end.

Lemma Zland_le_r a b : 0 <= a -> 0 <= b -> Z.land a b <= b.
Proof.
  intros Ha Hb. rewrite <- (Z2N.id a), <- (Z2N.id b) by lia.
  rewrite <- N2Z.inj_land. apply N2Z.inj_le, N.land_le_r.
Qed.

Lemma shiftl8_low y : Z.land (Z.shiftl y 8) 255 = 0.
Proof.
  change 255 with (Z.ones 8). rewrite Z.land_ones by lia.
  rewrite Z.shiftl_mul_pow2 by lia. apply Z.mod_mul. lia.
Qed.

Lemma byte_low x : is_byte x -> Z.land x 255 = x.
Proof.
  intros Hx. change 255 with (Z.ones 8). rewrite Z.land_ones by lia.
  apply Z.mod_small. exact Hx.
Qed.

Lemma land255_byte a : is_byte (Z.land a 255).
Proof.
  unfold is_byte. change 255 with (Z.ones 8). rewrite Z.land_ones by lia.
  apply Z.mod_pos_bound. lia.
Qed.

(** The index used by [decode] is within the table. *)
Lemma decode_pair_entry x y :
  0 <= x -> 0 <= y ->
  decode_pair (x, y) = decode_entry (Z.land (Z.lor (Z.shiftl x 8) y) 0x5555).
Proof.
  intros Hx Hy. unfold decode_pair. cbn [fst snd].
  apply decode_lookup_entry. split.
  - apply Z.land_nonneg. right. lia.
  - apply Zland_le_r; [|lia]. apply Z.lor_nonneg. split; [|lia].
    apply Z.shiftl_nonneg. lia.
Qed.

(** Only the data bits (mask 0x55 of each byte) reach the table index. *)
Lemma decode_index_data x y :
  is_byte x -> is_byte y ->
  Z.land (Z.lor (Z.shiftl x 8) y) 0x5555
  = Z.lor (Z.shiftl (Z.land x 0x55) 8) (Z.land y 0x55).
Proof.
  intros Hx Hy. rewrite Z.land_lor_distr_l. f_equal.
  - by_byte_cases x Hx.
  - by_byte_cases y Hy.
Qed.

Lemma decode_pair_data x y x' y' :
  is_byte x -> is_byte y -> is_byte x' -> is_byte y' ->
  Z.land x 0x55 = Z.land x' 0x55 -> Z.land y 0x55 = Z.land y' 0x55 ->
  decode_pair (x, y) = decode_pair (x', y').
Proof.
  intros Hx Hy Hx' Hy' Ex Ey. unfold is_byte in *.
  rewrite !decode_pair_entry by lia.
  rewrite !decode_index_data by assumption. now rewrite Ex, Ey.
Qed.

(** A byte survives the two tables. *)
Lemma decode_encode_byte x :
  is_byte x ->
  decode_pair (Z.land (Z.shiftr (encode_lookup x) 8) 255,
               Z.land (encode_lookup x) 255) = x.
Proof.
  intros Hx. rewrite encode_lookup_entry by assumption.
  rewrite decode_pair_entry by (apply land255_byte).
  by_byte_cases x Hx.
Qed.

(** The table spreads a byte over the data positions only. *)
Lemma encode_entry_clock_free x :
  is_byte x ->
  Z.land (Z.land (Z.shiftr (encode_entry x) 8) 255) 0xaa = 0
  /\ Z.land (Z.land (encode_entry x) 255) 0xaa = 0.
Proof. intros Hx. split; by_byte_cases x Hx. Qed.

(** ** Codec: lists *)

Lemma list_pair_ind {A} (P : list A -> Prop) :
  P [] -> (forall x, P [x]) -> (forall x y l, P l -> P (x :: y :: l)) ->
  forall l, P l.
Proof.
  intros H0 H1 H2 l. cut (P l /\ forall x, P (x :: l)); [tauto|].
  induction l as [|y l [IH1 IH2]]; split; auto.
Qed.

Lemma decode_cons2 x y l : decode (x :: y :: l) = decode_pair (x, y) :: decode l.
Proof. unfold decode. destruct l; reflexivity. Qed.

Lemma decode_single x : decode [x] = [].
Proof. reflexivity. Qed.

Lemma encode_cons x b :
  encode (x :: b)
  = Z.land (Z.shiftr (encode_lookup x) 8) 255
      :: Z.land (encode_lookup x) 255 :: encode b.
Proof. reflexivity. Qed.

Lemma length_encode b : length (encode b) = (2 * length b)%nat.
Proof. induction b as [|x b IH]; [reflexivity|]. rewrite encode_cons. simpl. lia. Qed.

Lemma length_decode d : length (decode d) = (length d / 2)%nat.
Proof.
  induction d as [| x | x y l IH] using list_pair_ind; try reflexivity.
  rewrite decode_cons2. cbn [length]. rewrite IH.
  change (S (S (length l))) with (2 + length l)%nat.
  replace (2 + length l)%nat with (length l + 1 * 2)%nat by lia.
  rewrite Nat.div_add by lia. lia.
Qed.

Lemma decode_ignores_tail d :
  decode d = decode (take (2 * (length d / 2)) d).
Proof.
  induction d as [| x | x y l IH] using list_pair_ind; try reflexivity.
  cbn [length]. replace (S (S (length l))) with (length l + 1 * 2)%nat by lia.
  rewrite Nat.div_add by lia.
  replace (2 * (length l / 2 + 1))%nat with (S (S (2 * (length l / 2)))) by lia.
  cbn [take]. rewrite !decode_cons2. now rewrite <- IH.
Qed.

Lemma mfm_step_byte y x : is_byte (mfm_step y x).
Proof. unfold mfm_step. apply land255_byte. Qed.

(** The clock pass leaves a byte with a clock bit alone, and otherwise only
    adds bits under the clock mask 0xaa. *)
Lemma mfm_step_shape y x :
  is_byte x ->
  mfm_step y x
  = if Z.land x 0xaa =? 0
    then Z.lor x (Z.land (Z.land (Z.lnot (Z.lor (Z.shiftr (Z.lor (Z.shiftl y 8) x) 1)
                                               (Z.shiftl (Z.lor (Z.shiftl y 8) x) 1)))
                                 0xaaaa) 255)
    else x.
Proof.
  intros Hx. unfold mfm_step.
  assert (Hlow : Z.land (Z.lor (Z.shiftl y 8) x) 255 = x).
  { rewrite Z.land_lor_distr_l, shiftl8_low, byte_low by assumption.
    apply Z.lor_0_l. }
  destruct (Z.land x 0xaa =? 0); [|exact Hlow].
  rewrite Z.land_lor_distr_l. now rewrite Hlow.
Qed.

Lemma mfm_step_data y x :
  is_byte x -> Z.land (mfm_step y x) 0x55 = Z.land x 0x55.
Proof.
  intros Hx. rewrite mfm_step_shape by assumption.
  destruct (Z.land x 0xaa =? 0); [|reflexivity].
  rewrite Z.land_lor_distr_l. rewrite <- !Z.land_assoc.
  change (Z.land 0xaaaa (Z.land 255 0x55)) with 0.
  now rewrite Z.land_0_r, Z.lor_0_r.
Qed.

Lemma mfm_step_keeps y x :
  is_byte x -> Z.land (mfm_step y x) x = x.
Proof.
  intros Hx. rewrite mfm_step_shape by assumption.
  destruct (Z.land x 0xaa =? 0); [|apply Z.land_diag].
  apply Z.bits_inj'. intros n _.
  rewrite Z.land_spec, Z.lor_spec.
  destruct (Z.testbit x n); [reflexivity | apply andb_false_r].
Qed.

Lemma mfm_step_skip y x :
  is_byte x -> Z.land x 0xaa <> 0 -> mfm_step y x = x.
Proof.
  intros Hx Hc. rewrite mfm_step_shape by assumption.
  apply Z.eqb_neq in Hc. now rewrite Hc.
Qed.

Lemma encode_bytes b : Forall is_byte (encode b).
Proof.
  induction b as [|x b IH]; [constructor|]. rewrite encode_cons.
  repeat constructor; try apply land255_byte. exact IH.
Qed.

Lemma mfm_encode_from_clock_only y dat :
  Forall is_byte dat -> Forall2 clock_only (mfm_encode_from y dat) dat.
Proof.
  intros Hd. revert y. induction Hd as [|x dat Hx Hd IH]; intros y; cbn.
  - constructor.
  - constructor; [|apply IH].
    repeat split; auto using mfm_step_data, mfm_step_keeps, mfm_step_skip.
Qed.

Lemma mfm_encode_from_bytes y dat : Forall is_byte (mfm_encode_from y dat).
Proof.
  revert y. induction dat as [|x dat IH]; intros y; cbn; constructor;
    auto using mfm_step_byte.
Qed.

Lemma decode_same_data os xs :
  Forall is_byte os -> Forall is_byte xs ->
  Forall2 (fun o x => Z.land o 0x55 = Z.land x 0x55) os xs ->
  decode os = decode xs.
Proof.
  revert xs. induction os as [| o | o o' os IH] using list_pair_ind;
    intros xs Ho Hx H2.
  - inversion H2. reflexivity.
  - inversion H2 as [|? ? ? ? _ Ht]; subst. inversion Ht. reflexivity.
  - inversion H2 as [|? x ? xs1 E1 Ht]; subst.
    inversion Ht as [|? x' ? xs2 E2 Ht']; subst.
    inversion Ho as [|? ? Bo Ho1]; subst. inversion Ho1; subst.
    inversion Hx as [|? ? Bx Hx1]; subst. inversion Hx1; subst.
    rewrite !decode_cons2. f_equal.
    + apply decode_pair_data; assumption.
    + apply IH; assumption.
Qed.

Lemma decode_mfm_encode dat :
  Forall is_byte dat -> decode (mfm_encode dat) = decode dat.
Proof.
  intros Hd. apply decode_same_data; [apply mfm_encode_from_bytes|assumption|].
  eapply Forall2_impl; [apply mfm_encode_from_clock_only, Hd|].
  intros o x (E & _). exact E.
Qed.

Lemma decode_encode_bytes b : Forall is_byte b -> decode (encode b) = b.
Proof.
  induction 1 as [|x b Hx Hb IH]; [reflexivity|].
  rewrite encode_cons, decode_cons2, decode_encode_byte by assumption.
  now rewrite IH.
Qed.

(** C1: for every byte sequence [b], [decode (encode b) = b]: each byte goes
    through the 256-entry table into 16 bit-cells, and the 0x5555-masked pair
    lookup gives the byte back. *)
Theorem decode_encode_roundtrip (b : list Z) (Hb : Forall is_byte b) :
  decode (encode b) = b.
Proof. now apply decode_encode_bytes. Qed.

Lemma decode_encode_roundtrip_witness :
  Forall is_byte [0; 0x4e; 0xa1; 0xff]
  /\ decode (encode [0; 0x4e; 0xa1; 0xff]) = [0; 0x4e; 0xa1; 0xff].
Proof.
  assert (H : Forall is_byte [0; 0x4e; 0xa1; 0xff])
    by (repeat constructor; unfold is_byte; lia).
  split; [exact H | exact (decode_encode_roundtrip _ H)].
Defined.

(** C2: for every byte sequence [b], [decode (mfm_encode (encode b)) = b].
    On any byte sequence [dat] the clock pass [mfm_encode] keeps every data
    bit (mask 0x55), never clears a bit, and changes a byte [x] only when
    [x & 0xaa = 0]; so decoding its output gives what decoding its input
    gives. *)
Theorem mfm_encode_keeps_data (b dat : list Z)
    (Hb : Forall is_byte b) (Hd : Forall is_byte dat) :
  decode (mfm_encode (encode b)) = b
  /\ Forall2 clock_only (mfm_encode dat) dat
  /\ decode (mfm_encode dat) = decode dat.
Proof.
  split; [|split].
  - rewrite decode_mfm_encode by apply encode_bytes.
    now apply decode_encode_bytes.
  - now apply mfm_encode_from_clock_only.
  - now apply decode_mfm_encode.
Qed.

Lemma mfm_encode_keeps_data_witness :
  decode (mfm_encode (encode [0; 0x4e; 0xff])) = [0; 0x4e; 0xff]
  /\ Forall2 clock_only (mfm_encode [0x55; 0x00; 0x01; 0xa9]) [0x55; 0x00; 0x01; 0xa9]
  /\ decode (mfm_encode [0x55; 0x00; 0x01; 0xa9]) = decode [0x55; 0x00; 0x01; 0xa9].
Proof.
  apply mfm_encode_keeps_data; repeat constructor; unfold is_byte; lia.
Defined.

(** C10: [encode] returns exactly twice as many bytes as it is given;
    [decode] returns [floor (len / 2)] bytes, and a trailing unpaired byte of
    an odd-length input has no effect on the result. *)
Theorem encode_decode_lengths (dat : list Z) :
  length (encode dat) = (2 * length dat)%nat
  /\ length (decode dat) = (length dat / 2)%nat
  /\ decode dat = decode (take (2 * (length dat / 2)) dat)
  /\ (Nat.even (length dat) = true -> forall z, decode (dat ++ [z]) = decode dat).
Proof.
  split; [apply length_encode|]. split; [apply length_decode|].
  split; [apply decode_ignores_tail|].
  intros He z. rewrite (decode_ignores_tail (dat ++ [z])).
  rewrite length_app. cbn [length].
  apply Nat.even_spec in He. destruct He as [k Hk]. rewrite Hk.
  replace (2 * k + 1)%nat with (1 + k * 2)%nat by lia.
  rewrite Nat.div_add by lia. cbn [Nat.div Nat.divmod fst].
  replace (2 * (0 + k))%nat with (length dat) by lia.
  now rewrite take_app_length.
Qed.

Lemma encode_decode_lengths_witness :
  decode ([0x44; 0x89] ++ [0x52]) = decode [0x44; 0x89].
Proof.
  apply (proj2 (proj2 (proj2 (encode_decode_lengths [0x44; 0x89])))).
  reflexivity.
Defined.

(** ** Geometry synthesiser *)

Lemma select_tier_spec tracklen rpm :
  let i := select_tier tracklen rpm (seqZ 1 3) 0 in
  1 <= i <= 3
  /\ (forall j, 1 <= j < i -> tier_maxlen rpm j <= tracklen)
  /\ (tracklen < tier_maxlen rpm i
      \/ i = 3 /\ forall j, 1 <= j <= 3 -> tier_maxlen rpm j <= tracklen).
Proof.
  change (seqZ 1 3) with [1; 2; 3]. cbn [select_tier].
  destruct (Z.ltb_spec tracklen (tier_maxlen rpm 1)) as [H1|H1].
  { split; [lia|]. split; [intros j Hj; lia | left; exact H1]. }
  destruct (Z.ltb_spec tracklen (tier_maxlen rpm 2)) as [H2|H2].
  { split; [lia|]. split; [|left; exact H2].
    intros j Hj. replace j with 1 by lia. exact H1. }
  destruct (Z.ltb_spec tracklen (tier_maxlen rpm 3)) as [H3|H3].
  - split; [lia|]. split; [|left; exact H3].
    intros j Hj. assert (j = 1 \/ j = 2) as [-> | ->] by lia; assumption.
  - split; [lia|].
    assert (Hall : forall j, 1 <= j <= 3 -> tier_maxlen rpm j <= tracklen).
    { intros j Hj. assert (j = 1 \/ j = 2 \/ j = 3) as [-> | [-> | ->]] by lia;
        assumption. }
    split; [|right; split; [reflexivity | exact Hall]].
    intros j Hj. apply Hall. lia.
Qed.

(** C7, as stated, at [config_oversize]: the content takes 530592 bit-cells,
    the rate chosen is 1000 (tier 3), and the maximum of no tier, that of
    tier 3 included, exceeds the content. *)
Lemma auto_rate_oversize_counterexample :
  cfg_rate config_oversize = 0
  /\ config_tracklen config_oversize = Some 530592
  /\ config_rate config_oversize 530592 = Some 1000
  /\ (exists t, from_config config_oversize 0 0 = Some t)
  /\ ~ (exists i, 1 <= i <= 3 /\ Z.shiftl 125 i = 1000
                  /\ 530592 < tier_maxlen (cfg_rpm config_oversize) i).
Proof.
  split; [reflexivity|]. split; [vm_compute; reflexivity|].
  split; [vm_compute; reflexivity|]. split.
  - assert (H : is_Some (from_config config_oversize 0 0))
      by (vm_compute; eexists; reflexivity).
    destruct H as [t Ht]. exists t. exact Ht.
  - intros (i & Hi & _ & Hlt).
    assert (i = 1 \/ i = 2 \/ i = 3) as [-> | [-> | ->]] by lia;
      vm_compute in Hlt; discriminate.
Qed.

(** C7 (amended): with [rate == 0] the rate chosen is [125 << i] for a tier
    [i] of 1 (250), 2 (500) or 3 (1000); no smaller tier's maximum track
    length, scaled by the rotational speed, exceeds the content length; and
    either tier [i]'s maximum does, or no tier's maximum does and [i] is the
    highest tier. *)
Theorem auto_rate_smallest_tier (config : Configuration) (tracklen : Z)
    (Hrate : cfg_rate config = 0) (Hrpm : cfg_rpm config <> 0) :
  exists i,
    config_rate config tracklen = Some (Z.shiftl 125 i)
    /\ (i = 1 \/ i = 2 \/ i = 3)
    /\ (forall j, 1 <= j < i -> tier_maxlen (cfg_rpm config) j <= tracklen)
    /\ (tracklen < tier_maxlen (cfg_rpm config) i
        \/ i = 3 /\ forall j, 1 <= j <= 3 ->
                              tier_maxlen (cfg_rpm config) j <= tracklen).
Proof.
  exists (select_tier tracklen (cfg_rpm config) (seqZ 1 3) 0).
  destruct (select_tier_spec tracklen (cfg_rpm config)) as (Hi & Hsmall & Hfit).
  split; [|split; [lia|split; assumption]].
  unfold config_rate. rewrite Hrate. cbn.
  apply Z.eqb_neq in Hrpm. now rewrite Hrpm.
Qed.

Lemma auto_rate_smallest_tier_witness :
  exists i,
    config_rate config_oversize 530592 = Some (Z.shiftl 125 i)
    /\ (i = 1 \/ i = 2 \/ i = 3)
    /\ (forall j, 1 <= j < i -> tier_maxlen (cfg_rpm config_oversize) j <= 530592)
    /\ (530592 < tier_maxlen (cfg_rpm config_oversize) i
        \/ i = 3 /\ forall j, 1 <= j <= 3 ->
                              tier_maxlen (cfg_rpm config_oversize) j <= 530592).
Proof.
  apply (auto_rate_smallest_tier config_oversize 530592);
    [reflexivity | vm_compute; discriminate].
Defined.

(** C6: [from_config] on nine 512-byte sectors, interleave 1, no skew,
    250 kbit/s, 300 rpm, first ID 1, with an index mark, on cylinder 0 head 0
    gives exactly 9 sectors, with IDs 1 to 9 in the order of strictly
    ascending start offsets, each of size code 2 with 512 bytes of data; one
    revolution takes 60/300 s and holds 100000 bit-cells (250 kbit/s, two
    bit-cells per data bit), so the bit-cell clock is 2 microseconds. *)
Theorem from_config_dd9 :
  exists t,
    from_config config_dd9 0 0 = Some t
    /\ length (sectors t) = 9%nat
    /\ map (fun s => idam_r (idam s)) (sort_by sec_start (sectors t))
       = [1; 2; 3; 4; 5; 6; 7; 8; 9]
    /\ map (fun s => idam_r (idam s)) (sectors t) = [1; 2; 3; 4; 5; 6; 7; 8; 9]
    /\ StronglySorted Z.lt (map sec_start (sectors t))
    /\ Forall (fun s => idam_n (idam s) = 2
                        /\ length (dam_data (dam s)) = 512%nat) (sectors t)
    /\ (time_per_rev t == 60 # 300)%Q
    /\ (clock t == time_per_rev t / inject_Z 100000)%Q
    /\ (clock t == 2 # 1000000)%Q.
Proof.
  assert (H : is_Some (from_config config_dd9 0 0))
    by (vm_compute; eexists; reflexivity).
  destruct H as [t Ht]. exists t. split; [exact Ht|].
  vm_compute in Ht. injection Ht as <-.
  split; [reflexivity|]. split; [vm_compute; reflexivity|].
  split; [reflexivity|]. split.
  { cbn [map sectors sec_start]. repeat (constructor; [|repeat (constructor; [lia|]); constructor]).
    constructor. }
  split; [repeat constructor|].
  split; [reflexivity|]. split; reflexivity.
Qed.

(** ** Geometry synthesiser: the sector map *)

Lemma py_index_in_range {A} (l : list A) i x :
  l !! i = Some x -> py_index l (Z.of_nat i) = Some x.
Proof.
  intros H. unfold py_index. destruct (Z.leb_spec 0 (Z.of_nat i)); [|lia].
  now rewrite Nat2Z.id.
Qed.

(** The scan for a free slot succeeds when one lies fewer than [fuel] steps
    ahead, going round the map. *)
Lemma free_slot_enough sec_map fuel pos d :
  let n := Z.of_nat (length sec_map) in
  0 <= pos < n -> (d < fuel)%nat ->
  sec_map !! Z.to_nat ((pos + Z.of_nat d) `mod` n) = Some (-1) ->
  exists p, free_slot fuel sec_map n pos = Some p
            /\ 0 <= p < n /\ sec_map !! Z.to_nat p = Some (-1).
Proof.
  intros n. revert pos d. induction fuel as [|fuel IH]; intros pos d Hpos Hd Hfree;
    [lia|].
  cbn [free_slot].
  destruct (lookup_lt_is_Some_2 sec_map (Z.to_nat pos)) as [x Hx]; [lia|].
  assert (Hidx : py_index sec_map pos = Some x).
  { rewrite <- (Z2Nat.id pos) by lia. now apply py_index_in_range. }
  rewrite Hidx. cbn.
  destruct (Z.eqb_spec x (-1)) as [->|Hne]; cbn.
  - exists pos. auto.
  - destruct d as [|d].
    + rewrite Z.add_0_r, Z.mod_small in Hfree by lia. congruence.
    + apply (IH _ d); [apply Z.mod_pos_bound; lia | lia |].
      rewrite Zplus_mod_idemp_l.
      replace (pos + 1 + Z.of_nat d) with (pos + Z.of_nat (S d)) by lia.
      exact Hfree.
Qed.

(** With a free slot anywhere in the map, one pass is enough. *)
Lemma free_slot_total sec_map pos j :
  let n := Z.of_nat (length sec_map) in
  0 <= pos < n -> sec_map !! j = Some (-1) ->
  exists p, free_slot (S (length sec_map)) sec_map n pos = Some p
            /\ 0 <= p < n /\ sec_map !! Z.to_nat p = Some (-1).
Proof.
  intros n Hpos Hj.
  assert (Hjn : (j < length sec_map)%nat) by (eapply lookup_lt_Some; exact Hj).
  apply (free_slot_enough sec_map _ pos (Z.to_nat ((Z.of_nat j - pos) `mod` n)));
    [exact Hpos | |].
  - pose proof (Z.mod_pos_bound (Z.of_nat j - pos) n). lia.
  - rewrite Z2Nat.id by (apply Z.mod_pos_bound; lia).
    rewrite Zplus_mod_idemp_r.
    replace (pos + (Z.of_nat j - pos)) with (Z.of_nat j) by lia.
    rewrite Z.mod_small by lia. now rewrite Nat2Z.id.
Qed.

Lemma free_count_insert (l : list Z) p i :
  l !! p = Some (-1) -> i <> -1 ->
  S (length (free_slots (<[p := i]> l)))
  = length (free_slots l).
Proof.
  unfold free_slots.
  revert p. induction l as [|x l IH]; intros p Hp Hi; [discriminate|].
  destruct p as [|p]; cbn in Hp.
  - injection Hp as ->. change (<[0%nat := i]> (-1 :: l)) with (i :: l).
    rewrite filter_cons_False by exact Hi.
    now rewrite filter_cons_True by reflexivity.
  - change (<[S p := i]> (x :: l)) with (x :: <[p := i]> l).
    destruct (decide (x = -1)) as [Hx|Hx].
    + rewrite !filter_cons_True by exact Hx. cbn. f_equal. now apply IH.
    + rewrite !filter_cons_False by exact Hx. now apply IH.
Qed.

Lemma free_count_pos (l : list Z) :
  (0 < length (free_slots l))%nat -> exists j, l !! j = Some (-1).
Proof.
  destruct (free_slots l) as [|x k] eqn:Hf; cbn; [lia|]. intros _.
  assert (Hx : x ∈ free_slots l) by (rewrite Hf; now left).
  apply list_elem_of_filter in Hx as [-> Hx]. now apply list_elem_of_lookup_1.
Qed.

Lemma free_slots_blank n : free_slots (replicate n (-1)) = replicate n (-1).
Proof.
  unfold free_slots. induction n as [|n IH]; [reflexivity|].
  cbn [replicate]. rewrite filter_cons_True by reflexivity. now rewrite IH.
Qed.

(** The loop that fills the sector map never fails and never runs out of
    fuel: as long as sectors are left to place, a slot is free. *)
Lemma sector_map_fold_total interleave nsec (todo : list Z) sec_map pos :
  Z.of_nat (length sec_map) = nsec -> 0 <= pos < nsec ->
  Forall (fun i => 0 <= i) todo ->
  (length todo <= length (free_slots sec_map))%nat ->
  is_Some (foldl (fun st i =>
                    '(sec_map, pos) ← st;
                    pos ← free_slot (S (length sec_map)) sec_map nsec pos;
                    Some (<[Z.to_nat pos := i]> sec_map,
                          Z.modulo (pos + interleave) nsec))
                 (Some (sec_map, pos)) todo).
Proof.
  intros Hlen Hpos His. revert sec_map pos Hlen Hpos.
  induction His as [|i todo Hi _ IH]; intros sec_map pos Hlen Hpos Hfree.
  - eexists. reflexivity.
  - cbn [foldl length] in *.
    destruct (free_count_pos sec_map) as [j Hj]; [lia|].
    destruct (free_slot_total sec_map pos j) as (p & Hp & Hrange & Hslot);
      [lia | exact Hj |].
    rewrite Hlen in Hp. cbn [mbind option_bind]. rewrite Hp.
    cbn [mbind option_bind]. apply IH.
    + now rewrite length_insert.
    + apply Z.mod_pos_bound. lia.
    + pose proof (free_count_insert sec_map (Z.to_nat p) i Hslot). lia.
Qed.

Lemma sector_map_total config cyl head : is_Some (sector_map config cyl head).
Proof.
  unfold sector_map. set (nsec := cfg_secs config).
  destruct (Z.leb_spec nsec 0) as [Hn|Hn].
  - unfold range. rewrite seqZ_nil by lia. eexists. reflexivity.
  - destruct (sector_map_fold_total (cfg_interleave config) nsec (range nsec)
                (replicate (Z.to_nat nsec) (-1))
                (Z.modulo (cyl * cfg_cskew config + head * cfg_hskew config) nsec))
      as [st Hst].
    + rewrite length_replicate. lia.
    + apply Z.mod_pos_bound. lia.
    + apply Forall_seqZ. lia.
    + unfold range. rewrite length_seqZ, free_slots_blank, length_replicate. lia.
    + destruct (Z.eqb_spec nsec 0); [lia|]. cbn [negb]. rewrite Hst.
      eexists. reflexivity.
Qed.

(** ** Flux decoder: the merge into the deduplicated lists *)






(** A good observation replaces the bad entry it is close to, in place; a
    second index mark close to the first is dropped. *)
Example merge_step_replaces :
  sectors (merge_step plain_track (ASector good_observation))
  = [good_observation; blank_sector 3400 1]
  /\ iams (merge_areas plain_track [AIAM (mkIAM 1472 1536); AIAM (mkIAM 1480 1544)])
     = [mkIAM 1472 1536].
Proof. split; vm_compute; reflexivity. Qed.

Lemma merge_step_dropped t a : is_kept a = false -> merge_step t a = t.
Proof. destruct a; cbn; congruence. Qed.

Lemma merge_areas_kept t areas :
  merge_areas t areas = merge_areas t (filter is_kept areas).
Proof.
  unfold merge_areas. revert t.
  induction areas as [|a areas IH]; intros t; [reflexivity|].
  cbn [foldl]. destruct (is_kept a) eqn:Ha.
  - rewrite filter_cons_True by (rewrite Ha; exact I). cbn [foldl]. apply IH.
  - rewrite filter_cons_False by (rewrite Ha; exact id).
    rewrite merge_step_dropped by exact Ha. apply IH.
Qed.

Lemma elem_of_insert_inv {A} (l : list A) i x y :
  y ∈ <[i := x]> l -> y ∈ l \/ y = x.
Proof.
  revert i. induction l as [|z l IH]; intros i Hy; [left; exact Hy|].
  destruct i as [|i]; cbn in Hy; apply elem_of_cons in Hy.
  - destruct Hy as [->|Hy]; [right; reflexivity | left; now apply elem_of_cons; right].
  - destruct Hy as [->|Hy]; [left; apply elem_of_cons; now left|].
    destruct (IH _ Hy) as [H|H]; [left; apply elem_of_cons; now right | now right].
Qed.

Lemma merge_step_sectors_from t a s :
  s ∈ sectors (merge_step t a) -> s ∈ sectors t \/ a = ASector s.
Proof.
  destruct a as [m|i|d|x]; cbn; try (now left).
  - destruct (list_find _ (iams t)); cbn; now left.
  - destruct (list_find _ (sectors t)) as [[i y]|]; cbn.
    + destruct (negb (sec_crc y =? 0) && (sec_crc x =? 0)); cbn; [|now left].
      intros [H| ->]%elem_of_insert_inv; [now left | now right].
    + intros [H|H]%elem_of_app; [now left|]. apply list_elem_of_singleton in H.
      subst. now right.
Qed.

Lemma merge_step_iams_from t a m :
  m ∈ iams (merge_step t a) -> m ∈ iams t \/ a = AIAM m.
Proof.
  destruct a as [m'|i|d|x]; cbn; try (now left).
  - destruct (list_find _ (iams t)); cbn; [now left|].
    intros [H|H]%elem_of_app; [now left|]. apply list_elem_of_singleton in H.
    subst. now right.
  - destruct (list_find _ (sectors t)) as [[i y]|]; cbn; [|now left].
    destruct (negb (sec_crc y =? 0) && (sec_crc x =? 0)); cbn; now left.
Qed.

Lemma merge_areas_sectors_from t areas s :
  s ∈ sectors (merge_areas t areas) -> s ∈ sectors t \/ ASector s ∈ areas.
Proof.
  unfold merge_areas. revert t.
  induction areas as [|a areas IH]; intros t Hs; [now left|].
  cbn [foldl] in Hs. destruct (IH _ Hs) as [H|H].
  - destruct (merge_step_sectors_from _ _ _ H) as [H'| ->]; [now left|].
    right. apply elem_of_cons. now left.
  - right. apply elem_of_cons. now right.
Qed.

Lemma merge_areas_iams_from t areas m :
  m ∈ iams (merge_areas t areas) -> m ∈ iams t \/ AIAM m ∈ areas.
Proof.
  unfold merge_areas. revert t.
  induction areas as [|a areas IH]; intros t Hs; [now left|].
  cbn [foldl] in Hs. destruct (IH _ Hs) as [H|H].
  - destruct (merge_step_iams_from _ _ _ H) as [H'| ->]; [now left|].
    right. apply elem_of_cons. now left.
  - right. apply elem_of_cons. now right.
Qed.

(** ** Flux decoder: the scan *)

Example scan_lone_idam :
  (scan_areas lone_idam_bits).1 = [AIDAM (mkIDAM 0 160 0 0 0 1 0)].
Proof. vm_compute. reflexivity. Qed.

(** A data mark with no ID field pending: a placeholder of four encoded
    bytes with the CRC forced to 0xffff. *)
Example scan_lone_dam :
  (scan_areas lone_dam_bits).1 = [ADAM (mkDAM 0 64 0xffff MARK_DAM [])].
Proof. vm_compute. reflexivity. Qed.

(** No distance sends a data mark to the placeholder branch while an ID
    field found earlier is pending: the test compares [idam.end - offs],
    which is below 160 for every later [offs], with 1000. *)
Lemma scan_sync_step_pending_pairs bits areas i offs :
  idam_end i - offs <= 1000 ->
  Z.of_nat (length bits) >= offs + 4 * 16 ->
  mark_at bits offs = MARK_DAM \/ mark_at bits offs = MARK_DDAM ->
  let e := offs + (4 + Z.shiftl 128 (idam_n i) + 2) * 16 in
  scan_sync_step bits (areas, Some i) offs
  = if Z.of_nat (length bits) <? e then (areas, Some i)
    else let b := decode_bits bits offs e in
         (areas ++ [ASector (new_Sector i (mkDAM offs e (crc16 b)
                                                (mark_at bits offs)
                                                (slice b 4 (-2))))], None).
Proof.
  intros Hnear Hlen Hmark e. unfold scan_sync_step.
  destruct (Z.ltb_spec (Z.of_nat (length bits)) (offs + 4 * 16)); [lia|].
  assert (Hnot : (mark_at bits offs =? MARK_IDAM) = false).
  { apply Z.eqb_neq. destruct Hmark as [-> | ->]; discriminate. }
  assert (Hdam : (mark_at bits offs =? MARK_DAM)
                 || (mark_at bits offs =? MARK_DDAM) = true).
  { destruct Hmark as [-> | ->]; reflexivity. }
  rewrite Hnot, Hdam.
  destruct (Z.gtb_spec (idam_end i - offs) 1000); [lia|]. reflexivity.
Qed.

(** The offsets found by the search ascend strictly. *)
Lemma itersearch_from_sorted offs bits pat :
  Forall (fun o => offs <= o) (itersearch_from offs bits pat)
  /\ StronglySorted Z.lt (itersearch_from offs bits pat).
Proof.
  revert offs. induction bits as [|b bits IH]; intros offs.
  - split; constructor.
  - destruct (IH (offs + 1)) as [Hge Hs]. cbn [itersearch_from].
    assert (Hge' : Forall (fun o => offs < o) (itersearch_from (offs + 1) bits pat)).
    { eapply Forall_impl; [exact Hge|]. intros o Ho. cbn in Ho. lia. }
    destruct (is_prefix pat (b :: bits)); cbn [app].
    + split; [|now constructor]. constructor; [lia|].
      eapply Forall_impl; [exact Hge'|]. intros o Ho. cbn in Ho. lia.
    + split; [|exact Hs]. eapply Forall_impl; [exact Hge'|].
      intros o Ho. cbn in Ho. lia.
Qed.

(** A step leaves an ID field pending only if it was pending before or was
    found at this very sync, and then it spans ten encoded bytes. *)
Lemma scan_sync_step_pending bits areas pending offs areas' i :
  scan_sync_step bits (areas, pending) offs = (areas', Some i) ->
  pending = Some i \/ (idam_start i = offs /\ idam_end i = offs + 10 * 16).
Proof.
  unfold scan_sync_step.
  destruct (_ <? offs + 4 * 16); [intros [= _ ->]; now left|].
  destruct (mark_at bits offs =? MARK_IDAM).
  - destruct (_ <? offs + 10 * 16); [intros [= _ ->]; now left|].
    destruct (unpack_chrn _) as [[[c h] r] n]. intros [= _ <-]. now right.
  - destruct (_ || _); [|intros [= _ ->]; now left].
    destruct pending as [j|]; [|discriminate].
    destruct (_ >? 1000); [discriminate|].
    destruct (_ <? _); [intros [= _ ->]; now left | discriminate].
Qed.

Lemma scan_sync_fold_pending bits areas0 pre areas i :
  foldl (scan_sync_step bits) (areas0, None) pre = (areas, Some i) ->
  idam_start i ∈ pre /\ idam_end i = idam_start i + 10 * 16.
Proof.
  revert areas i. induction pre as [|o pre IH] using rev_ind; intros areas i.
  - discriminate.
  - rewrite foldl_app. cbn [foldl].
    destruct (foldl (scan_sync_step bits) (areas0, None) pre) as [areas1 pending].
    intros [Hold | [Hs He]]%scan_sync_step_pending.
    + subst pending. destruct (IH _ _ eq_refl) as [Hin Hend].
      split; [apply elem_of_app; now left | exact Hend].
    + split; [|lia]. apply elem_of_app. right. apply list_elem_of_singleton. exact Hs.
Qed.

(** Whenever the second loop of the scan reaches a sync at [offs] with an ID
    field [i] pending, [idam.end - offs] is below 160: the test
    [idam.end - offs > 1000] of the data-mark branch never holds. *)
Lemma pending_distance_test_never_holds bits areas0 pre offs post areas i :
  itersearch bits sync = pre ++ offs :: post ->
  foldl (scan_sync_step bits) (areas0, None) pre = (areas, Some i) ->
  idam_end i - offs < 10 * 16 /\ (idam_end i - offs >? 1000) = false.
Proof.
  intros Hsplit Hfold.
  destruct (scan_sync_fold_pending _ _ _ _ _ Hfold) as [Hin Hend].
  destruct (itersearch_from_sorted 0 bits sync) as [_ Hsorted].
  fold (itersearch bits sync) in Hsorted. rewrite Hsplit in Hsorted.
  assert (idam_start i < offs).
  { apply (StronglySorted_app_1_elem_of _ _ _ _ _ Hsorted Hin). now left. }
  split; [lia|]. rewrite Z.gtb_ltb. apply Z.ltb_ge. lia.
Qed.

(** C4, at [far_dam_bits]: the ID field ends at bit-cell 160 and the sync of
    the data mark starts at 2160, 2000 bit-cells later, yet the scan pairs
    the two into a sector (CRC 0) and emits no placeholder data field. *)
Theorem far_data_mark_is_paired :
  exists s,
    (scan_areas far_dam_bits).1 = [ASector s]
    /\ idam_end (idam s) = 160 /\ dam_start (dam s) = 2160
    /\ dam_start (dam s) - idam_end (idam s) > 1000
    /\ sec_crc s = 0.
Proof.
  assert (H : exists s, (scan_areas far_dam_bits).1 = [ASector s]
                        /\ (idam_end (idam s), dam_start (dam s), sec_crc s)
                           = (160, 2160, 0)).
  { vm_compute. eexists. split; reflexivity. }
  destruct H as (s & Hs & Hv). injection Hv as H1 H2 H3.
  exists s. rewrite H1, H2, H3. repeat split. exact Hs.
Qed.

(** Two revolutions of one sector give one sector; so do a revolution with a
    bad data CRC and one with a good CRC, and the sector kept has CRC 0. *)
Example decode_two_revolutions :
  exists t s,
    decode_raw (new_track 0 0) two_revolutions_bits two_revolutions = Some t
    /\ sectors t = [s] /\ sec_crc s = 0 /\ sec_start s = 400.
Proof. vm_compute. do 2 eexists. repeat split; reflexivity. Qed.

Example decode_bad_then_good :
  exists raw1 raw2 t s,
    (scan_areas bad_then_good_bits).1 = [ASector raw1; ASector raw2]
    /\ sec_crc raw1 <> 0 /\ sec_crc raw2 = 0
    /\ decode_raw (new_track 0 0) bad_then_good_bits two_revolutions = Some t
    /\ sectors t = [s] /\ sec_crc s = 0.
Proof.
  vm_compute. do 4 eexists. repeat split; try reflexivity. discriminate.
Qed.

(** ** Flux decoder: what reaches the track *)


Lemma decode_raw_unfold self bits revolutions :
  decode_raw self bits revolutions
  = areas ← normalise revolutions (scan_areas bits).1;
    Some (merge_areas (if (scan_areas bits).2 then set_has_iam self true else self)
                      areas).
Proof. unfold decode_raw. destruct (scan_areas bits) as [areas seen]. reflexivity. Qed.



(** C9: when [decode_raw] returns, the track is the one before it with the
    index marks and paired sectors of the normalised areas merged in; an
    unpaired ID field and a placeholder data field are among the areas of a
    scan ([lone_idam_bits], [lone_dam_bits]) but the merge passes over them,
    so every entry of [sectors] and [iams] afterwards was there before or is
    a sector, resp. an index mark, of the areas. *)
Theorem decode_raw_adds_only_iams_and_sectors
    (self : track) (bits : list bool) (revolutions : list Z) (self' : track)
    (Hret : decode_raw self bits revolutions = Some self') :
  (exists areas,
     normalise revolutions (scan_areas bits).1 = Some areas
     /\ self' = merge_areas
                  (if (scan_areas bits).2 then set_has_iam self true else self)
                  (filter is_kept areas)
     /\ (forall a, is_kept a = false ->
                   forall t, merge_step t a = t)
     /\ (forall s, s ∈ sectors self' -> s ∈ sectors self \/ ASector s ∈ areas)
     /\ (forall m, m ∈ iams self' -> m ∈ iams self \/ AIAM m ∈ areas))
  /\ (exists i, (scan_areas lone_idam_bits).1 = [AIDAM i]
                /\ is_kept (AIDAM i) = false)
  /\ (exists d, (scan_areas lone_dam_bits).1 = [ADAM d]
                /\ dam_crc d = 0xffff /\ is_kept (ADAM d) = false).
Proof.
  split; [|split].
  - rewrite decode_raw_unfold in Hret.
    destruct (normalise revolutions (scan_areas bits).1) as [areas|] eqn:Hn;
      [|discriminate].
    cbn in Hret. injection Hret as <-. exists areas.
    split; [reflexivity|]. split; [apply merge_areas_kept|].
    split; [intros a Ha t; now apply merge_step_dropped|]. split.
    + intros s Hs. apply merge_areas_sectors_from in Hs.
      destruct (scan_areas bits).2; exact Hs.
    + intros m Hm. apply merge_areas_iams_from in Hm.
      destruct (scan_areas bits).2; exact Hm.
  - eexists. split; [apply scan_lone_idam | reflexivity].
  - eexists. split; [apply scan_lone_dam|]. split; reflexivity.
Qed.

Lemma decode_raw_adds_only_iams_and_sectors_witness :
  (exists areas,
     normalise [6000] (scan_areas lone_idam_bits).1 = Some areas
     /\ new_track 0 0
        = merge_areas
            (if (scan_areas lone_idam_bits).2
             then set_has_iam (new_track 0 0) true else new_track 0 0)
            (filter is_kept areas)
     /\ (forall a, is_kept a = false -> forall t, merge_step t a = t)
     /\ (forall s, s ∈ sectors (new_track 0 0) ->
                   s ∈ sectors (new_track 0 0) \/ ASector s ∈ areas)
     /\ (forall m, m ∈ iams (new_track 0 0) ->
                   m ∈ iams (new_track 0 0) \/ AIAM m ∈ areas))
  /\ (exists i, (scan_areas lone_idam_bits).1 = [AIDAM i]
                /\ is_kept (AIDAM i) = false)
  /\ (exists d, (scan_areas lone_dam_bits).1 = [ADAM d]
                /\ dam_crc d = 0xffff /\ is_kept (ADAM d) = false).
Proof.
  apply (decode_raw_adds_only_iams_and_sectors
           (new_track 0 0) lone_idam_bits [6000] (new_track 0 0)).
  vm_compute. reflexivity.
Defined.

(** ** Verifier *)






(** The verifier accepts the flux of the sector it expects, and rejects a
    flux in which the data CRC of that sector is wrong in every revolution
    or in which the sector is absent. *)
Example verify_track_accepts :
  verify_track one_sector_track two_revolutions_bits two_revolutions = Some true.
Proof. vm_compute. reflexivity. Qed.

Example verify_track_rejects :
  verify_track one_sector_track (revolution_bits 1 2) [6000] = Some false
  /\ verify_track one_sector_track lone_idam_bits [6000] = Some false.
Proof. split; vm_compute; reflexivity. Qed.


(** ** Sorting by a key *)

Section sort_by.
Context {A : Type} (key : A -> Z).

Lemma insert_by_perm x l : insert_by key x l ≡ₚ x :: l.
Proof.
  induction l as [|y l IH]; cbn; [reflexivity|].
  destruct (key x <=? key y); [reflexivity|].
  rewrite IH. apply perm_swap.
Qed.

Lemma sort_by_perm l : sort_by key l ≡ₚ l.
Proof.
  induction l as [|x l IH]; cbn; [reflexivity|].
  rewrite insert_by_perm. now constructor.
Qed.

Lemma insert_by_sorted x l :
  StronglySorted (key_le key) l -> StronglySorted (key_le key) (insert_by key x l).
Proof.
  induction 1 as [|y l Hl IH Hy]; cbn; [repeat constructor|].
  destruct (Z.leb_spec (key x) (key y)) as [Hxy|Hxy].
  - constructor; [now constructor|]. constructor; [exact Hxy|].
    eapply Forall_impl; [exact Hy|]. unfold key_le. intros z Hz. cbn in *. lia.
  - constructor; [exact IH|].
    rewrite insert_by_perm. constructor; [unfold key_le; lia | exact Hy].
Qed.

Lemma sort_by_sorted l : StronglySorted (key_le key) (sort_by key l).
Proof.
  induction l as [|x l IH]; cbn; [constructor|]. now apply insert_by_sorted.
Qed.

Lemma NoDup_key_inj l x y :
  NoDup (key <$> l) -> x ∈ l -> y ∈ l -> key x = key y -> x = y.
Proof.
  induction l as [|z l IH]; intros Hnd Hx Hy Hk; [inversion Hx|].
  cbn in Hnd. apply NoDup_cons in Hnd as [Hz Hnd].
  apply elem_of_cons in Hx as [->|Hx]; apply elem_of_cons in Hy as [->|Hy].
  - reflexivity.
  - exfalso. apply Hz. rewrite Hk. now apply list_elem_of_fmap_2.
  - exfalso. apply Hz. rewrite <- Hk. now apply list_elem_of_fmap_2.
  - now apply IH.
Qed.

(** A list in strict key order is what sorting any arrangement of it
    gives. *)
Lemma sort_by_fixed l l2 :
  StronglySorted (key_le key) l -> NoDup (key <$> l) -> l2 ≡ₚ l ->
  sort_by key l2 = l.
Proof.
  intros Hs Hnd Hp.
  apply (StronglySorted_unique_strong (key_le key)).
  - intros x1 x2 H1 H2 H12 H21. unfold key_le in *.
    apply (NoDup_key_inj l); [exact Hnd | | exact H2 | lia].
    rewrite <- Hp, <- (sort_by_perm l2). exact H1.
  - apply sort_by_sorted.
  - exact Hs.
  - now rewrite sort_by_perm.
Qed.

Lemma sorted_same_keys {B} (key' : B -> Z) (l : list A) (l' : list B) :
  key' <$> l' = key <$> l ->
  StronglySorted (key_le key) l -> StronglySorted (key_le key') l'.
Proof.
  intros Hk Hs. revert l' Hk.
  induction Hs as [|x l Hl IH Hx]; intros [|x' l'] Hk; try discriminate;
    [constructor|].
  cbn in Hk. injection Hk as Hx' Hk. constructor; [now apply IH|].
  apply Forall_forall. intros y' Hy'.
  assert (Hin : key' y' ∈ key <$> l) by (rewrite <- Hk; now apply list_elem_of_fmap_2).
  apply list_elem_of_fmap in Hin as (y & Hyk & Hy).
  rewrite Forall_forall in Hx. specialize (Hx y Hy).
  unfold key_le in *. lia.
Qed.
End sort_by.

(** ** Image marshalling *)

Lemma slice_in_range {A} (l : list A) lo hi :
  0 <= lo -> lo <= hi -> hi <= Z.of_nat (length l) ->
  slice l lo hi = take (Z.to_nat (hi - lo)) (drop (Z.to_nat lo) l).
Proof.
  intros Hlo Hhi Hlen. unfold slice, clamp_index.
  destruct (Z.ltb_spec lo 0); [lia|]. destruct (Z.ltb_spec hi 0); [lia|].
  now rewrite !Z.min_l by lia.
Qed.

Lemma sector_size_nonneg s : 0 <= sector_size s.
Proof. unfold sector_size. apply Z.shiftl_nonneg. lia. Qed.

Lemma capacity_cons s l : capacity (s :: l) = sector_size s + capacity l.
Proof. reflexivity. Qed.

Lemma capacity_nonneg l : 0 <= capacity l.
Proof.
  induction l as [|s l IH]; [cbn; lia|]. rewrite capacity_cons.
  pose proof (sector_size_nonneg s). lia.
Qed.

Lemma capacity_perm l l' : l ≡ₚ l' -> capacity l = capacity l'.
Proof. induction 1; rewrite ?capacity_cons; lia. Qed.

Lemma capacity_stride b l :
  Forall (fun s => sector_size s = b) l -> capacity l = Z.of_nat (length l) * b.
Proof.
  induction 1 as [|s l Hs _ IH]; [reflexivity|].
  rewrite capacity_cons, length_cons. lia.
Qed.

Lemma total_size_capacity l :
  Forall (fun s => 0 <= idam_n (idam s)) l -> total_size l = Some (capacity l).
Proof.
  intros Hn. unfold total_size.
  cut (forall a, foldl (fun acc s => x ← acc; size ← py_shl 128 (idam_n (idam s));
                                     Some (x + size)) (Some a) l
                 = Some (a + capacity l)).
  { intros H. now rewrite H. }
  induction Hn as [|s l Hs _ IH]; intros a; cbn [foldl].
  - cbn. f_equal. lia.
  - rewrite capacity_cons. unfold py_shl at 2.
    destruct (Z.leb_spec 0 (idam_n (idam s))); [|lia]. cbn.
    rewrite IH. f_equal. unfold sector_size. lia.
Qed.

Lemma stored_ids l buf : sector_id <$> stored l buf = sector_id <$> l.
Proof.
  revert buf. induction l as [|s l IH]; intros buf; cbn; [reflexivity|].
  now rewrite IH.
Qed.

Lemma stored_crc_clear l buf : Forall crc_clear (stored l buf).
Proof.
  revert buf. induction l as [|s l IH]; intros buf; cbn; constructor;
    [repeat split | apply IH].
Qed.

Lemma stored_data l buf :
  mjoin ((fun s => dam_data (dam s)) <$> stored l buf)
  = take (Z.to_nat (capacity l)) buf.
Proof.
  revert buf. induction l as [|s l IH]; intros buf.
  - reflexivity.
  - rewrite capacity_cons. cbn [stored fmap list_fmap mjoin list_join].
    cbn [dam_data dam store_slice]. rewrite IH.
    rewrite take_take_drop. f_equal.
    pose proof (sector_size_nonneg s). pose proof (capacity_nonneg l). lia.
Qed.

Lemma stored_lengths b l buf :
  Forall (fun s => sector_size s = b) l ->
  capacity l <= Z.of_nat (length buf) ->
  Forall (fun s => Z.of_nat (length (dam_data (dam s))) = b) (stored l buf).
Proof.
  intros Hb. revert buf. induction Hb as [|s l Hs _ IH]; intros buf Hlen;
    [constructor|].
  rewrite capacity_cons in Hlen. cbn [stored].
  pose proof (sector_size_nonneg s). pose proof (capacity_nonneg l).
  constructor.
  - cbn. rewrite length_take. lia.
  - apply IH. rewrite length_drop. lia.
Qed.

Lemma assign_slices_stored bps tdat l pos :
  Forall (fun s => 0 <= idam_n (idam s)) l -> stride_fits bps l ->
  0 <= pos -> pos + capacity l <= Z.of_nat (length tdat) ->
  assign_slices bps tdat pos l = Some (stored l (drop (Z.to_nat pos) tdat)).
Proof.
  intros Hn. revert pos. induction Hn as [|s l Hs _ IH]; intros pos Hfit Hpos Hlen;
    [reflexivity|].
  rewrite capacity_cons in Hlen. cbn [assign_slices stored].
  pose proof (sector_size_nonneg s) as Hsz. pose proof (capacity_nonneg l) as Hcap.
  unfold py_shl. destruct (Z.leb_spec 0 (idam_n (idam s))); [|lia]. cbn.
  fold (sector_size s).
  assert (Hnext : match bps with Some b => pos + b | None => pos + sector_size s end
                  = pos + sector_size s).
  { destruct bps as [b|]; [|reflexivity]. cbn in Hfit.
    apply Forall_cons in Hfit as [-> _]. reflexivity. }
  rewrite Hnext. rewrite IH; [| |lia|lia].
  - cbn. rewrite slice_in_range by lia. rewrite drop_drop.
    do 4 f_equal; lia.
  - destruct bps as [b|]; [|exact I]. cbn in *. now apply Forall_cons in Hfit as [_ ?].
Qed.

Lemma gather_stored bps l acc :
  match bps with
  | Some b => Forall (fun s => Z.of_nat (length (dam_data (dam s))) = b) l
  | None => True
  end ->
  foldl (gather_sector bps) (Some acc) l
  = Some (acc ++ mjoin ((fun s => dam_data (dam s)) <$> l)).
Proof.
  revert acc. induction l as [|s l IH]; intros acc Hb; cbn [foldl fmap list_fmap mjoin list_join].
  - now rewrite app_nil_r.
  - assert (Hstep : gather_sector bps (Some acc) s = Some (acc ++ dam_data (dam s))).
    { unfold gather_sector. cbn. destruct bps as [b|]; [|reflexivity].
      apply Forall_cons in Hb as [Hs _]. rewrite <- Hs, Z.sub_diag. cbn.
      now rewrite app_nil_r. }
    rewrite Hstep, IH.
    + now rewrite <- app_assoc.
    + destruct bps; [|exact I]. now apply Forall_cons in Hb as [_ ?].
Qed.

Lemma length_padded cap buf : cap <= Z.of_nat (length (padded cap buf)).
Proof. unfold padded. rewrite length_app, length_replicate. lia. Qed.

Lemma padded_if cap buf :
  (if Z.of_nat (length buf) <? cap
   then buf ++ replicate (Z.to_nat (cap - Z.of_nat (length buf))) 0
   else buf) = padded cap buf.
Proof.
  unfold padded. destruct (Z.ltb_spec (Z.of_nat (length buf)) cap); [reflexivity|].
  replace (Z.to_nat (cap - Z.of_nat (length buf))) with 0%nat by lia.
  cbn. now rewrite app_nil_r.
Qed.

(** C5, as stated, at two tracks whose sectors hold 128 bytes each, as
    their size code says.  With an image stride of 256, [set_img_track]
    takes bytes 0..127 and 256..383 of the buffer and [get_img_track] gives
    them back with 128 zero bytes after each; with two sectors of the same
    ID listed against their track order, the two slices come back swapped.
    Neither result is the buffer padded or truncated to any length. *)
Lemma set_get_img_track_counterexample :
  (exists t' out,
     set_img_track strided_track image_512 = Some (t', 512)
     /\ get_img_track t' = Some out
     /\ forall k, out <> take k (image_512 ++ replicate k 0))
  /\ (exists t' out,
        set_img_track twin_id_track image_256 = Some (t', 256)
        /\ get_img_track t' = Some out
        /\ forall k, out <> take k (image_256 ++ replicate k 0)).
Proof.
  split.
  - assert (H : is_Some (set_img_track strided_track image_512))
      by (vm_compute; eexists; reflexivity).
    destruct H as [[t' n] Ht]. pose proof Ht as Hv.
    vm_compute in Hv. injection Hv as <- <-.
    eexists _, _. split; [exact Ht|]. split; [vm_compute; reflexivity|].
    intros k Hk. assert (k = 512%nat) as ->.
    { apply (f_equal length) in Hk.
      rewrite length_take, length_app, length_replicate in Hk.
      vm_compute length in Hk. lia. }
    apply (f_equal (fun l => l !! 128%nat)) in Hk. vm_compute in Hk. discriminate.
  - assert (H : is_Some (set_img_track twin_id_track image_256))
      by (vm_compute; eexists; reflexivity).
    destruct H as [[t' n] Ht]. pose proof Ht as Hv.
    vm_compute in Hv. injection Hv as <- <-.
    eexists _, _. split; [exact Ht|]. split; [vm_compute; reflexivity|].
    intros k Hk. assert (k = 256%nat) as ->.
    { apply (f_equal length) in Hk.
      rewrite length_take, length_app, length_replicate in Hk.
      vm_compute length in Hk. lia. }
    apply (f_equal (fun l => l !! 0%nat)) in Hk. vm_compute in Hk. discriminate.
Qed.

(** C5 (amended): for a track whose sector IDs are pairwise distinct, whose
    size codes are not negative and whose image stride, if one is set, is the
    size of every sector: [set_img_track] returns the total sector capacity
    [cap], clears the CRC of every sector, ID field and data field, and
    stores consecutive slices of the buffer (zero-padded to [cap] when
    shorter) in the sectors taken in ascending sector-ID order; and
    [get_img_track], gathering in the same order, then returns the buffer
    zero-padded or truncated to [cap] bytes. *)
Theorem set_get_img_track_roundtrip (self : track) (buf : list Z)
    (Hids : NoDup (sector_id <$> sectors self))
    (Hn : Forall (fun s => 0 <= idam_n (idam s)) (sectors self))
    (Hstride : stride_fits (img_bps self) (sectors self)) :
  exists t',
    set_img_track self buf = Some (t', capacity (sectors self))
    /\ sort_by sector_id (sectors t')
       = stored (sort_by sector_id (sectors self))
                (padded (capacity (sectors self)) buf)
    /\ Forall crc_clear (sectors t')
    /\ get_img_track t'
       = Some (take (Z.to_nat (capacity (sectors self)))
                    (padded (capacity (sectors self)) buf)).
Proof.
  set (cap := capacity (sectors self)).
  set (S := sort_by sector_id (sectors self)).
  set (P := padded cap buf).
  assert (HS : S ≡ₚ sectors self) by apply sort_by_perm.
  assert (Hcap : capacity S = cap) by now apply capacity_perm.
  assert (HnS : Forall (fun s => 0 <= idam_n (idam s)) S) by now rewrite HS.
  assert (HstrideS : stride_fits (img_bps self) S).
  { unfold stride_fits in *. destruct (img_bps self); [now rewrite HS | exact I]. }
  assert (Htot : match img_bps self with
                 | Some b => Some (Z.of_nat (length S) * b)
                 | None => total_size S
                 end = Some cap).
  { destruct (img_bps self) as [b|].
    - cbn in HstrideS. now rewrite <- (capacity_stride b S HstrideS), Hcap.
    - now rewrite total_size_capacity, Hcap. }
  assert (Hassign : assign_slices (img_bps self) P 0 S = Some (stored S P)).
  { rewrite assign_slices_stored; [reflexivity|assumption|assumption|lia|].
    rewrite Hcap. apply length_padded. }
  set (A := stored S P) in *.
  assert (HA : sort_by sector_id (sort_by sec_start A) = A).
  { apply sort_by_fixed.
    - apply (sorted_same_keys sector_id sector_id S); [apply stored_ids|].
      apply sort_by_sorted.
    - unfold A. rewrite stored_ids, HS. exact Hids.
    - apply sort_by_perm. }
  exists (set_sectors self (sort_by sec_start A)).
  split; [|split; [|split]].
  - unfold set_img_track. fold sector_id. fold S. rewrite Htot. cbn.
    rewrite padded_if. fold P. rewrite Hassign. reflexivity.
  - exact HA.
  - cbn. rewrite sort_by_perm. apply stored_crc_clear.
  - unfold get_img_track. fold sector_id. cbn [sectors set_sectors img_bps].
    rewrite HA. rewrite gather_stored.
    + cbn [app]. unfold A. now rewrite stored_data, Hcap.
    + destruct (img_bps self) as [b|]; [|exact I].
      apply stored_lengths; [exact HstrideS|]. rewrite Hcap. apply length_padded.
Qed.

Lemma set_get_img_track_roundtrip_witness :
  exists t',
    set_img_track plain_track (replicate 200 7)
    = Some (t', capacity (sectors plain_track))
    /\ sort_by sector_id (sectors t')
       = stored (sort_by sector_id (sectors plain_track))
                (padded (capacity (sectors plain_track)) (replicate 200 7))
    /\ Forall crc_clear (sectors t')
    /\ get_img_track t'
       = Some (take (Z.to_nat (capacity (sectors plain_track)))
                    (padded (capacity (sectors plain_track)) (replicate 200 7))).
Proof.
  apply (set_get_img_track_roundtrip plain_track (replicate 200 7)).
  - apply (bool_decide_unpack _). vm_compute. exact I.
  - repeat constructor; vm_compute; discriminate.
  - exact I.
Defined.

(** The buffer comes back as it was when it fills the sectors exactly. *)
Example set_get_img_track_exact :
  exists t', set_img_track plain_track image_256 = Some (t', 256)
             /\ get_img_track t' = Some image_256
             /\ sector_id <$> sectors t' = [2; 1].
Proof. vm_compute. eexists. repeat split; reflexivity. Qed.

(** ** Codec: the clock pass on a stream *)

Lemma last_cons_default {A} (a o : A) l :
  default a (last (o :: l)) = default o (last l).
Proof.
  revert a o. induction l as [|x l IH]; intros a o; [reflexivity|].
  change (last (o :: x :: l)) with (last (x :: l)).
  now rewrite (IH a x), (IH o x).
Qed.

Lemma mfm_encode_from_app y l1 l2 :
  mfm_encode_from y (l1 ++ l2)
  = mfm_encode_from y l1
      ++ mfm_encode_from (default y (last (mfm_encode_from y l1))) l2.
Proof.
  revert y. induction l1 as [|x l1 IH]; intros y; [reflexivity|].
  cbn [app mfm_encode_from]. rewrite IH, last_cons_default. reflexivity.
Qed.

Lemma mfm_encode_from_last_byte y l :
  is_byte y -> is_byte (default y (last (mfm_encode_from y l))).
Proof.
  intros Hy. pose proof (mfm_encode_from_bytes y l) as Hb.
  destruct (last (mfm_encode_from y l)) as [o|] eqn:Hl; [|exact Hy].
  cbn. rewrite Forall_forall in Hb. apply Hb, list_elem_of_In.
  apply last_Some in Hl as [l' ->]. apply in_or_app. right. now left.
Qed.

Lemma mfm_step_sync_44 y : is_byte y -> mfm_step y 0x44 = 0x44.
Proof. intros Hy. by_byte_cases y Hy. Qed.

Lemma mfm_encode_from_sync y rest :
  is_byte y ->
  mfm_encode_from y (sync_bytes ++ rest) = sync_bytes ++ mfm_encode_from 0x89 rest.
Proof.
  intros Hy. change sync_bytes with [0x44; 0x89; 0x44; 0x89; 0x44; 0x89].
  cbn [app mfm_encode_from]. rewrite (mfm_step_sync_44 y Hy).
  change (mfm_step 0x44 0x89) with 0x89. change (mfm_step 0x89 0x44) with 0x44.
  reflexivity.
Qed.

Lemma mfm_encode_from_iam_sync y rest :
  mfm_encode_from y (iam_sync_bytes ++ rest)
  = iam_sync_bytes ++ mfm_encode_from 0x24 rest.
Proof.
  change iam_sync_bytes with [0x52; 0x24; 0x52; 0x24; 0x52; 0x24].
  cbn [app mfm_encode_from].
  rewrite (mfm_step_skip y 0x52) by (unfold is_byte; cbv; intuition discriminate).
  change (mfm_step 0x52 0x24) with 0x24. change (mfm_step 0x24 0x52) with 0x52.
  reflexivity.
Qed.

(** X1: wherever the two sync patterns stand in a track image, the clock
    pass [mfm_encode] leaves their six bytes as they are, missing clock bits
    included, and goes on from their last byte. *)
Theorem mfm_encode_keeps_sync (pre rest : list Z) :
  mfm_encode (pre ++ sync_bytes ++ rest)
  = mfm_encode pre ++ sync_bytes ++ mfm_encode_from 0x89 rest
  /\ mfm_encode (pre ++ iam_sync_bytes ++ rest)
     = mfm_encode pre ++ iam_sync_bytes ++ mfm_encode_from 0x24 rest.
Proof.
  unfold mfm_encode. split; rewrite mfm_encode_from_app; f_equal.
  - apply mfm_encode_from_sync, mfm_encode_from_last_byte. unfold is_byte. lia.
  - apply mfm_encode_from_iam_sync.
Qed.

Lemma implb_true_elim (b c : bool) : b = true -> implb b c = true -> c = true.
Proof. intros -> H. exact H. Qed.

Lemma clock_free_elem x : is_byte x -> Z.land x 0xaa = 0 -> In x clock_free.
Proof.
  intros Hx Hc.
  assert (H : implb (Z.land x 0xaa =? 0) (existsb (Z.eqb x) clock_free) = true).
  { revert x Hx Hc. intros x Hx _. revert x Hx.
    apply (byte_cases (fun x => implb (Z.land x 0xaa =? 0)
                                      (existsb (Z.eqb x) clock_free))).
    vm_compute. reflexivity. }
  apply Z.eqb_eq in Hc. apply (implb_true_elim _ _ Hc) in H.
  apply existsb_exists in H as (z & Hz & Hxz). apply Z.eqb_eq in Hxz. now subst.
Qed.

Lemma encode_clock_free b : Forall is_byte b -> Forall (fun x => In x clock_free) (encode b).
Proof.
  induction 1 as [|x b Hx Hb IH]; [constructor|]. rewrite encode_cons.
  rewrite encode_lookup_entry by assumption.
  destruct (encode_entry_clock_free x Hx) as [H1 H2].
  constructor; [apply clock_free_elem; [apply land255_byte | exact H1]|].
  constructor; [apply clock_free_elem; [apply land255_byte | exact H2]|].
  exact IH.
Qed.

Lemma clock_free_byte x : In x clock_free -> is_byte x.
Proof.
  intros Hx.
  assert (H : forallb (fun x => (0 <=? x) && (x <? 256)) clock_free = true)
    by reflexivity.
  rewrite forallb_forall in H. specialize (H x Hx).
  apply andb_true_iff in H as [H1 H2]. unfold is_byte. lia.
Qed.

(** Of the byte carried over, only the lowest bit reaches the clock bits of
    the next byte. *)
Lemma mfm_step_low_bit y x :
  is_byte y -> In x clock_free -> mfm_step y x = mfm_step (Z.land y 1) x.
Proof.
  intros Hy Hx.
  assert (H : forallb (fun x => mfm_step y x =? mfm_step (Z.land y 1) x) clock_free
              = true).
  { revert y Hy.
    apply (byte_cases (fun y => forallb (fun x => mfm_step y x =? mfm_step (Z.land y 1) x)
                                        clock_free)).
    vm_compute. reflexivity. }
  rewrite forallb_forall in H. apply Z.eqb_eq, H, Hx.
Qed.

Lemma low_bit_cases y : is_byte y -> Z.land y 1 = 0 \/ Z.land y 1 = 1.
Proof.
  intros Hy.
  assert (H : (Z.land y 1 =? 0) || (Z.land y 1 =? 1) = true).
  { revert y Hy.
    apply (byte_cases (fun y => (Z.land y 1 =? 0) || (Z.land y 1 =? 1))).
    vm_compute. reflexivity. }
  apply orb_true_iff in H as [H|H]; apply Z.eqb_eq in H; auto.
Qed.

Lemma run_lengths_pair y x1 x2 :
  is_byte y -> In x1 clock_free -> In x2 clock_free ->
  let o1 := mfm_step y x1 in
  no_adjacent_ones (word_of o1 (mfm_step o1 x2)) = true
  /\ no_four_zeros (word_of o1 (mfm_step o1 x2)) = true.
Proof.
  intros Hy H1 H2 o1. subst o1. rewrite (mfm_step_low_bit y x1 Hy H1).
  assert (H : forallb (fun y => forallb (fun x1 => forallb (fun x2 =>
                let o1 := mfm_step y x1 in
                no_adjacent_ones (word_of o1 (mfm_step o1 x2))
                && no_four_zeros (word_of o1 (mfm_step o1 x2)))
              clock_free) clock_free) [0; 1] = true) by (vm_compute; reflexivity).
  rewrite forallb_forall in H.
  assert (Hy' : In (Z.land y 1) [0; 1]).
  { destruct (low_bit_cases y Hy) as [-> | ->]; cbn; auto. }
  specialize (H _ Hy'). rewrite forallb_forall in H. specialize (H _ H1).
  rewrite forallb_forall in H. specialize (H _ H2). cbn zeta in H.
  now apply andb_true_iff in H.
Qed.

Lemma mfm_encode_from_run_lengths y dat k o1 o2 :
  is_byte y -> Forall (fun x => In x clock_free) dat ->
  mfm_encode_from y dat !! k = Some o1 ->
  mfm_encode_from y dat !! S k = Some o2 ->
  no_adjacent_ones (word_of o1 o2) = true /\ no_four_zeros (word_of o1 o2) = true.
Proof.
  intros Hy Hd. revert y k Hy.
  induction Hd as [|x1 dat H1 Hd IH]; intros y k Hy Hk1 Hk2; [discriminate|].
  cbn [mfm_encode_from] in Hk1, Hk2. destruct k as [|k].
  - cbn in Hk1. injection Hk1 as <-.
    destruct Hd as [|x2 dat H2 Hd]; [discriminate|].
    cbn in Hk2. injection Hk2 as <-. now apply run_lengths_pair.
  - apply (IH (mfm_step y x1) k); [apply mfm_step_byte | exact Hk1 | exact Hk2].
Qed.

(** X2: in the stream [mfm_encode (encode b)] any two consecutive bytes,
    read as a 16-bit word, have no two adjacent one bits and no four
    consecutive zero bits: the run-length rule of MFM holds inside every
    byte and across every byte boundary. *)
Theorem mfm_encode_run_lengths (b : list Z) (Hb : Forall is_byte b)
    (k : nat) (o1 o2 : Z)
    (H1 : mfm_encode (encode b) !! k = Some o1)
    (H2 : mfm_encode (encode b) !! S k = Some o2) :
  no_adjacent_ones (word_of o1 o2) = true /\ no_four_zeros (word_of o1 o2) = true.
Proof.
  apply (mfm_encode_from_run_lengths 0 (encode b) k);
    [unfold is_byte; lia | now apply encode_clock_free | exact H1 | exact H2].
Qed.

Lemma mfm_encode_run_lengths_witness :
  no_adjacent_ones (word_of 0x92 0x54) = true
  /\ no_four_zeros (word_of 0x92 0x54) = true.
Proof.
  apply (mfm_encode_run_lengths [0x4e] ltac:(repeat constructor; unfold is_byte; lia)
                                0%nat 0x92 0x54); vm_compute; reflexivity.
Defined.

(** ** Codec: sync patterns and encoded data *)

Lemma length_bits_of_byte x : length (bits_of_byte x) = 8%nat.
Proof. reflexivity. Qed.

Lemma frombytes_cons o l : frombytes (o :: l) = bits_of_byte o ++ frombytes l.
Proof. reflexivity. Qed.

Lemma frombytes_app l1 l2 : frombytes (l1 ++ l2) = frombytes l1 ++ frombytes l2.
Proof. unfold frombytes. apply flat_map_app. Qed.

Lemma length_frombytes l : length (frombytes l) = (8 * length l)%nat.
Proof.
  induction l as [|o l IH]; [reflexivity|].
  rewrite frombytes_cons, length_app, length_bits_of_byte, IH. cbn [length]. lia.
Qed.

Lemma is_prefix_length p l : is_prefix p l = true -> (length p <= length l)%nat.
Proof.
  revert l. induction p as [|a p IH]; intros l H; [cbn; lia|].
  destruct l as [|b l]; [discriminate|]. cbn in H.
  apply andb_true_iff in H as [_ H]. apply IH in H. cbn. lia.
Qed.

Lemma is_prefix_app_l p q l : is_prefix (p ++ q) l = true -> is_prefix p l = true.
Proof.
  revert l. induction p as [|a p IH]; intros l H; [reflexivity|].
  destruct l as [|b l]; [discriminate|]. cbn in H |- *.
  apply andb_true_iff in H as [H1 H2]. rewrite H1. cbn. now apply IH.
Qed.

Lemma is_prefix_app_r p l1 l2 :
  (length p <= length l1)%nat -> is_prefix p (l1 ++ l2) = is_prefix p l1.
Proof.
  revert l1. induction p as [|a p IH]; intros l1 H; [reflexivity|].
  destruct l1 as [|b l1]; [cbn in H; lia|]. cbn in H |- *.
  rewrite IH by lia. reflexivity.
Qed.

Lemma itersearch_from_none offs bits pat :
  (forall k, is_prefix pat (drop k bits) = false) ->
  itersearch_from offs bits pat = [].
Proof.
  revert offs. induction bits as [|b bits IH]; intros offs H; [reflexivity|].
  cbn [itersearch_from]. rewrite (H 0%nat : is_prefix pat (b :: bits) = false).
  cbn [app]. apply IH. intros k. exact (H (S k)).
Qed.

(** In three consecutive bytes of clocked data, neither sync pattern begins
    at any of the eight bit offsets of the first byte: its first 17 bits
    already break the clock rule there. *)
Lemma no_sync_in_triple y x1 x2 x3 k :
  In y [0; 1] -> In x1 clock_free -> In x2 clock_free -> In x3 clock_free ->
  (k < 8)%nat ->
  let o1 := mfm_step y x1 in
  let o2 := mfm_step o1 x2 in
  let o3 := mfm_step o2 x3 in
  is_prefix (take 17 sync) (drop k (frombytes [o1; o2; o3])) = false
  /\ is_prefix (take 17 iam_sync) (drop k (frombytes [o1; o2; o3])) = false.
Proof.
  intros Hy H1 H2 H3 Hk.
  assert (H : forallb (fun y => forallb (fun x1 => forallb (fun x2 =>
              forallb (fun x3 => forallb (fun k =>
                let o1 := mfm_step y x1 in
                let o2 := mfm_step o1 x2 in
                let o3 := mfm_step o2 x3 in
                negb (is_prefix (take 17 sync) (drop k (frombytes [o1; o2; o3])))
                && negb (is_prefix (take 17 iam_sync)
                                   (drop k (frombytes [o1; o2; o3]))))
              (seq 0 8)) clock_free) clock_free) clock_free) [0; 1] = true)
    by (vm_compute; reflexivity).
  rewrite forallb_forall in H. specialize (H _ Hy).
  rewrite forallb_forall in H. specialize (H _ H1).
  rewrite forallb_forall in H. specialize (H _ H2).
  rewrite forallb_forall in H. specialize (H _ H3).
  rewrite forallb_forall in H. specialize (H k).
  rewrite in_seq in H. specialize (H ltac:(lia)). cbn zeta in H.
  apply andb_true_iff in H as [Ha Hb].
  apply negb_true_iff in Ha, Hb. cbn zeta. auto.
Qed.

Lemma no_sync_in_clocked_data pat y dat k :
  pat = sync \/ pat = iam_sync ->
  is_byte y -> Forall (fun x => In x clock_free) dat ->
  is_prefix pat (drop k (frombytes (mfm_encode_from y dat))) = false.
Proof.
  intros Hpat Hy Hd. revert y k Hy.
  induction Hd as [|x1 dat H1 Hd IH]; intros y k Hy.
  { cbn. rewrite drop_nil. destruct Hpat as [-> | ->]; reflexivity. }
  cbn [mfm_encode_from]. set (o1 := mfm_step y x1).
  rewrite frombytes_cons.
  destruct (Nat.lt_ge_cases k 8) as [Hk|Hk].
  2:{ rewrite drop_app_ge by (rewrite length_bits_of_byte; lia).
      rewrite length_bits_of_byte. apply IH. apply mfm_step_byte. }
  apply not_true_is_false. intros Hp.
  assert (Hlen : (length pat = 48)%nat) by (destruct Hpat as [-> | ->]; reflexivity).
  destruct Hd as [|x2 dat H2 Hd].
  { apply is_prefix_length in Hp.
    rewrite length_drop, length_app, length_bits_of_byte, length_frombytes in Hp.
    cbn [mfm_encode_from length] in Hp. lia. }
  destruct Hd as [|x3 dat H3 Hd].
  { apply is_prefix_length in Hp.
    rewrite length_drop, length_app, length_bits_of_byte, length_frombytes in Hp.
    cbn [mfm_encode_from length] in Hp. lia. }
  rewrite <- frombytes_cons in Hp. cbn [mfm_encode_from] in Hp.
  set (o2 := mfm_step o1 x2) in Hp. set (o3 := mfm_step o2 x3) in Hp.
  change (o1 :: o2 :: o3 :: mfm_encode_from o3 dat)
    with ([o1; o2; o3] ++ mfm_encode_from o3 dat) in Hp.
  rewrite frombytes_app in Hp.
  rewrite drop_app_le in Hp by (rewrite length_frombytes; cbn; lia).
  rewrite <- (take_drop 17 pat) in Hp. apply is_prefix_app_l in Hp.
  rewrite is_prefix_app_r in Hp.
  2:{ rewrite length_take, length_drop, length_frombytes, Hlen. cbn. lia. }
  assert (Hy' : In (Z.land y 1) [0; 1]).
  { destruct (low_bit_cases y Hy) as [-> | ->]; cbn; auto. }
  destruct (no_sync_in_triple (Z.land y 1) x1 x2 x3 k Hy' H1 H2 H3 Hk) as [Ha Hb].
  rewrite <- (mfm_step_low_bit y x1 Hy H1) in Ha, Hb.
  fold o1 o2 o3 in Ha, Hb.
  destruct Hpat as [-> | ->]; congruence.
Qed.

(** X3: in the bits of clocked data, [mfm_encode (encode b)], neither the
    field sync pattern nor the index sync pattern occurs at any bit offset:
    the search of [decode_raw] finds nothing in them. *)
Theorem no_sync_in_encoded_data (b : list Z) (Hb : Forall is_byte b) :
  itersearch (frombytes (mfm_encode (encode b))) sync = []
  /\ itersearch (frombytes (mfm_encode (encode b))) iam_sync = [].
Proof.
  split; apply itersearch_from_none; intros k;
    apply no_sync_in_clocked_data; auto using encode_clock_free;
    unfold is_byte; lia.
Qed.

Lemma no_sync_in_encoded_data_witness :
  itersearch (frombytes (mfm_encode (encode [0xa1; 0x4e; 0x00; 0xc2]))) sync = []
  /\ itersearch (frombytes (mfm_encode (encode [0xa1; 0x4e; 0x00; 0xc2]))) iam_sync = [].
Proof.
  apply no_sync_in_encoded_data. repeat constructor; unfold is_byte; lia.
Defined.

(** ** CRC engine *)

Lemma crc16_bit_range c : 0 <= crc16_bit c < 65536.
Proof.
  unfold crc16_bit.
  destruct (negb _); change 65535 with (Z.ones 16);
    rewrite Z.land_ones by lia; apply Z.mod_pos_bound; lia.
Qed.

Lemma crc16_byte_range c x : 0 <= crc16_byte c x < 65536.
Proof. unfold crc16_byte. cbn [Nat.iter]. apply crc16_bit_range. Qed.

Lemma crc16_range m : 0 <= crc16 m < 65536.
Proof.
  unfold crc16. induction m as [|x m IH] using rev_ind; [cbn; lia|].
  rewrite foldl_app. cbn [foldl]. apply crc16_byte_range.
Qed.

(** Eight steps on a value below 256 shift it up by eight bits. *)
Lemma crc16_shift_byte l : is_byte l -> Nat.iter 8 crc16_bit l = Z.shiftl l 8.
Proof. intros Hl. by_byte_cases l Hl. Qed.

Lemma lxor_high_byte c :
  0 <= c < 65536 ->
  Z.lxor c (Z.shiftl (Z.land (Z.shiftr c 8) 255) 8) = Z.land c 255.
Proof.
  intros Hc. apply Z.bits_inj'. intros n Hn.
  rewrite Z.lxor_spec, Z.land_spec.
  change 255 with (Z.ones 8).
  destruct (Z.lt_ge_cases n 8) as [Hlt|Hge].
  - rewrite Z.shiftl_spec_low by lia. rewrite Z.ones_spec_low by lia.
    now rewrite xorb_false_r, andb_true_r.
  - rewrite Z.shiftl_spec by lia. rewrite Z.land_spec, Z.shiftr_spec by lia.
    replace (n - 8 + 8) with n by lia.
    rewrite (Z.ones_spec_high 8 n) by lia. rewrite andb_false_r.
    destruct (Z.lt_ge_cases n 16) as [Hlt|Hge'].
    + rewrite Z.ones_spec_low by lia. rewrite andb_true_r. apply xorb_nilpotent.
    + assert (Z.testbit c n = false) as ->; [|reflexivity].
      destruct (Z.eq_dec c 0) as [->|Hc0]; [apply Z.bits_0|].
      apply Z.bits_above_log2; [lia|].
      assert (Z.log2 c < 16); [|lia]. apply Z.log2_lt_pow2; lia.
Qed.

Lemma crc16_residue c :
  0 <= c < 65536 ->
  crc16_byte (crc16_byte c (Z.land (Z.shiftr c 8) 255)) (Z.land c 255) = 0.
Proof.
  intros Hc. unfold crc16_byte at 2. rewrite lxor_high_byte by exact Hc.
  rewrite crc16_shift_byte by apply land255_byte.
  unfold crc16_byte. rewrite Z.lxor_nilpotent. reflexivity.
Qed.

(** X4: a message followed by the two bytes of its CRC, high byte first as
    [raw_track] writes them, has CRC 0, the value [decode_raw] takes for a
    good field. *)
Theorem crc16_of_message_with_crc (m : list Z) :
  crc16 (m ++ pack_H (crc16 m)) = 0 /\ crc16 (append_crc m) = 0.
Proof.
  assert (H : crc16 (m ++ pack_H (crc16 m)) = 0).
  { unfold crc16 at 1. rewrite foldl_app. fold (crc16 m). unfold pack_H. cbn [foldl].
    apply crc16_residue, crc16_range. }
  split; exact H.
Qed.

(** ** Bit arrays and fields *)

Lemma byte_of_bits_of_byte x : is_byte x -> byte_of_bits (bits_of_byte x) = x.
Proof. intros Hx. by_byte_cases x Hx. Qed.

Lemma tobytes_chunks_step fuel bits :
  bits <> [] ->
  tobytes_chunks (S fuel) bits
  = byte_of_bits (take 8 bits) :: tobytes_chunks fuel (drop 8 bits).
Proof. destruct bits; [congruence | reflexivity]. Qed.

Lemma tobytes_chunks_frombytes fuel l :
  Forall is_byte l -> (length l <= fuel)%nat ->
  tobytes_chunks fuel (frombytes l) = l.
Proof.
  intros Hl. revert fuel. induction Hl as [|x l Hx Hl IH]; intros fuel Hf.
  - destruct fuel; reflexivity.
  - destruct fuel as [|fuel]; [cbn in Hf; lia|].
    rewrite frombytes_cons, tobytes_chunks_step.
    + rewrite take_app_length', drop_app_length' by reflexivity.
      rewrite byte_of_bits_of_byte by exact Hx. f_equal. apply IH. cbn in Hf. lia.
    + intros H. apply (f_equal length) in H.
      rewrite length_app, length_bits_of_byte in H. cbn in H. lia.
Qed.

Lemma tobytes_frombytes l : Forall is_byte l -> tobytes (frombytes l) = l.
Proof.
  intros Hl. unfold tobytes. apply tobytes_chunks_frombytes; [exact Hl|].
  rewrite length_frombytes. lia.
Qed.

Lemma length_mfm_encode_from y dat : length (mfm_encode_from y dat) = length dat.
Proof.
  revert y. induction dat as [|x dat IH]; intros y; [reflexivity|].
  cbn. now rewrite IH.
Qed.

Lemma decode_mfm_encode_from y dat :
  Forall is_byte dat -> decode (mfm_encode_from y dat) = decode dat.
Proof.
  intros Hd. apply decode_same_data; [apply mfm_encode_from_bytes | assumption|].
  eapply Forall2_impl; [apply mfm_encode_from_clock_only, Hd|].
  intros o x (E & _). exact E.
Qed.

(** X5: a field written to a track reads back: when the bits of the clocked
    encoding of the bytes [b], whatever byte [y] the clock pass carries into
    it, stand at offset [length pre] of a bit array, decoding the
    [16 * length b] bits from that offset gives [b]. *)
Theorem decode_bits_of_encoded_field (b : list Z) (y : Z)
    (pre post : list bool) (Hb : Forall is_byte b) :
  let s := Z.of_nat (length pre) in
  decode_bits (pre ++ frombytes (mfm_encode_from y (encode b)) ++ post)
              s (s + 16 * Z.of_nat (length b)) = b.
Proof.
  intros s. unfold decode_bits.
  set (F := frombytes (mfm_encode_from y (encode b))).
  assert (HF : length F = (16 * length b)%nat).
  { unfold F. rewrite length_frombytes, length_mfm_encode_from, length_encode. lia. }
  rewrite slice_in_range by (rewrite ?length_app; lia).
  unfold s. rewrite Nat2Z.id, drop_app_length.
  replace (Z.to_nat (Z.of_nat (length pre) + 16 * Z.of_nat (length b)
                     - Z.of_nat (length pre))) with (length F) by lia.
  rewrite take_app_length. unfold F.
  rewrite tobytes_frombytes by apply mfm_encode_from_bytes.
  rewrite decode_mfm_encode_from by apply encode_bytes.
  now apply decode_encode_bytes.
Qed.

Lemma decode_bits_of_encoded_field_witness :
  decode_bits ([true; false] ++ frombytes (mfm_encode_from 0x89 (encode [0xfe; 0x4e]))
                 ++ [false])
              2 (2 + 16 * 2) = [0xfe; 0x4e].
Proof.
  apply (decode_bits_of_encoded_field [0xfe; 0x4e] 0x89 [true; false] [false]).
  repeat constructor; unfold is_byte; lia.
Defined.

(** ** Flux decoder: what a scan produces *)

Lemma length_tobytes_chunks q fuel bits :
  length bits = (8 * q)%nat -> (q <= fuel)%nat ->
  length (tobytes_chunks fuel bits) = q.
Proof.
  revert fuel bits. induction q as [|q IH]; intros fuel bits Hlen Hf.
  - destruct bits; [|discriminate]. destruct fuel; reflexivity.
  - destruct fuel as [|fuel]; [lia|].
    rewrite tobytes_chunks_step by (intros ->; discriminate).
    cbn [length]. f_equal. apply IH; [|lia]. rewrite length_drop. lia.
Qed.

Lemma length_decode_bits bits s e m :
  0 <= s -> 0 <= m -> e = s + m * 16 -> e <= Z.of_nat (length bits) ->
  length (decode_bits bits s e) = Z.to_nat m.
Proof.
  intros Hs Hm -> He. unfold decode_bits.
  rewrite length_decode, slice_in_range by lia.
  unfold tobytes.
  rewrite (length_tobytes_chunks (2 * Z.to_nat m)).
  - rewrite Nat.mul_comm. apply Nat.div_mul. lia.
  - rewrite length_take, length_drop. lia.
  - rewrite length_take, length_drop. lia.
Qed.

Lemma length_slice_body (b : list Z) sz :
  0 <= sz -> length b = Z.to_nat (4 + sz + 2) ->
  Z.of_nat (length (slice b 4 (-2))) = sz.
Proof.
  intros Hsz Hb. unfold slice, clamp_index. cbn [Z.ltb Z.compare].
  rewrite length_take, length_drop. lia.
Qed.

Lemma itersearch_nonneg bits pat : Forall (fun o => 0 <= o) (itersearch bits pat).
Proof. apply itersearch_from_sorted. Qed.

(** What holds of an area of a scan of [bits]. *)
Lemma scan_sync_step_keeps bits (P : area -> Prop) areas pending offs :
  0 <= offs ->
  (forall a, area_shape a -> 0 <= area_start a ->
             area_end a <= Z.of_nat (length bits) -> P a) ->
  Forall P areas ->
  (forall i, pending = Some i ->
             P (AIDAM i) /\ 0 <= idam_start i
             /\ idam_end i = idam_start i + 10 * 16 /\ idam_start i < offs) ->
  let st := scan_sync_step bits (areas, pending) offs in
  Forall P st.1
  /\ (forall i, st.2 = Some i ->
                P (AIDAM i) /\ 0 <= idam_start i
                /\ idam_end i = idam_start i + 10 * 16 /\ idam_start i <= offs).
Proof.
  intros Hoffs HP Hareas Hpend.
  assert (Hkeep : forall i, pending = Some i ->
            P (AIDAM i) /\ 0 <= idam_start i
            /\ idam_end i = idam_start i + 10 * 16 /\ idam_start i <= offs).
  { intros i Hi. destruct (Hpend i Hi) as (? & ? & ? & ?). repeat split; auto. lia. }
  unfold scan_sync_step.
  destruct (Z.ltb_spec (Z.of_nat (length bits)) (offs + 4 * 16)) as [|Hlen];
    [split; assumption|].
  destruct (mark_at bits offs =? MARK_IDAM).
  - destruct (Z.ltb_spec (Z.of_nat (length bits)) (offs + 10 * 16)) as [|Hlen'];
      [split; assumption|].
    destruct (unpack_chrn _) as [[[c h] r] n]. cbn [fst snd]. split.
    + destruct pending as [i|]; [|exact Hareas].
      apply Forall_app. split; [exact Hareas|]. constructor; [|constructor].
      apply (Hpend i eq_refl).
    + intros i [= <-]. cbn. repeat split; try lia. apply HP; cbn; lia.
  - destruct (Z.eqb_spec (mark_at bits offs) MARK_DAM) as [Hm|Hm];
      [|destruct (Z.eqb_spec (mark_at bits offs) MARK_DDAM) as [Hm'|Hm']];
      cbn [orb]; [| |split; assumption].
    all: destruct pending as [i|];
      [destruct (Hpend i eq_refl) as (Hi & Hi0 & Hie & Hio)|].
    all: try (cbn [fst snd]; split; [|discriminate];
              apply Forall_app; split; [exact Hareas|];
              constructor; [|constructor]; apply HP; cbn; intuition lia).
    all: destruct (idam_end i - offs >? 1000).
    all: try (cbn [fst snd]; split; [|discriminate];
              apply Forall_app; split; [exact Hareas|];
              constructor; [|constructor]; apply HP; cbn; intuition lia).
    all: destruct (Z.ltb_spec (Z.of_nat (length bits))
                     (offs + (4 + Z.shiftl 128 (idam_n i) + 2) * 16)) as [|Hlen'];
      [split; [exact Hareas|]; intros j [= <-]; exact (Hkeep i eq_refl)|].
    all: cbn [fst snd]; split; [|discriminate].
    all: apply Forall_app; split; [exact Hareas|]; constructor; [|constructor].
    all: assert (Hsz : 0 <= Z.shiftl 128 (idam_n i)) by (apply Z.shiftl_nonneg; lia).
    all: apply HP; cbn; try lia.
    all: unfold sector_shape; cbn.
    all: split; [reflexivity|]; split; [reflexivity|]; split; [lia|].
    all: split; [lia|]; split; [reflexivity|]; split; [|split; [auto | reflexivity]].
    all: apply length_slice_body; [exact Hsz|].
    all: apply length_decode_bits; lia.
Qed.

Lemma scan_sync_fold_keeps bits (P : area -> Prop) offs areas pending :
  StronglySorted Z.lt offs -> Forall (fun o => 0 <= o) offs ->
  (forall a, area_shape a -> 0 <= area_start a ->
             area_end a <= Z.of_nat (length bits) -> P a) ->
  Forall P areas ->
  (forall i, pending = Some i ->
             P (AIDAM i) /\ 0 <= idam_start i
             /\ idam_end i = idam_start i + 10 * 16
             /\ Forall (fun o => idam_start i < o) offs) ->
  let st := foldl (scan_sync_step bits) (areas, pending) offs in
  Forall P st.1 /\ (forall i, st.2 = Some i -> P (AIDAM i)).
Proof.
  intros Hs Hnn HP. revert areas pending.
  induction Hs as [|o offs Hs IH Ho]; intros areas pending Hareas Hpend.
  - cbn. split; [exact Hareas|]. intros i Hi. apply (Hpend i Hi).
  - cbn [foldl]. apply Forall_cons in Hnn as [Ho0 Hnn].
    destruct (scan_sync_step_keeps bits P areas pending o Ho0 HP Hareas) as [H1 H2].
    { intros i Hi. destruct (Hpend i Hi) as (? & ? & ? & Hlt).
      apply Forall_cons in Hlt as [? _]. auto. }
    destruct (scan_sync_step bits (areas, pending) o) as [areas' pending'].
    apply IH; [exact Hnn | exact H1 |].
    intros i Hi. destruct (H2 i Hi) as (? & ? & ? & Hle).
    repeat split; auto. eapply Forall_impl; [exact Ho|]. cbn. intros; lia.
Qed.

Lemma scan_iam_fold_keeps bits (P : area -> Prop) offs st :
  Forall (fun o => 0 <= o) offs ->
  (forall a, area_shape a -> 0 <= area_start a ->
             area_end a <= Z.of_nat (length bits) -> P a) ->
  Forall P st.1 -> Forall P (foldl (scan_iam_step bits) st offs).1.
Proof.
  intros Hnn HP. revert st. induction Hnn as [|o offs Ho _ IH]; intros st Hst;
    [exact Hst|].
  cbn [foldl]. apply IH. destruct st as [areas seen]. unfold scan_iam_step.
  destruct (Z.ltb_spec (Z.of_nat (length bits)) (o + 4 * 16)); [exact Hst|].
  destruct (mark_at bits o =? MARK_IAM); [|exact Hst].
  cbn [fst]. apply Forall_app. split; [exact Hst|].
  constructor; [|constructor]. apply HP; cbn; lia.
Qed.

Lemma scan_areas_keeps bits (P : area -> Prop) :
  (forall a, area_shape a -> 0 <= area_start a ->
             area_end a <= Z.of_nat (length bits) -> P a) ->
  Forall P (scan_areas bits).1.
Proof.
  intros HP. unfold scan_areas.
  pose proof (scan_iam_fold_keeps bits P (itersearch bits iam_sync) ([], false)
                (itersearch_nonneg _ _) HP (Forall_nil_2 _)) as H1.
  destruct (foldl (scan_iam_step bits) _ _) as [areas seen].
  destruct (itersearch_from_sorted 0 bits sync) as [Hnn Hs].
  pose proof (scan_sync_fold_keeps bits P (itersearch bits sync) areas None
                Hs Hnn HP H1 ltac:(discriminate)) as [H2 H3].
  destruct (foldl (scan_sync_step bits) _ _) as [areas' pending].
  cbn [fst snd] in *. destruct pending as [i|]; [|exact H2].
  apply Forall_app. split; [exact H2|]. constructor; [|constructor].
  now apply H3.
Qed.

Lemma scan_areas_bounds bits :
  Forall (fun a => 0 <= area_start a
                   /\ area_end a <= Z.of_nat (length bits)
                   /\ area_shape a)
         (scan_areas bits).1.
Proof. apply scan_areas_keeps. auto. Qed.

(** X6: every area that the scan of a bit array produces starts at a
    non-negative offset and ends within the array (a sync too close to the
    end is passed over), and has the extent of its kind: four encoded bytes
    for an index mark or a placeholder data field (whose CRC is 0xffff), ten
    for an ID field; a sector runs from its ID field to the end of a data
    field that holds exactly [128 << n] bytes under a data or deleted-data
    mark. *)
Theorem scan_areas_within_bits (bits : list bool) :
  Forall (fun a => 0 <= area_start a
                   /\ area_end a <= Z.of_nat (length bits)
                   /\ area_shape a)
         (scan_areas bits).1.
Proof. apply scan_areas_bounds. Qed.

(** ** Flux decoder: offsets within the track *)

Lemma area_delta_0 a : area_delta a 0 = a.
Proof.
  destruct a as [[]|[]|[]|[? ? ? [] []]]; cbn; unfold IDAM_delta, DAM_delta; cbn;
    now rewrite ?Z.sub_0_r.
Qed.

Lemma area_start_delta a p : area_start (area_delta a p) = area_start a - p.
Proof. destruct a; reflexivity. Qed.

Lemma area_shape_delta a p : area_shape a -> area_shape (area_delta a p).
Proof.
  destruct a as [x|x|x|x]; cbn; unfold sector_shape; cbn; intuition lia.
Qed.

(** Once past the first boundary, and before the next one if there is one,
    every area is re-expressed relative to the first. *)
Lemma normalise_fold_after r0 n2 index out l :
  Forall (fun a => match n2 with Some n => area_start a < n | None => True end) l ->
  foldl normalise_step (r0, n2, index, out) l
  = (r0, n2, index, out ++ map (fun a => area_delta a r0) l).
Proof.
  intros Hl. revert out. induction Hl as [|a l Ha _ IH]; intros out.
  - cbn. now rewrite app_nil_r.
  - cbn [foldl map]. unfold normalise_step at 2.
    destruct n2 as [n|].
    + destruct (Z.leb_spec n (area_start a)); [lia|].
      rewrite IH, <- app_assoc. reflexivity.
    + rewrite IH, <- app_assoc. reflexivity.
Qed.

Lemma normalise_fold_before r0 index out l :
  StronglySorted (key_le area_start) l ->
  Forall (fun a => match index with
                   | r1 :: _ => area_start a < r0 + r1
                   | [] => True
                   end) l ->
  (foldl normalise_step (0, Some r0, index, out) l).2
  = out ++ map (relative_to r0) l.
Proof.
  intros Hs. revert out. induction Hs as [|a l Hs IH Ha]; intros out Hl.
  - cbn. now rewrite app_nil_r.
  - apply Forall_cons in Hl as [Hla Hl]. cbn [foldl map].
    unfold normalise_step at 2. unfold relative_to at 1.
    destruct (Z.leb_spec r0 (area_start a)) as [Hge|Hlt];
      destruct (Z.ltb_spec (area_start a) r0) as [Hlt'|Hge']; try lia.
    + assert (Hmap : map (relative_to r0) l = map (fun a => area_delta a r0) l).
      { apply map_ext_in. intros b Hb. unfold relative_to.
        rewrite Forall_forall in Ha. apply list_elem_of_In in Hb.
        specialize (Ha b Hb). unfold key_le in Ha.
        destruct (Z.ltb_spec (area_start b) r0); [lia | reflexivity]. }
      rewrite Hmap. destruct index as [|r1 index].
      * rewrite normalise_fold_after by (apply Forall_forall; auto).
        cbn [snd]. now rewrite <- app_assoc.
      * rewrite normalise_fold_after by exact Hl.
        cbn [snd]. now rewrite <- app_assoc.
    + rewrite area_delta_0, IH by exact Hl. now rewrite <- app_assoc.
Qed.

(** X7: the conversion to offsets within the track, for the first two
    revolutions.  With a single revolution, or with more when every area
    starts before the end of the second, the areas that start at or after
    the first boundary [r0] are re-expressed relative to it and the others
    keep their offsets; the result is in start order. *)
Theorem normalise_first_boundary (r0 r1 : Z) (rest : list Z) (areas : list area)
    (Hbelow : Forall (fun a => area_start a < r0 + r1) areas) :
  normalise [r0] areas
  = Some (sort_by area_start (map (relative_to r0) (sort_by area_start areas)))
  /\ normalise (r0 :: r1 :: rest) areas
     = Some (sort_by area_start (map (relative_to r0) (sort_by area_start areas))).
Proof.
  unfold normalise. split.
  - pose proof (normalise_fold_before r0 [] [] (sort_by area_start areas)
                  (sort_by_sorted _ _) ltac:(apply Forall_forall; auto)) as H.
    destruct (foldl normalise_step _ _) as [[[p n] index] out]. cbn in H.
    now subst.
  - pose proof (normalise_fold_before r0 (r1 :: rest) [] (sort_by area_start areas)
                  (sort_by_sorted _ _)) as H.
    assert (Hb : Forall (fun a => area_start a < r0 + r1)
                        (sort_by area_start areas))
      by (rewrite sort_by_perm; exact Hbelow).
    specialize (H Hb).
    destruct (foldl normalise_step _ _) as [[[p n] index] out]. cbn in H.
    now subst.
Qed.

Lemma normalise_first_boundary_witness :
  normalise [6000] [AIAM (mkIAM 6100 6164); AIAM (mkIAM 100 164)]
  = Some (sort_by area_start
            (map (relative_to 6000)
                 (sort_by area_start
                    [AIAM (mkIAM 6100 6164); AIAM (mkIAM 100 164)])))
  /\ normalise [6000; 6000; 6000] [AIAM (mkIAM 6100 6164); AIAM (mkIAM 100 164)]
     = Some (sort_by area_start
               (map (relative_to 6000)
                    (sort_by area_start
                       [AIAM (mkIAM 6100 6164); AIAM (mkIAM 100 164)]))).
Proof.
  apply (normalise_first_boundary 6000 6000 [6000]).
  repeat constructor; cbn; lia.
Defined.

Lemma normalise_fold_keeps (R : area -> Prop) l p n index out :
  StronglySorted (key_le area_start) l ->
  Forall (fun a => p <= area_start a) l ->
  (forall a q, a ∈ l -> q <= area_start a -> R (area_delta a q)) ->
  Forall R out ->
  Forall R (foldl normalise_step (p, n, index, out) l).2.
Proof.
  intros Hs. revert p n index out.
  induction Hs as [|a l Hs IH Ha]; intros p n index out Hp HR Hout; [exact Hout|].
  apply Forall_cons in Hp as [Hpa Hp]. cbn [foldl].
  assert (Hl : forall b, b ∈ l -> area_start a <= area_start b).
  { rewrite Forall_forall in Ha. exact Ha. }
  assert (HR' : forall b q, b ∈ l -> q <= area_start b -> R (area_delta b q)).
  { intros b q Hb. apply HR. now right. }
  assert (Hnew : forall q, q <= area_start a -> Forall R (out ++ [area_delta a q])).
  { intros q Hq. apply Forall_app. split; [exact Hout|].
    constructor; [|constructor]. apply HR; [now left | exact Hq]. }
  unfold normalise_step at 2. destruct n as [n|].
  - destruct (Z.leb_spec n (area_start a)) as [Hn|Hn].
    + destruct index as [|r index]; apply IH; auto;
        apply Forall_forall; intros b Hb; specialize (Hl b Hb); lia.
    + apply IH; auto.
  - apply IH; auto.
Qed.

Lemma normalise_keeps (R : area -> Prop) revolutions areas out :
  normalise revolutions areas = Some out ->
  Forall (fun a => 0 <= area_start a) areas ->
  (forall a q, a ∈ areas -> q <= area_start a -> R (area_delta a q)) ->
  Forall R out.
Proof.
  unfold normalise. destruct revolutions as [|r0 index]; [discriminate|].
  intros Hout H0 HR.
  pose proof (normalise_fold_keeps R (sort_by area_start areas) 0 (Some r0) index []
                (sort_by_sorted _ _)) as H.
  destruct (foldl normalise_step _ _) as [[[p n] index'] out'].
  injection Hout as <-. rewrite sort_by_perm. apply H.
  - rewrite sort_by_perm. exact H0.
  - intros a q Ha. apply HR. now rewrite <- (sort_by_perm area_start areas).
  - constructor.
Qed.

(** X8: whatever [decode_raw] adds to a track is well formed: every sector
    afterwards was there before, or starts at a non-negative offset within
    the track and has the extents of a scanned sector ([sector_shape], with
    exactly [128 << n] bytes of data); every index mark afterwards was there
    before, or starts at a non-negative offset and spans four encoded
    bytes. *)
Theorem decode_raw_adds_well_formed
    (self : track) (bits : list bool) (revolutions : list Z) (self' : track)
    (Hret : decode_raw self bits revolutions = Some self') :
  Forall (fun s => s ∈ sectors self \/ (0 <= sec_start s /\ sector_shape s))
         (sectors self')
  /\ Forall (fun m => m ∈ iams self
                      \/ (0 <= iam_start m /\ iam_end m = iam_start m + 4 * 16))
            (iams self').
Proof.
  rewrite decode_raw_unfold in Hret.
  destruct (normalise revolutions (scan_areas bits).1) as [areas|] eqn:Hn;
    [|discriminate].
  cbn in Hret. injection Hret as <-.
  assert (HR : Forall (fun a => 0 <= area_start a /\ area_shape a) areas).
  { apply (normalise_keeps _ _ _ _ Hn).
    - eapply Forall_impl; [apply (scan_areas_bounds bits)|].
      cbn. intros a (? & _). assumption.
    - intros a q Ha Hq.
      pose proof (scan_areas_bounds bits) as Hscan.
      rewrite Forall_forall in Hscan. destruct (Hscan a Ha) as (H0 & _ & Hshape).
      rewrite area_start_delta. split; [lia | now apply area_shape_delta]. }
  rewrite Forall_forall in HR. split; apply Forall_forall.
  - intros s Hs. apply merge_areas_sectors_from in Hs.
    destruct Hs as [Hs|Hs].
    + left. destruct (scan_areas bits).2; exact Hs.
    + right. exact (HR _ Hs).
  - intros m Hm. apply merge_areas_iams_from in Hm.
    destruct Hm as [Hm|Hm].
    + left. destruct (scan_areas bits).2; exact Hm.
    + right. exact (HR _ Hm).
Qed.

Lemma decode_raw_adds_well_formed_witness :
  Forall (fun s => s ∈ sectors (new_track 0 0)
                   \/ (0 <= sec_start s /\ sector_shape s))
         (sectors one_sector_track)
  /\ Forall (fun m => m ∈ iams (new_track 0 0)
                      \/ (0 <= iam_start m /\ iam_end m = iam_start m + 4 * 16))
            (iams one_sector_track).
Proof.
  apply (decode_raw_adds_well_formed (new_track 0 0) (revolution_bits 1 1) [6000]).
  vm_compute. reflexivity.
Defined.

(** ** Flux decoder: what the merge keeps *)

Lemma merge_step_entry t a i s :
  sectors t !! i = Some s ->
  exists s', sectors (merge_step t a) !! i = Some s'
             /\ (s' = s \/ (sec_crc s <> 0 /\ sec_crc s' = 0
                            /\ close_to (sec_start s') (sec_start s))).
Proof.
  intros Hi. destruct a as [m|x|x|x]; cbn.
  - destruct (list_find _ (iams t)); cbn; eauto.
  - eauto.
  - eauto.
  - destruct (list_find _ (sectors t)) as [[j y]|] eqn:Hfind; cbn.
    + apply list_find_Some in Hfind as (Hj & Hclose & _).
      destruct (Z.eqb_spec (sec_crc y) 0) as [Hy|Hy]; cbn; [eauto|].
      destruct (Z.eqb_spec (sec_crc x) 0) as [Hx|Hx]; cbn; [|eauto].
      destruct (decide (i = j)) as [->|Hne].
      * exists x. rewrite list_lookup_insert_eq by (eapply lookup_lt_Some; eauto).
        split; [reflexivity|]. right. rewrite Hi in Hj. injection Hj as ->. auto.
      * exists s. rewrite list_lookup_insert_ne by auto. auto.
    + exists s. rewrite lookup_app_l by (eapply lookup_lt_Some; eauto). auto.
Qed.

Lemma merge_step_iam_entry t a i m :
  iams t !! i = Some m -> iams (merge_step t a) !! i = Some m.
Proof.
  intros Hi. destruct a as [m'|x|x|x]; cbn; auto.
  - destruct (list_find _ (iams t)); cbn; [exact Hi|].
    rewrite lookup_app_l by (eapply lookup_lt_Some; eauto). exact Hi.
  - destruct (list_find _ (sectors t)) as [[j y]|]; cbn; [|exact Hi].
    destruct (negb _ && _); exact Hi.
Qed.

(** X9: the merge never loses an entry and never gives up a good one.
    Whatever areas are merged into a track, every entry of [sectors] keeps
    its index and is either untouched or, having had a non-zero CRC, is
    replaced once and for all by an observation with CRC 0 that starts
    within 1000 bit-cells of it; every entry of [iams] stays as it is. *)
Theorem merge_areas_keeps_entries (t : track) (areas : list area) :
  (forall i s, sectors t !! i = Some s ->
     exists s', sectors (merge_areas t areas) !! i = Some s'
                /\ (s' = s \/ (sec_crc s <> 0 /\ sec_crc s' = 0
                               /\ close_to (sec_start s') (sec_start s))))
  /\ (forall i m, iams t !! i = Some m -> iams (merge_areas t areas) !! i = Some m).
Proof.
  unfold merge_areas. revert t.
  induction areas as [|a areas IH]; intros t; cbn [foldl]; [eauto|].
  destruct (IH (merge_step t a)) as [IHs IHm]. split.
  - intros i s Hi. destruct (merge_step_entry t a i s Hi) as (s1 & H1 & Hr1).
    destruct (IHs i s1 H1) as (s2 & H2 & Hr2). exists s2. split; [exact H2|].
    destruct Hr1 as [->|(Hbad & Hgood & Hclose)]; [exact Hr2|].
    destruct Hr2 as [->|(Hbad2 & _)]; [|congruence]. right. auto.
  - intros i m Hi. apply IHm. now apply merge_step_iam_entry.
Qed.

(** ** Formatted tracks: the matching of raw sectors *)

Lemma foldl_match_raw raws : forall secs,
  foldl match_raw secs raws = map (match_fold raws) secs.
Proof.
  induction raws as [|r raws IH]; intros secs; cbn [foldl].
  - unfold match_fold. cbn. now rewrite map_id.
  - rewrite IH. unfold match_raw.
    destruct (negb (idam_crc (idam r) =? 0)) eqn:Hr.
    + apply map_ext. intros s. unfold match_fold. cbn [foldl]. now rewrite Hr.
    + rewrite map_map. apply map_ext. intros s. unfold match_fold. cbn [foldl].
      now rewrite Hr.
Qed.

Lemma match_fold_cons r raws s :
  match_fold (r :: raws) s
  = match_fold raws (if negb (idam_crc (idam r) =? 0) then s else match_sector r s).
Proof. reflexivity. Qed.

Lemma list_find_cons_false {A} (P : A -> Prop) `{!forall x, Decision (P x)} x l :
  ~ P x -> list_find P (x :: l) = prod_map S id <$> list_find P l.
Proof. intros Hx. cbn. destruct (decide (P x)); [contradiction|reflexivity]. Qed.

Lemma list_find_cons_true {A} (P : A -> Prop) `{!forall x, Decision (P x)} x l :
  P x -> list_find P (x :: l) = Some (0%nat, x).
Proof. intros Hx. cbn. destruct (decide (P x)); [reflexivity|contradiction]. Qed.

Lemma good_copy_none raws s :
  list_find (id_copy s) raws = None -> list_find (good_copy s) raws = None.
Proof.
  rewrite !list_find_None. intros H. eapply Forall_impl; [exact H|].
  intros r Hr [Hid _]. auto.
Qed.

Lemma matched_id_seen_clear raws s :
  dam_crc (dam s) = 0 -> idam_crc (idam s) = 0 -> matched raws s = s.
Proof.
  intros Hd Hi. unfold matched. destruct (list_find _ raws); [|reflexivity].
  rewrite Hd. cbn. destruct s as [st en c [a b ic cc hh rr nn] d]. cbn in *.
  now subst.
Qed.

Lemma matched_cons_skip r raws s :
  ~ id_copy s r -> matched (r :: raws) s = matched raws s.
Proof.
  intros Hr. unfold matched.
  rewrite list_find_cons_false by exact Hr.
  rewrite (list_find_cons_false (good_copy s)) by (intros [H _]; auto).
  destruct (list_find (id_copy s) raws); cbn; [|reflexivity].
  destruct (dam_crc (dam s) =? 0); [reflexivity|].
  destruct (list_find (good_copy s) raws) as [[j y]|]; reflexivity.
Qed.

Lemma match_fold_matched raws : forall s, match_fold raws s = matched raws s.
Proof.
  induction raws as [|r raws IH]; intros s; [reflexivity|].
  rewrite match_fold_cons, IH.
  destruct (Z.eqb_spec (idam_crc (idam r)) 0) as [Hic|Hic]; cbn [negb].
  2:{ symmetry. apply matched_cons_skip. intros [H _]. auto. }
  unfold match_sector. destruct (same_chrn s r) eqn:Hsame.
  2:{ symmetry. apply matched_cons_skip. intros [_ H]. congruence. }
  assert (Hid : id_copy s r) by (split; assumption).
  destruct (Z.eqb_spec (dam_crc (dam r)) 0) as [Hdr|Hdr]; cbn [andb];
    destruct (Z.eqb_spec (dam_crc (dam s)) 0) as [Hds|Hds]; cbn [negb].
  - (* data already good *)
    rewrite matched_id_seen_clear by (cbn; auto).
    unfold matched. rewrite list_find_cons_true by exact Hid.
    apply Z.eqb_eq in Hds. now rewrite Hds.
  - (* recovered from [r] *)
    rewrite matched_id_seen_clear by (cbn; auto).
    unfold matched. rewrite list_find_cons_true by exact Hid.
    apply Z.eqb_neq in Hds. rewrite Hds.
    rewrite list_find_cons_true by (split; assumption). reflexivity.
  - rewrite matched_id_seen_clear by (cbn; auto).
    unfold matched. rewrite list_find_cons_true by exact Hid.
    apply Z.eqb_eq in Hds. now rewrite Hds.
  - (* the ID is seen, the data are still missing *)
    unfold matched at 2. rewrite list_find_cons_true by exact Hid.
    rewrite (list_find_cons_false (good_copy s)) by (intros [_ H]; auto).
    pose proof Hds as Hds'. apply Z.eqb_neq in Hds'. rewrite Hds'.
    change (mkSector (sec_start s) (sec_end s) (sec_crc s)
                     (IDAM_set_crc (idam s) 0) (dam s)) with (id_seen s).
    unfold matched.
    change (list_find (id_copy (id_seen s)) raws)
      with (list_find (id_copy s) raws).
    change (list_find (good_copy (id_seen s)) raws)
      with (list_find (good_copy s) raws).
    change (dam_crc (dam (id_seen s))) with (dam_crc (dam s)). rewrite Hds'.
    destruct (list_find (id_copy s) raws) eqn:Hfind.
    + destruct (list_find (good_copy s) raws) as [[j y]|]; reflexivity.
    + rewrite good_copy_none by exact Hfind. reflexivity.
Qed.

Lemma decode_raw_formatted_sectors self bits revolutions self' :
  decode_raw_formatted self bits revolutions = Some self' ->
  sectors self' = map (matched (raw_sectors self')) (sectors self)
  /\ iams self' = iams self.
Proof.
  unfold decode_raw_formatted. intros H.
  destruct (decode_raw _ bits revolutions) as [t|]; [|discriminate].
  cbn in H. injection H as <-. cbn. rewrite foldl_match_raw. split; [|reflexivity].
  apply map_ext. intros s. apply match_fold_matched.
Qed.

(** X10: the two nested loops of [IBM_MFM_Formatted.decode_raw] told without
    loops.  When the call returns, the list of IAMs is untouched and each
    expected sector has become [matched] of itself: unchanged when no raw
    sector with a good ID CRC carries its C, H, R and N; otherwise its ID CRC
    is cleared, and when its data CRC was not yet zero it takes CRC 0 and
    the data of the first raw sector that carries its ID with both CRCs
    good, if there is one. *)
Theorem decode_raw_formatted_matches
    (self : track) (bits : list bool) (revolutions : list Z) (self' : track)
    (Hret : decode_raw_formatted self bits revolutions = Some self') :
  sectors self' = map (matched (raw_sectors self')) (sectors self)
  /\ iams self' = iams self.
Proof. eapply decode_raw_formatted_sectors; exact Hret. Qed.

Lemma decode_raw_formatted_matches_witness :
  sectors strided_readback
  = map (matched (raw_sectors strided_readback)) (sectors strided_track)
  /\ iams strided_readback = iams strided_track.
Proof.
  apply (decode_raw_formatted_matches strided_track (revolution_bits 1 1) [6000]).
  vm_compute. reflexivity.
Defined.

Lemma matched_keeps raws s :
  sec_start (matched raws s) = sec_start s
  /\ sec_end (matched raws s) = sec_end s
  /\ IDAM_set_crc (idam (matched raws s)) 0 = IDAM_set_crc (idam s) 0
  /\ dam_start (dam (matched raws s)) = dam_start (dam s)
  /\ dam_end (dam (matched raws s)) = dam_end (dam s)
  /\ dam_mark (dam (matched raws s)) = dam_mark (dam s)
  /\ (dam_crc (dam s) = 0 -> dam (matched raws s) = dam s)
  /\ (sec_crc s = 0 -> sec_crc (matched raws s) = 0).
Proof.
  unfold matched. destruct (list_find (id_copy s) raws); [|tauto].
  destruct (Z.eqb_spec (dam_crc (dam s)) 0) as [Hd|Hd]; [cbn; tauto|].
  destruct (list_find (good_copy s) raws) as [[j y]|]; cbn; tauto.
Qed.

Lemma missing_map_le (f : Sector -> Sector) (l : list Sector) :
  (forall s, sec_crc s = 0 -> sec_crc (f s) = 0) ->
  (length (filter (fun s => sec_crc s <> 0%Z) (map f l))
   <= length (filter (fun s => sec_crc s <> 0%Z) l))%nat.
Proof.
  intros Hf. induction l as [|s l IH]; [reflexivity|]. cbn [map].
  rewrite !filter_cons.
  destruct (decide (sec_crc (f s) <> 0)) as [Hfs|Hfs];
    destruct (decide (sec_crc s <> 0)) as [Hs|Hs]; cbn [length]; try lia.
  exfalso. apply Hfs. apply Hf. lia.
Qed.

(** X11: what [IBM_MFM_Formatted.decode_raw] never does to the expected
    sectors.  The count of missing sectors does not grow; every sector keeps
    its place in the list, its offsets, its C, H, R and N and its mark; data
    whose CRC was already zero are never overwritten; and a sector CRC that
    was zero stays zero. *)
Theorem decode_raw_formatted_keeps
    (self : track) (bits : list bool) (revolutions : list Z) (self' : track)
    (Hret : decode_raw_formatted self bits revolutions = Some self') :
  nr_missing self' <= nr_missing self
  /\ Forall2 (fun s s' =>
       sec_start s' = sec_start s /\ sec_end s' = sec_end s
       /\ IDAM_set_crc (idam s') 0 = IDAM_set_crc (idam s) 0
       /\ dam_start (dam s') = dam_start (dam s)
       /\ dam_end (dam s') = dam_end (dam s)
       /\ dam_mark (dam s') = dam_mark (dam s)
       /\ (dam_crc (dam s) = 0 -> dam s' = dam s)
       /\ (sec_crc s = 0 -> sec_crc s' = 0))
      (sectors self) (sectors self').
Proof.
  destruct (decode_raw_formatted_sectors _ _ _ _ Hret) as [Hs _].
  unfold nr_missing. rewrite Hs. split.
  - apply inj_le. apply missing_map_le. intros s. apply matched_keeps.
  - apply Forall2_fmap_r. apply Forall2_same_length_lookup_2; [reflexivity|].
    intros i x y Hx Hy. rewrite Hx in Hy. injection Hy as <-.
    apply matched_keeps.
Qed.

Lemma decode_raw_formatted_keeps_witness :
  nr_missing strided_readback <= nr_missing strided_track
  /\ Forall2 (fun s s' =>
       sec_start s' = sec_start s /\ sec_end s' = sec_end s
       /\ IDAM_set_crc (idam s') 0 = IDAM_set_crc (idam s) 0
       /\ dam_start (dam s') = dam_start (dam s)
       /\ dam_end (dam s') = dam_end (dam s)
       /\ dam_mark (dam s') = dam_mark (dam s)
       /\ (dam_crc (dam s) = 0 -> dam s' = dam s)
       /\ (sec_crc s = 0 -> sec_crc s' = 0))
      (sectors strided_track) (sectors strided_readback).
Proof.
  apply (decode_raw_formatted_keeps strided_track (revolution_bits 1 1) [6000]).
  vm_compute. reflexivity.
Defined.

(** ** The verifier *)

Lemma matched_readback raws s :
  matched raws (readback_sector s)
  = match list_find (good_copy s) raws with
    | Some (_, r) => store_slice (readback_sector s) (dam_data (dam r))
    | None => matched raws (readback_sector s)
    end
  /\ (list_find (good_copy s) raws = None ->
      sec_crc (matched raws (readback_sector s)) = 0xffff).
Proof.
  unfold matched.
  change (list_find (id_copy (readback_sector s)) raws)
    with (list_find (id_copy s) raws).
  change (list_find (good_copy (readback_sector s)) raws)
    with (list_find (good_copy s) raws).
  change (dam_crc (dam (readback_sector s)) =? 0) with false.
  destruct (list_find (good_copy s) raws) as [[j y]|] eqn:Hg.
  - split; [|discriminate].
    destruct (list_find (id_copy s) raws) eqn:Hi; [reflexivity|].
    apply good_copy_none in Hi. congruence.
  - split; [reflexivity|]. intros _.
    destruct (list_find (id_copy s) raws); reflexivity.
Qed.

Lemma verified_by_matched raws s :
  (sec_crc (matched raws (readback_sector s)) = 0
   /\ s = matched raws (readback_sector s))
  <-> verified_by raws s.
Proof.
  destruct (matched_readback raws s) as [Hsome Hnone]. unfold verified_by.
  destruct (list_find (good_copy s) raws) as [[j y]|] eqn:Hg.
  - rewrite Hsome. destruct s as [st en c [a b ic cc hh rr nn] [da db dc dm dd]].
    unfold crc_clear. cbn. split.
    + intros [_ H]. injection H as -> -> -> -> ->.
      repeat split; try reflexivity. exists j, y. auto.
    + intros (-> & -> & (-> & -> & ->) & i & r & Hfind & Hdata).
      injection Hfind as _ ->. subst dd. auto.
  - specialize (Hnone eq_refl). split.
    + intros [H0 _]. rewrite Hnone in H0. discriminate.
    + intros (_ & _ & _ & i & r & Hfind & _). discriminate.
Qed.

(** X12: what [verify_track] checks.  Given the track that the read-back
    decode returns, the verifier answers [True] exactly when every sector
    of the track starts with its ID field and ends with its data field, has
    its three CRCs zero, and holds the data of the first raw sector read
    back with its C, H, R and N and both CRCs good. *)
Theorem verify_track_true_iff
    (self : track) (bits : list bool) (revolutions : list Z) (rb : track)
    (Hrb : decode_raw_formatted (readback_init self) bits revolutions = Some rb) :
  verify_track self bits revolutions = Some true
  <-> Forall (verified_by (raw_sectors rb)) (sectors self).
Proof.
  destruct (decode_raw_formatted_sectors _ _ _ _ Hrb) as [Hs _].
  cbn in Hs. unfold verify_track. rewrite Hrb. cbn [mbind option_bind].
  set (f := fun s => matched (raw_sectors rb) (readback_sector s)).
  assert (Hsec : sectors rb = map f (sectors self)).
  { rewrite Hs, map_map. reflexivity. }
  assert (Hmiss : nr_missing rb = 0
                  <-> Forall (fun s => sec_crc (f s) = 0) (sectors self)).
  { unfold nr_missing. rewrite Hsec. clear.
    induction (sectors self) as [|s l IH]; [cbn; split; auto|].
    cbn [map]. rewrite filter_cons, Forall_cons.
    destruct (decide (sec_crc (f s) <> 0)) as [Hf|Hf]; cbn [length].
    - split; [lia | intros [H _]; contradiction].
    - rewrite IH. split; [intros H; split; [lia|exact H] | tauto]. }
  assert (Heq : sectors self = sectors rb
                <-> Forall (fun s => s = f s) (sectors self)).
  { rewrite Hsec. clear.
    induction (sectors self) as [|s l IH]; [cbn; split; auto|].
    cbn [map]. rewrite Forall_cons, <- IH. split.
    - intros H. injection H as H1 H2. auto.
    - intros [H1 H2]. congruence. }
  assert (Hall : Forall (verified_by (raw_sectors rb)) (sectors self)
                 <-> Forall (fun s => sec_crc (f s) = 0) (sectors self)
                     /\ Forall (fun s => s = f s) (sectors self)).
  { rewrite <- Forall_and. apply Forall_proper; [|reflexivity].
    intros s. symmetry. apply verified_by_matched. }
  rewrite Hall, <- Hmiss, <- Heq.
  destruct (Z.eqb_spec (nr_missing rb) 0) as [Hm|Hm]; cbn [negb].
  - split.
    + intros H. injection H as H. apply bool_decide_eq_true in H. auto.
    + intros [_ H]. f_equal. now apply bool_decide_eq_true.
  - split; [discriminate | tauto].
Qed.

Lemma verify_track_true_iff_witness :
  verify_track one_sector_track two_revolutions_bits two_revolutions = Some true
  <-> Forall (verified_by (raw_sectors verified_readback))
             (sectors one_sector_track).
Proof.
  apply (verify_track_true_iff one_sector_track two_revolutions_bits
                               two_revolutions).
  vm_compute. reflexivity.
Defined.


(** ** Geometry synthesiser: the sector map *)

Lemma insert_free_perm (l : list Z) p i rest free :
  l !! p = Some (-1) -> l ≡ₚ rest ++ replicate (S free) (-1) ->
  <[p := i]> l ≡ₚ i :: rest ++ replicate free (-1).
Proof.
  intros Hp Hl.
  assert (Hlt : (p < length l)%nat) by (eapply lookup_lt_Some; exact Hp).
  rewrite insert_take_drop by exact Hlt.
  rewrite <- Permutation_middle. constructor.
  rewrite <- delete_take_drop.
  apply (Permutation_cons_inv (a := -1)).
  rewrite <- (delete_Permutation l p (-1)) by exact Hp.
  rewrite Hl. cbn [replicate]. now rewrite <- Permutation_middle.
Qed.

Lemma sector_map_fold_perm interleave nsec (todo : list Z) :
  forall sec_map pos done free,
  Z.of_nat (length sec_map) = nsec -> 0 <= pos < nsec ->
  Forall (fun i => 0 <= i) todo -> Forall (fun i => 0 <= i) done ->
  sec_map ≡ₚ done ++ replicate (length todo + free) (-1) ->
  exists m p',
    foldl (fun st i =>
             '(sec_map, pos) ← st;
             pos ← free_slot (S (length sec_map)) sec_map nsec pos;
             Some (<[Z.to_nat pos := i]> sec_map,
                   Z.modulo (pos + interleave) nsec))
          (Some (sec_map, pos)) todo = Some (m, p')
    /\ m ≡ₚ todo ++ done ++ replicate free (-1).
Proof.
  induction todo as [|i todo IH]; intros sec_map pos done free Hlen Hpos Htodo
    Hdone Hperm.
  - exists sec_map, pos. split; [reflexivity|exact Hperm].
  - cbn [foldl length] in *. apply Forall_cons in Htodo as [Hi Htodo].
    assert (Hin : -1 ∈ sec_map).
    { rewrite Hperm. apply elem_of_app. right. cbn. left. }
    apply list_elem_of_lookup in Hin as [j Hj].
    destruct (free_slot_total sec_map pos j) as (p & Hp & Hrange & Hslot);
      [lia | exact Hj |].
    rewrite Hlen in Hp. cbn [mbind option_bind]. rewrite Hp.
    cbn [mbind option_bind].
    destruct (IH (<[Z.to_nat p := i]> sec_map) ((p + interleave) `mod` nsec)
                 (i :: done) free) as (m & p' & Hm & Hmperm).
    + now rewrite length_insert.
    + apply Z.mod_pos_bound. lia.
    + exact Htodo.
    + constructor; assumption.
    + cbn [app]. apply insert_free_perm; assumption.
    + exists m, p'. split; [exact Hm|]. rewrite Hmperm. cbn [app].
      now rewrite <- Permutation_middle.
Qed.

Lemma sector_map_range config cyl head :
  exists m, sector_map config cyl head = Some m
            /\ m ≡ₚ range (cfg_secs config).
Proof.
  unfold sector_map. set (nsec := cfg_secs config).
  destruct (Z.leb_spec nsec 0) as [Hn|Hn].
  - unfold range. rewrite seqZ_nil by lia. cbn.
    replace (Z.to_nat nsec) with 0%nat by lia. exists []. auto.
  - destruct (sector_map_fold_perm (cfg_interleave config) nsec (range nsec)
                (replicate (Z.to_nat nsec) (-1))
                (Z.modulo (cyl * cfg_cskew config + head * cfg_hskew config) nsec)
                [] 0%nat)
      as (m & p' & Hm & Hperm).
    + rewrite length_replicate. lia.
    + apply Z.mod_pos_bound. lia.
    + apply Forall_seqZ. lia.
    + constructor.
    + unfold range. rewrite length_seqZ, Nat.add_0_r. reflexivity.
    + destruct (Z.eqb_spec nsec 0); [lia|]. cbn [negb]. rewrite Hm.
      exists m. split; [reflexivity|]. rewrite Hperm. cbn.
      now rewrite app_nil_r.
Qed.

(** X13: the sector map is always built, and it holds every logical sector
    number from 0 to [secs - 1] exactly once, whatever the skews and the
    interleave are; for no sectors it is empty. *)
Theorem sector_map_permutation (config : Configuration) (cyl head : Z) :
  exists m, sector_map config cyl head = Some m
            /\ m ≡ₚ range (cfg_secs config).
Proof. apply sector_map_range. Qed.


Lemma coprime_slots_differ k n start i j :
  0 < n -> Z.gcd k n = 1 -> 0 <= j < n -> 0 <= i < n -> i <> j ->
  (start + i * k) `mod` n <> (start + j * k) `mod` n.
Proof.
  intros Hn Hg Hj Hi Hne Heq.
  assert (Hdiv : (n | (i - j) * k)).
  { apply Z.mod_divide; [lia|].
    replace ((i - j) * k) with ((start + i * k) - (start + j * k)) by lia.
    rewrite Zminus_mod, Heq, Z.sub_diag. apply Z.mod_0_l. lia. }
  rewrite Z.mul_comm in Hdiv. apply Z.gauss in Hdiv.
  2:{ now rewrite Z.gcd_comm. }
  destruct Hdiv as [q Hq].
  assert (q = 0) by nia. lia.
Qed.

Lemma sector_map_fold_coprime k n start (Hn : 0 < n) (Hg : Z.gcd k n = 1) :
  forall (c : nat) i sec_map,
  0 <= i -> i + Z.of_nat c <= n ->
  Z.of_nat (length sec_map) = n ->
  (forall j, 0 <= j < i ->
     sec_map !! Z.to_nat ((start + j * k) `mod` n) = Some j) ->
  (forall p, 0 <= p < n ->
     (forall j, 0 <= j < i -> (start + j * k) `mod` n <> p) ->
     sec_map !! Z.to_nat p = Some (-1)) ->
  exists m p',
    foldl (fun st i =>
             '(sec_map, pos) ← st;
             pos ← free_slot (S (length sec_map)) sec_map n pos;
             Some (<[Z.to_nat pos := i]> sec_map, Z.modulo (pos + k) n))
          (Some (sec_map, (start + i * k) `mod` n)) (seqZ i (Z.of_nat c))
    = Some (m, p')
    /\ Z.of_nat (length m) = n
    /\ forall j, 0 <= j < i + Z.of_nat c ->
         m !! Z.to_nat ((start + j * k) `mod` n) = Some j.
Proof.
  induction c as [|c IH]; intros i sec_map Hi Hic Hlen Hused Hfree.
  - exists sec_map, ((start + i * k) `mod` n). cbn.
    split; [reflexivity|]. split; [exact Hlen|].
    intros j Hj. apply Hused. lia.
  - rewrite Nat2Z.inj_succ, seqZ_cons by lia. cbn [foldl].
    set (pos := (start + i * k) `mod` n).
    assert (Hpos : 0 <= pos < n) by (apply Z.mod_pos_bound; lia).
    assert (Hslot : sec_map !! Z.to_nat pos = Some (-1)).
    { apply Hfree; [exact Hpos|]. intros j Hj.
      apply coprime_slots_differ; auto; lia. }
    assert (Hfs : free_slot (S (length sec_map)) sec_map n pos = Some pos).
    { cbn [free_slot]. unfold py_index.
      destruct (Z.leb_spec 0 pos); [|lia]. rewrite Hslot. reflexivity. }
    cbn [mbind option_bind]. rewrite Hfs. cbn [mbind option_bind].
    replace ((pos + k) `mod` n) with ((start + Z.succ i * k) `mod` n).
    2:{ unfold pos. rewrite Zplus_mod_idemp_l. f_equal. lia. }
    replace (Z.pred (Z.succ (Z.of_nat c))) with (Z.of_nat c) by lia.
    destruct (IH (Z.succ i) (<[Z.to_nat pos := i]> sec_map))
      as (m & p' & Hm & Hmlen & Hmall).
    + lia.
    + lia.
    + now rewrite length_insert.
    + intros j Hj. destruct (decide (j = i)) as [->|Hne].
      * apply list_lookup_insert_eq. fold pos. lia.
      * rewrite list_lookup_insert_ne.
        -- apply Hused. lia.
        -- intros Heq. apply Z2Nat.inj in Heq;
             [|lia | apply Z.mod_pos_bound; lia].
           unfold pos in Heq. revert Heq.
           apply coprime_slots_differ; auto; lia.
    + intros p Hp Hnot. rewrite list_lookup_insert_ne.
      * apply Hfree; [exact Hp|]. intros j Hj. apply Hnot. lia.
      * intros Heq. apply Z2Nat.inj in Heq; [|lia|lia].
        apply (Hnot i); [lia|]. exact Heq.
    + exists m, p'. split; [exact Hm|]. split; [exact Hmlen|].
      intros j Hj. apply Hmall. lia.
Qed.

(** X14: where the sectors go when the interleave and the number of sectors
    have no common factor (interleave 1 in particular).  No slot is ever
    found taken, so logical sector [i] lies [i] times the interleave after
    the slot that the skews choose, modulo the number of sectors. *)
Theorem sector_map_coprime_interleave (config : Configuration) (cyl head : Z)
    (Hsecs : 0 < cfg_secs config)
    (Hcoprime : Z.gcd (cfg_interleave config) (cfg_secs config) = 1) :
  exists m, sector_map config cyl head = Some m
    /\ Z.of_nat (length m) = cfg_secs config
    /\ forall i, 0 <= i < cfg_secs config ->
         m !! Z.to_nat ((cyl * cfg_cskew config + head * cfg_hskew config
                         + i * cfg_interleave config) `mod` cfg_secs config)
         = Some i.
Proof.
  unfold sector_map. set (n := cfg_secs config) in *.
  set (k := cfg_interleave config) in *.
  set (start := cyl * cfg_cskew config + head * cfg_hskew config).
  destruct (Z.eqb_spec n 0); [lia|]. cbn [negb].
  destruct (sector_map_fold_coprime k n start Hsecs Hcoprime (Z.to_nat n) 0
              (replicate (Z.to_nat n) (-1)))
    as (m & p' & Hm & Hmlen & Hmall).
  - lia.
  - lia.
  - rewrite length_replicate. lia.
  - intros j Hj. lia.
  - intros p Hp _. apply lookup_replicate_2. lia.
  - rewrite Z.mul_0_l, Z.add_0_r, Z2Nat.id in Hm by lia.
    unfold range. rewrite Hm. exists m. split; [reflexivity|].
    split; [exact Hmlen|]. intros i Hi. apply Hmall. lia.
Qed.

Lemma sector_map_coprime_interleave_witness :
  exists m, sector_map config_dd9 3 1 = Some m
    /\ Z.of_nat (length m) = cfg_secs config_dd9
    /\ forall i, 0 <= i < cfg_secs config_dd9 ->
         m !! Z.to_nat ((3 * cfg_cskew config_dd9 + 1 * cfg_hskew config_dd9
                         + i * cfg_interleave config_dd9) `mod` cfg_secs config_dd9)
         = Some i.
Proof.
  apply (sector_map_coprime_interleave config_dd9 3 1); reflexivity.
Defined.

(** ** Geometry synthesiser: the sectors placed *)

Lemma place_sector_None config cyl h gap_2 gap_3 sec_map todo :
  foldl (place_sector config cyl h gap_2 gap_3 sec_map) None todo = None.
Proof. induction todo as [|i todo IH]; [reflexivity|exact IH]. Qed.

Lemma length_bad_sector_fill k :
  length (mjoin (replicate k bad_sector_fill)) = (16 * k)%nat.
Proof.
  induction k as [|k IH]; [reflexivity|].
  change (mjoin (replicate (S k) bad_sector_fill))
    with (bad_sector_fill ++ mjoin (replicate k bad_sector_fill)).
  rewrite length_app, IH. cbn [bad_sector_fill length]. lia.
Qed.

Lemma shiftl_128_fill n :
  0 <= n -> Z.of_nat (16 * Z.to_nat (Z.shiftl 128 n / 16)) = Z.shiftl 128 n.
Proof.
  intros Hn. rewrite Z.shiftl_mul_pow2 by lia.
  replace (128 * 2 ^ n) with ((8 * 2 ^ n) * 16) by lia.
  rewrite Z.div_mul by lia.
  pose proof (Z.pow_pos_nonneg 2 n). lia.
Qed.

Lemma place_sector_Some config cyl h gap_2 gap_3 sec_map pos secs i st :
  place_sector config cyl h gap_2 gap_3 sec_map (Some (pos, secs)) i = Some st ->
  exists sec n,
    py_index sec_map i = Some sec /\ sec_n config sec = Some n /\ 0 <= n
    /\ st = (pos + gap_presync + (10 + gap_2 + gap_presync)
             + (4 + Z.shiftl 128 n + 2 + gap_3),
             secs ++ [new_Sector
                        (mkIDAM ((pos + gap_presync) * 16)
                                ((pos + gap_presync + 10) * 16) 0xffff
                                cyl h (cfg_id config + sec) n)
                        (mkDAM ((pos + gap_presync + (10 + gap_2 + gap_presync)) * 16)
                               ((pos + gap_presync + (10 + gap_2 + gap_presync)
                                 + 4 + Z.shiftl 128 n + 2) * 16)
                               0xffff MARK_DAM
                               (mjoin (replicate (Z.to_nat (Z.shiftl 128 n / 16))
                                                 bad_sector_fill)))]).
Proof.
  unfold place_sector. cbn [mbind option_bind].
  destruct (py_index sec_map i) as [sec|] eqn:Hsec; [|discriminate].
  cbn [mbind option_bind].
  destruct (sec_n config sec) as [n|] eqn:Hsn; [|discriminate].
  cbn [mbind option_bind idam_n].
  unfold py_shl. destruct (Z.leb_spec 0 n) as [Hn|Hn]; [|discriminate].
  cbn [mbind option_bind]. intros H. injection H as <-.
  exists sec, n. split; [reflexivity|]. split; [exact Hsn|]. split; [exact Hn|].
  f_equal; lia.
Qed.

Lemma from_config_inv config cyl head t :
  from_config config cyl head = Some t ->
  exists tl0 gap_2 gap_3 tracklen_bc sec_map posN,
    config_tracklen config = Some tl0
    /\ (gap_2 = 41 /\ cfg_gap2 config = None
        \/ gap_2 = default GAP_2 (cfg_gap2 config))
    /\ (gap_3 = default 0 (cfg_gap3 config)
        \/ cfg_gap3 config = None
           /\ (0 < cfg_secs config -> 0 <= gap_3))
    /\ tl0 + 16 * cfg_secs config * (gap_2 - default GAP_2 (cfg_gap2 config))
           + 16 * cfg_secs config * (gap_3 - default 0 (cfg_gap3 config))
       <= tracklen_bc
    /\ tracklen_bc <> 0 /\ cfg_rpm config <> 0
    /\ time_per_rev t = (inject_Z 60 / inject_Z (cfg_rpm config))%Q
    /\ clock t = (time_per_rev t / inject_Z tracklen_bc)%Q
    /\ sector_map config cyl head = Some sec_map
    /\ iams t = match config_gap_1 config with
                | Some _ =>
                    [mkIAM ((default GAP_4A (cfg_gap4a config) + gap_presync) * 16)
                           ((default GAP_4A (cfg_gap4a config) + gap_presync + 4) * 16)]
                | None => []
                end
    /\ foldl (place_sector config cyl (default head (cfg_h config))
                           gap_2 gap_3 sec_map)
             (Some (config_idx_sz config, [])) (range (cfg_secs config))
       = Some (posN, sectors t)
    /\ trk_cyl t = cyl /\ trk_head t = head /\ has_iam t = false
    /\ raw_iams t = [] /\ raw_sectors t = []
    /\ img_bps t = cfg_img_bps config /\ nsec t = cfg_secs config.
Proof.
  unfold from_config. intros H.
  destruct (config_tracklen config) as [tl0|] eqn:Htl; [|discriminate].
  cbn [mbind option_bind] in H.
  destruct (config_rate config tl0) as [rate|] eqn:Hrate; [|discriminate].
  cbn [mbind option_bind] in H.
  destruct (if bool_decide (cfg_gap2 config = None) && (1000 <=? rate)
            then (41, tl0 + 16 * cfg_secs config
                            * (41 - default GAP_2 (cfg_gap2 config)))
            else (default GAP_2 (cfg_gap2 config), tl0))
    as [gap_2 tl1] eqn:Hg2.
  assert (Hgap2 : (gap_2 = 41 /\ cfg_gap2 config = None
                   \/ gap_2 = default GAP_2 (cfg_gap2 config))
                  /\ tl1 = tl0 + 16 * cfg_secs config
                                 * (gap_2 - default GAP_2 (cfg_gap2 config))).
  { destruct (bool_decide (cfg_gap2 config = None)) eqn:Hd;
      [apply bool_decide_eq_true in Hd|]; cbn [andb] in Hg2.
    - destruct (1000 <=? rate); injection Hg2 as <- <-; split; auto; lia.
    - injection Hg2 as <- <-. split; auto. lia. }
  destruct Hgap2 as [Hgap2 Htl1].
  destruct (py_div (rate * 400 * 300) (cfg_rpm config)) as [bc0|] eqn:Hbc0;
    [|discriminate].
  assert (Hrpm : cfg_rpm config <> 0).
  { unfold py_div in Hbc0. destruct (Z.eqb_spec (cfg_rpm config) 0);
      [discriminate|assumption]. }
  cbn [mbind option_bind] in H.
  destruct (if negb (cfg_secs config =? 0) && bool_decide (cfg_gap3 config = None)
            then _ else _) as [[gap_3 tl2]|] eqn:Hg3; [|discriminate].
  cbn [mbind option_bind] in H.
  assert (Hgap3 : (gap_3 = default 0 (cfg_gap3 config)
                   \/ cfg_gap3 config = None
                      /\ (0 < cfg_secs config -> 0 <= gap_3))
                  /\ tl2 = tl1 + 16 * cfg_secs config
                                 * (gap_3 - default 0 (cfg_gap3 config))).
  { destruct (Z.eqb_spec (cfg_secs config) 0) as [Hn|Hn]; cbn [negb andb] in Hg3.
    { injection Hg3 as <- <-. split; auto. lia. }
    destruct (bool_decide (cfg_gap3 config = None)) eqn:Hd;
      [apply bool_decide_eq_true in Hd|].
    2:{ injection Hg3 as <- <-. split; auto. lia. }
    destruct (sec_n config 0) as [no|]; [|discriminate].
    cbn [mbind option_bind] in Hg3. unfold py_div in Hg3.
    destruct (16 * cfg_secs config =? 0); [discriminate|].
    cbn [mbind option_bind] in Hg3.
    destruct (py_index GAP_3 no) as [max_gap|] eqn:Hmax; [|discriminate].
    cbn [mbind option_bind] in Hg3. injection Hg3 as <- <-.
    rewrite Hd. cbn [default]. split; [|lia]. right. split; [reflexivity|].
    intros Hpos.
    assert (0 <= max_gap).
    { unfold py_index in Hmax.
      assert (Hall : Forall (fun g => 0 <= g) GAP_3)
        by (unfold GAP_3; repeat constructor; lia).
      rewrite Forall_lookup in Hall.
      destruct (0 <=? no); [eapply Hall; exact Hmax|].
      destruct (_ <=? no); [eapply Hall; exact Hmax|discriminate]. }
    assert (0 <= 0 `max` (bc0 - tl1) / (16 * cfg_secs config))
      by (apply Z.div_pos; lia).
    lia. }
  destruct Hgap3 as [Hgap3 Htl2].
  destruct (Z.eqb_spec (bc0 `max` tl2) 0) as [Hbc|Hbc];
    [cbn [mbind option_bind] in H; discriminate|].
  cbn [mbind option_bind] in H.
  destruct (sector_map config cyl head) as [sec_map|] eqn:Hmap; [|discriminate].
  cbn [mbind option_bind] in H.
  assert (Hpos0 : (match config_gap_1 config with
                   | Some g =>
                       ([mkIAM ((default GAP_4A (cfg_gap4a config) + gap_presync) * 16)
                               ((default GAP_4A (cfg_gap4a config) + gap_presync + 4) * 16)],
                        default GAP_4A (cfg_gap4a config) + gap_presync + (4 + g))
                   | None => ([], default GAP_4A (cfg_gap4a config))
                   end)
                  = (match config_gap_1 config with
                     | Some _ =>
                         [mkIAM ((default GAP_4A (cfg_gap4a config) + gap_presync) * 16)
                                ((default GAP_4A (cfg_gap4a config) + gap_presync + 4) * 16)]
                     | None => []
                     end, config_idx_sz config)).
  { unfold config_idx_sz. destruct (config_gap_1 config); f_equal; lia. }
  rewrite Hpos0 in H.
  destruct (foldl _ _ (range (cfg_secs config))) as [[posN secs]|] eqn:Hfold;
    [|discriminate].
  cbn [mbind option_bind] in H. injection H as <-. cbn.
  exists tl0, gap_2, gap_3, (bc0 `max` tl2), sec_map, posN.
  repeat (split; [first [reflexivity | assumption | lia]|]).
  reflexivity.
Qed.

Lemma place_fold_shape config cyl head gap_2 gap_3 sec_map todo :
  forall pos secs pos' secs',
  foldl (place_sector config cyl (default head (cfg_h config)) gap_2 gap_3 sec_map)
        (Some (pos, secs)) todo = Some (pos', secs') ->
  exists new, secs' = secs ++ new
    /\ Forall2 (fun i s => exists sec, py_index sec_map i = Some sec
                                       /\ placed_as config cyl head sec s)
               todo new.
Proof.
  induction todo as [|i todo IH]; intros pos secs pos' secs' H.
  - cbn in H. injection H as <- <-. exists []. rewrite app_nil_r. auto.
  - cbn [foldl] in H.
    destruct (place_sector _ _ _ _ _ _ (Some (pos, secs)) i) as [[p1 s1]|] eqn:Hstep.
    2:{ rewrite place_sector_None in H. discriminate. }
    apply place_sector_Some in Hstep as (sec & n & Hsec & Hn & Hn0 & Hst).
    injection Hst as -> ->.
    apply IH in H as (new & -> & Hnew).
    eexists (_ :: new). split; [now rewrite <- app_assoc|].
    constructor; [|exact Hnew]. exists sec. split; [exact Hsec|].
    unfold placed_as, new_Sector. cbn.
    repeat (split; [first [reflexivity | assumption | lia]|]).
    split; [|split; [reflexivity|split; [reflexivity|split; lia]]].
    rewrite length_bad_sector_fill. now apply shiftl_128_fill.
Qed.

Lemma sector_map_lookups (m : list Z) n (secs : list Z) :
  length m = Z.to_nat n ->
  Forall2 (fun i sec => py_index m i = Some sec) (range n) secs -> secs = m.
Proof.
  intros Hlen H. symmetry. apply list_eq_same_length with (Z.to_nat n);
    [|exact Hlen|].
  { apply Forall2_length in H. unfold range in H. rewrite length_seqZ in H. lia. }
  intros j x y Hj Hx Hy.
  assert (Hi : range n !! j = Some (Z.of_nat j)).
  { unfold range. rewrite lookup_seqZ. split; lia. }
  destruct (Forall2_lookup_l _ _ _ _ _ H Hi) as (y' & Hy' & Hidx).
  rewrite Hy in Hy'. injection Hy' as <-.
  rewrite (py_index_in_range _ _ _ Hx) in Hidx. congruence.
Qed.

Lemma placed_by_fold config cyl head gap_2 gap_3 m pos0 posN secs :
  sector_map config cyl head = Some m ->
  foldl (place_sector config cyl (default head (cfg_h config)) gap_2 gap_3 m)
        (Some (pos0, [])) (range (cfg_secs config)) = Some (posN, secs) ->
  m ≡ₚ range (cfg_secs config) /\ Forall2 (placed_as config cyl head) m secs.
Proof.
  intros Hmap Hfold.
  destruct (sector_map_range config cyl head) as (m' & Hm' & Hperm).
  rewrite Hmap in Hm'. injection Hm' as <-. split; [exact Hperm|].
  apply place_fold_shape in Hfold as (new & Hnew & Hshape).
  cbn [app] in Hnew. subst new.
  assert (Hlen : length m = Z.to_nat (cfg_secs config)).
  { rewrite Hperm. unfold range. apply length_seqZ. }
  assert (Hsecs : exists l,
             Forall2 (fun i sec => py_index m i = Some sec)
                     (range (cfg_secs config)) l
             /\ Forall2 (placed_as config cyl head) l secs).
  { clear -Hshape. induction Hshape as [|i s todo new (sec & Hsec & Hp) _ IH].
    - exists []. split; constructor.
    - destruct IH as (l & H1 & H2). exists (sec :: l).
      split; constructor; assumption. }
  destruct Hsecs as (l & H1 & H2).
  apply sector_map_lookups in H1; [|exact Hlen]. now subst l.
Qed.

(** X15: what [from_config] returns, when it returns a track.  The sectors
    follow the sector map entry by entry: the sector in slot [i] has the ID
    [config.id + sec_map[i]] and the size code of that logical sector, the
    cylinder and head of its ID field are [cyl] and [config.h] (or [head]),
    its three CRCs are 0xffff, so every sector counts as missing, and its
    data are [128 << n] bytes of filler.  The IDs are [config.id] to
    [config.id + secs - 1], each once. *)
Theorem from_config_sectors (config : Configuration) (cyl head : Z) (t : track)
    (Hret : from_config config cyl head = Some t) :
  exists m,
    sector_map config cyl head = Some m
    /\ Forall2 (placed_as config cyl head) m (sectors t)
    /\ map (fun s => idam_r (idam s)) (sectors t)
       ≡ₚ seqZ (cfg_id config) (cfg_secs config)
    /\ nr_missing t = Z.of_nat (length (sectors t))
    /\ Z.of_nat (length (sectors t)) = Z.max 0 (cfg_secs config)
    /\ nsec t = cfg_secs config /\ img_bps t = cfg_img_bps config
    /\ raw_sectors t = [] /\ raw_iams t = [].
Proof.
  apply from_config_inv in Hret
    as (tl0 & gap_2 & gap_3 & bc & m & posN & _ & _ & _ & _ & _ & _ & _ & _
        & Hmap & _ & Hfold & _ & _ & _ & Hri & Hrs & Hbps & Hnsec).
  destruct (placed_by_fold _ _ _ _ _ _ _ _ _ Hmap Hfold) as [Hperm Hplaced].
  assert (Hlen : length m = Z.to_nat (cfg_secs config)).
  { rewrite Hperm. unfold range. apply length_seqZ. }
  exists m. split; [exact Hmap|]. split; [exact Hplaced|].
  assert (Hlen2 : length (sectors t) = length m)
    by (symmetry; eapply Forall2_length; exact Hplaced).
  split; [|split; [|split; [lia|auto]]].
  - replace (map (fun s => idam_r (idam s)) (sectors t))
      with (map (Z.add (cfg_id config)) m).
    + rewrite Hperm. unfold range.
      change (map (Z.add (cfg_id config)) (seqZ 0 (cfg_secs config)))
        with (Z.add (cfg_id config) <$> seqZ 0 (cfg_secs config)).
      rewrite fmap_add_seqZ, Z.add_0_r. reflexivity.
    + clear -Hplaced. induction Hplaced as [|sec s m l Hp _ IH]; [reflexivity|].
      cbn [map]. rewrite IH. f_equal. symmetry. apply Hp.
  - unfold nr_missing. f_equal. f_equal.
    clear -Hplaced. induction Hplaced as [|sec s m l Hp _ IH]; [reflexivity|].
    rewrite filter_cons_True.
    + cbn [length]. now rewrite IH.
    + destruct Hp as (_ & _ & _ & _ & _ & Hcrc & _). rewrite Hcrc. lia.
Qed.

Lemma from_config_sectors_witness :
  exists m,
    sector_map config_dd9 0 0 = Some m
    /\ Forall2 (placed_as config_dd9 0 0) m (sectors dd9_track)
    /\ map (fun s => idam_r (idam s)) (sectors dd9_track)
       ≡ₚ seqZ (cfg_id config_dd9) (cfg_secs config_dd9)
    /\ nr_missing dd9_track = Z.of_nat (length (sectors dd9_track))
    /\ Z.of_nat (length (sectors dd9_track)) = Z.max 0 (cfg_secs config_dd9)
    /\ nsec dd9_track = cfg_secs config_dd9
    /\ img_bps dd9_track = cfg_img_bps config_dd9
    /\ raw_sectors dd9_track = [] /\ raw_iams dd9_track = [].
Proof.
  apply (from_config_sectors config_dd9 0 0). vm_compute. reflexivity.
Defined.

(** ** Geometry synthesiser: the layout *)

Lemma sector_size_pos s : 0 <= idam_n (idam s) -> 0 < sector_size s.
Proof.
  intros Hn. unfold sector_size. rewrite Z.shiftl_mul_pow2 by lia.
  pose proof (Z.pow_pos_nonneg 2 (idam_n (idam s))). lia.
Qed.

Lemma place_fold_layout config cyl h gap_2 gap_3 sec_map
    (Hg2 : 0 <= gap_2) (Hg3 : 0 <= gap_3) todo :
  forall pos secs pos' secs',
  foldl (place_sector config cyl h gap_2 gap_3 sec_map)
        (Some (pos, secs)) todo = Some (pos', secs') ->
  exists new, secs' = secs ++ new
    /\ Forall (fun s => (pos + gap_presync) * 16 <= sec_start s
                        /\ sec_end s + gap_3 * 16 <= pos' * 16
                        /\ idam_end (idam s) + gap_presync * 16 <= dam_start (dam s)
                        /\ (16 | sec_start s) /\ (16 | dam_start (dam s))) new
    /\ StronglySorted (fun a b => sec_end a + gap_presync * 16 <= sec_start b) new
    /\ pos' = pos + sum_Z (map (fun s => 40 + gap_2 + gap_3 + sector_size s) new)
    /\ pos <= pos'.
Proof.
  induction todo as [|i todo IH]; intros pos secs pos' secs' H.
  - cbn in H. injection H as <- <-. exists []. rewrite app_nil_r.
    split; [reflexivity|]. split; [constructor|]. split; [constructor|].
    cbn. lia.
  - cbn [foldl] in H.
    destruct (place_sector _ _ _ _ _ _ (Some (pos, secs)) i) as [[p1 s1]|] eqn:Hstep.
    2:{ rewrite place_sector_None in H. discriminate. }
    apply place_sector_Some in Hstep as (sec & n & Hsec & Hn & Hn0 & Hst).
    injection Hst as -> ->.
    apply IH in H as (new & -> & Hall & Hsorted & Hpos' & Hle).
    set (s1 := new_Sector _ _) in *.
    assert (Hsize : 0 < sector_size s1).
    { apply (sector_size_pos s1). exact Hn0. }
    assert (Hs1 : sector_size s1 = Z.shiftl 128 n) by reflexivity.
    unfold gap_presync in *.
    exists (s1 :: new). split; [now rewrite <- app_assoc|].
    split; [|split; [|split]].
    + constructor.
      * unfold s1 at 1 2 3 4 5 6, new_Sector.
        cbn [sec_start sec_end idam dam idam_end idam_start dam_start dam_end].
        split; [lia|]. split; [lia|]. split; [lia|].
        split; apply Z.divide_factor_r.
      * eapply Forall_impl; [exact Hall|]. cbv beta.
        intros s (H1 & H2 & H3 & H4 & H5).
        split; [lia|]. auto.
    + constructor; [exact Hsorted|].
      eapply Forall_impl; [exact Hall|]. cbv beta. intros s (H1 & _).
      unfold s1 at 1, new_Sector. cbn [sec_end dam dam_end]. lia.
    + unfold sum_Z in *. cbn [map foldr]. lia.
    + lia.
Qed.

(** X16: the layout that [from_config] computes when no configured gap is
    negative.  The index mark, if any, and every sector start on a whole
    encoded byte, at least the presync run after the start of the track;
    the index mark ends at least the presync run before every sector, each
    sector ends at least the presync run before the next one starts, and
    within a sector the ID field ends at least the presync run before the
    data field. *)
Theorem from_config_layout (config : Configuration) (cyl head : Z) (t : track)
    (Hret : from_config config cyl head = Some t)
    (Hgap1 : forall g, cfg_gap1 config = Some g -> 0 <= g)
    (Hgap2 : forall g, cfg_gap2 config = Some g -> 0 <= g)
    (Hgap3 : forall g, cfg_gap3 config = Some g -> 0 <= g)
    (Hgap4a : forall g, cfg_gap4a config = Some g -> 0 <= g) :
  Forall (fun m => gap_presync * 16 <= iam_start m
                   /\ (16 | iam_start m)
                   /\ iam_end m = iam_start m + 4 * 16
                   /\ Forall (fun s => iam_end m + gap_presync * 16 <= sec_start s)
                             (sectors t))
         (iams t)
  /\ Forall (fun s => gap_presync * 16 <= sec_start s
                      /\ (16 | sec_start s) /\ (16 | dam_start (dam s))
                      /\ idam_end (idam s) + gap_presync * 16 <= dam_start (dam s))
            (sectors t)
  /\ StronglySorted (fun a b => sec_end a + gap_presync * 16 <= sec_start b)
                    (sectors t).
Proof.
  apply from_config_inv in Hret
    as (tl0 & gap_2 & gap_3 & bc & m & posN & _ & Hg2 & Hg3 & _ & _ & _
        & _ & _ & Hmap & Hiams & Hfold & _).
  assert (H4 : 0 <= default GAP_4A (cfg_gap4a config)).
  { destruct (cfg_gap4a config) as [g|] eqn:Hg; cbn; [auto|unfold GAP_4A; lia]. }
  assert (Hidx : default GAP_4A (cfg_gap4a config) <= config_idx_sz config
                 /\ (cfg_iam config = true ->
                     default GAP_4A (cfg_gap4a config) + gap_presync + 4
                     <= config_idx_sz config)).
  { unfold config_idx_sz, config_gap_1.
    destruct (cfg_iam config); [|split; [lia|discriminate]].
    assert (0 <= default GAP_1 (cfg_gap1 config)).
    { destruct (cfg_gap1 config) as [g|] eqn:Hg; cbn; [auto|unfold GAP_1; lia]. }
    unfold gap_presync. split; [lia|]. intros _. lia. }
  destruct (Z.leb_spec (cfg_secs config) 0) as [Hn|Hn].
  { (* no sector *)
    unfold range in Hfold. rewrite seqZ_nil in Hfold by lia. cbn in Hfold.
    injection Hfold as _ <-.
    split; [|split; constructor].
    rewrite Hiams. destruct (config_gap_1 config); constructor; [|constructor].
    cbn [iam_start iam_end]. unfold gap_presync.
    split; [lia|]. split; [apply Z.divide_factor_r|]. split; [lia|constructor]. }
  assert (Hgap2' : 0 <= gap_2).
  { destruct Hg2 as [[-> _]| ->]; [lia|].
    destruct (cfg_gap2 config) as [g|] eqn:Hg; cbn; [auto|unfold GAP_2; lia]. }
  assert (Hgap3' : 0 <= gap_3).
  { destruct Hg3 as [->|[_ H]]; [|auto].
    destruct (cfg_gap3 config) as [g|] eqn:Hg; cbn; [auto|lia]. }
  apply (place_fold_layout _ _ _ _ _ _ Hgap2' Hgap3') in Hfold
    as (new & Hnew & Hall & Hsorted & _ & _).
  cbn [app] in Hnew. subst new.
  split; [|split; [|exact Hsorted]].
  - rewrite Hiams. unfold config_gap_1 in *.
    destruct (cfg_iam config); constructor; [|constructor].
    cbn [iam_start iam_end]. destruct Hidx as [_ Hidx]. specialize (Hidx eq_refl).
    unfold gap_presync in *.
    split; [lia|]. split; [apply Z.divide_factor_r|]. split; [lia|].
    eapply Forall_impl; [exact Hall|]. cbv beta. intros s (H1 & _). lia.
  - eapply Forall_impl; [exact Hall|]. cbv beta. intros s (H1 & _ & H3 & H5 & H6).
    unfold gap_presync in *. destruct Hidx as [Hidx _].
    split; [lia|]. auto.
Qed.

Lemma from_config_layout_witness :
  Forall (fun m => gap_presync * 16 <= iam_start m
                   /\ (16 | iam_start m)
                   /\ iam_end m = iam_start m + 4 * 16
                   /\ Forall (fun s => iam_end m + gap_presync * 16 <= sec_start s)
                             (sectors gaps_track))
         (iams gaps_track)
  /\ Forall (fun s => gap_presync * 16 <= sec_start s
                      /\ (16 | sec_start s) /\ (16 | dam_start (dam s))
                      /\ idam_end (idam s) + gap_presync * 16 <= dam_start (dam s))
            (sectors gaps_track)
  /\ StronglySorted (fun a b => sec_end a + gap_presync * 16 <= sec_start b)
                    (sectors gaps_track).
Proof.
  apply (from_config_layout config_gaps 2 1);
    [vm_compute; reflexivity | ..];
    intros g Hg; injection Hg as <-; lia.
Defined.

(** ** Image marshalling *)

Lemma gather_None bps l : foldl (gather_sector bps) None l = None.
Proof. induction l as [|s l IH]; [reflexivity|exact IH]. Qed.

Lemma image_slots_cons bps s l acc :
  acc ++ mjoin (map (image_slot bps) (s :: l))
  = (acc ++ image_slot bps s) ++ mjoin (map (image_slot bps) l).
Proof.
  cbn [map]. change (mjoin (?x :: ?r)) with (x ++ mjoin r).
  now rewrite <- app_assoc.
Qed.

Lemma gather_fold bps l : forall acc,
  foldl (gather_sector bps) (Some acc) l
  = if stride_holds bps l then Some (acc ++ mjoin (map (image_slot bps) l))
    else None.
Proof.
  induction l as [|s l IH]; intros acc.
  - cbn. destruct bps; cbn; now rewrite app_nil_r.
  - cbn [foldl]. unfold gather_sector at 2. cbn [mbind option_bind].
    destruct bps as [b|].
    + cbn [stride_holds forallb].
      destruct (Z.ltb_spec (b - Z.of_nat (length (dam_data (dam s)))) 0) as [Hlt|Hge].
      * rewrite gather_None.
        destruct (Z.leb_spec (Z.of_nat (length (dam_data (dam s)))) b); [lia|].
        reflexivity.
      * destruct (Z.leb_spec (Z.of_nat (length (dam_data (dam s)))) b); [|lia].
        rewrite IH. cbn [andb stride_holds].
        destruct (forallb _ l); [|reflexivity].
        rewrite image_slots_cons. unfold image_slot at 2.
        now rewrite <- !app_assoc.
    + rewrite IH. cbn [stride_holds]. rewrite image_slots_cons.
      unfold image_slot at 2. now rewrite app_nil_r.
Qed.

Lemma stride_holds_perm bps l l' :
  l ≡ₚ l' -> stride_holds bps l = stride_holds bps l'.
Proof.
  intros Hp. destruct bps as [b|]; [|reflexivity]. cbn.
  apply eq_true_iff_eq. rewrite !forallb_forall.
  split; intros H x Hx; apply H.
  - eapply Permutation_in; [symmetry; exact Hp | exact Hx].
  - eapply Permutation_in; [exact Hp | exact Hx].
Qed.

Lemma length_image_slots b l :
  forallb (fun s => Z.of_nat (length (dam_data (dam s))) <=? b) l = true ->
  Z.of_nat (length (mjoin (map (image_slot (Some b)) l)))
  = Z.of_nat (length l) * b.
Proof.
  induction l as [|s l IH]; [reflexivity|]. cbn [forallb map].
  intros H. apply andb_true_iff in H as [Hs Hl]. apply Z.leb_le in Hs.
  change (mjoin (?x :: ?r)) with (x ++ mjoin r).
  rewrite length_app, Nat2Z.inj_add, (IH Hl). unfold image_slot.
  rewrite length_app, length_replicate, length_cons. lia.
Qed.

(** X17: [get_img_track] without its loop.  With no image stride the image
    is the data of the sectors in ascending sector-ID order, end to end.
    With a stride, the call raises as soon as one sector holds more bytes
    than the stride; otherwise every sector fills a slot of exactly the
    stride, its data followed by zero bytes, so the image is the number of
    sectors times the stride long. *)
Theorem get_img_track_slots (self : track) :
  get_img_track self
  = (if stride_holds (img_bps self) (sectors self)
     then Some (mjoin (map (image_slot (img_bps self))
                           (sort_by (fun x => idam_r (idam x)) (sectors self))))
     else None)
  /\ forall b out, img_bps self = Some b -> get_img_track self = Some out ->
       Z.of_nat (length out) = Z.of_nat (length (sectors self)) * b.
Proof.
  assert (Heq : get_img_track self
                = if stride_holds (img_bps self) (sectors self)
                  then Some (mjoin (map (image_slot (img_bps self))
                                        (sort_by (fun x => idam_r (idam x))
                                                 (sectors self))))
                  else None).
  { unfold get_img_track. rewrite gather_fold.
    rewrite (stride_holds_perm _ _ (sectors self)) by apply sort_by_perm.
    reflexivity. }
  split; [exact Heq|]. intros b out Hb Hout. rewrite Heq, Hb in Hout.
  destruct (stride_holds (Some b) (sectors self)) eqn:Hfit; [|discriminate].
  injection Hout as <-. rewrite length_image_slots.
  - now rewrite sort_by_perm.
  - rewrite <- Hfit. apply (stride_holds_perm (Some b)). apply sort_by_perm.
Qed.

Lemma length_slice_le {A} (l : list A) pos size :
  0 <= size -> Z.of_nat (length (slice l pos (pos + size))) <= size.
Proof.
  intros Hsize. unfold slice, clamp_index. rewrite length_take.
  destruct (Z.ltb_spec pos 0); destruct (Z.ltb_spec (pos + size) 0); lia.
Qed.

Lemma assign_slices_total bps tdat l :
  Forall (fun s => 0 <= idam_n (idam s)) l -> forall pos,
  exists out, assign_slices bps tdat pos l = Some out
    /\ Forall2 (fun s s' => exists data,
                  s' = store_slice s data
                  /\ Z.of_nat (length data) <= sector_size s) l out.
Proof.
  induction 1 as [|s l Hs _ IH]; intros pos.
  - exists []. split; [reflexivity|constructor].
  - cbn [assign_slices]. unfold py_shl.
    destruct (Z.leb_spec 0 (idam_n (idam s))); [|lia]. cbn [mbind option_bind].
    destruct (IH (match bps with
                  | Some b => pos + b
                  | None => pos + Z.shiftl 128 (idam_n (idam s))
                  end)) as (out & Hout & Hall).
    rewrite Hout. cbn [mbind option_bind]. eexists. split; [reflexivity|].
    constructor; [|exact Hall]. eexists. split; [reflexivity|].
    apply length_slice_le. apply sector_size_nonneg.
Qed.

Lemma assign_slices_negative bps tdat l :
  Exists (fun s => idam_n (idam s) < 0) l -> forall pos,
  assign_slices bps tdat pos l = None.
Proof.
  induction 1 as [s l Hs|s l _ IH]; intros pos; cbn [assign_slices]; unfold py_shl.
  - destruct (Z.leb_spec 0 (idam_n (idam s))); [lia|reflexivity].
  - destruct (0 <=? idam_n (idam s)); [|reflexivity]. cbn [mbind option_bind].
    now rewrite IH.
Qed.

Lemma total_size_negative l :
  Exists (fun s => idam_n (idam s) < 0) l -> total_size l = None.
Proof.
  unfold total_size. intros H. generalize (Some 0).
  induction H as [s l Hs|s l _ IH]; intros a; cbn [foldl].
  - assert (Hnone : (x ← a; size ← py_shl 128 (idam_n (idam s)); Some (x + size))
                    = None).
    { destruct a; [|reflexivity]. cbn. unfold py_shl.
      destruct (Z.leb_spec 0 (idam_n (idam s))); [lia|reflexivity]. }
    rewrite Hnone. clear. induction l as [|s' l IH]; [reflexivity|exact IH].
  - apply IH.
Qed.

(** X18: [set_img_track] in general, whatever the sector IDs and the image
    stride are.  It raises exactly when some sector has a negative size
    code.  Otherwise it returns the stride times the number of sectors, or
    without a stride the sum of the sector sizes; it leaves the sectors
    sorted by start offset, each with its three CRCs zero and with no more
    data than its size code allows; and it changes nothing else: offsets,
    IDs and marks of the sectors and the other attributes of the track are
    as before. *)
Theorem set_img_track_result (self : track) (tdat : list Z) :
  (Forall (fun s => 0 <= idam_n (idam s)) (sectors self) ->
   exists t',
     set_img_track self tdat
     = Some (t', match img_bps self with
                 | Some b => Z.of_nat (length (sectors self)) * b
                 | None => capacity (sectors self)
                 end)
     /\ StronglySorted (key_le sec_start) (sectors t')
     /\ Forall crc_clear (sectors t')
     /\ Forall (fun s => Z.of_nat (length (dam_data (dam s))) <= sector_size s)
               (sectors t')
     /\ map geometry_of (sectors t') ≡ₚ map geometry_of (sectors self)
     /\ set_sectors t' (sectors self) = self)
  /\ (Exists (fun s => idam_n (idam s) < 0) (sectors self) ->
      set_img_track self tdat = None).
Proof.
  set (by_id := sort_by (fun x => idam_r (idam x)) (sectors self)).
  assert (Hperm : by_id ≡ₚ sectors self) by apply sort_by_perm.
  split.
  - intros Hn.
    assert (Hn' : Forall (fun s => 0 <= idam_n (idam s)) by_id)
      by (now rewrite Hperm).
    unfold set_img_track. fold by_id.
    assert (Htot : match img_bps self with
                   | Some b => Some (Z.of_nat (length by_id) * b)
                   | None => total_size by_id
                   end
                   = Some (match img_bps self with
                           | Some b => Z.of_nat (length (sectors self)) * b
                           | None => capacity (sectors self)
                           end)).
    { destruct (img_bps self); [now rewrite Hperm|].
      rewrite total_size_capacity by exact Hn'. f_equal. now apply capacity_perm. }
    rewrite Htot. cbn [mbind option_bind].
    match goal with
    | |- context [assign_slices ?bps ?buf 0 by_id] =>
        destruct (assign_slices_total bps buf by_id Hn' 0) as (out & Hout & Hall);
        rewrite Hout
    end.
    cbn [mbind option_bind]. eexists. split; [reflexivity|].
    cbn [sectors set_sectors].
    assert (Hsorted : sort_by sec_start out ≡ₚ out) by apply sort_by_perm.
    split; [apply sort_by_sorted|]. split; [|split; [|split]].
    + rewrite Hsorted. clear -Hall.
      induction Hall as [|s s' l l' (data & -> & _) _ IH]; constructor;
        [repeat split | exact IH].
    + rewrite Hsorted. clear -Hall.
      induction Hall as [|s s' l l' (data & -> & Hlen) _ IH]; constructor;
        [exact Hlen | exact IH].
    + rewrite Hsorted, <- Hperm. clear -Hall.
      induction Hall as [|s s' l l' (data & -> & _) _ IH]; [reflexivity|].
      cbn [map]. now rewrite IH.
    + destruct self. reflexivity.
  - intros Hneg.
    assert (Hneg' : Exists (fun s => idam_n (idam s) < 0) by_id)
      by (now rewrite Hperm).
    unfold set_img_track. fold by_id.
    destruct (img_bps self) as [b|].
    + cbn [mbind option_bind]. now rewrite assign_slices_negative.
    + now rewrite total_size_negative.
Qed.

(** ** Track encoder: where the sync patterns are found *)












(** ** Track encoder: the image as a list of fields *)

Lemma encode_app a b : encode (a ++ b) = encode a ++ encode b.
Proof. unfold encode. apply flat_map_app. Qed.








Lemma encode_zero_pair : encode [0; 0] = [0; 0; 0; 0].
Proof. reflexivity. Qed.












(** ** Track encoder: reading a located field *)









(** ** Track encoder and flux decoder: scanning a track image *)






















(** ** Flux decoder: areas already in order *)

Lemma StronglySorted_weaken {A} (R1 R2 : A -> A -> Prop) (l : list A) :
  (forall x y, R1 x y -> R2 x y) -> StronglySorted R1 l -> StronglySorted R2 l.
Proof.
  intros HR. induction 1 as [|a l _ IH Ha]; constructor; [exact IH|].
  eapply Forall_impl; [exact Ha|]. auto.
Qed.



(** ** Flux decoder: merging areas that are far apart *)



(** ** Track encoder and flux decoder: a written image read back *)


Lemma read_back_start x : sec_start (read_back x) = sec_start x.
Proof. reflexivity. Qed.


(** ** Track encoder: the image of a laid-out track *)








(** ** Geometry synthesiser: the track is laid out *)

Lemma bad_sector_fill_bytes k :
  Forall is_byte (mjoin (replicate k bad_sector_fill)).
Proof.
  induction k as [|k IH]; [constructor|].
  change (mjoin (replicate (S k) bad_sector_fill))
    with (bad_sector_fill ++ mjoin (replicate k bad_sector_fill)).
  apply Forall_app. split; [|exact IH].
  unfold bad_sector_fill. repeat constructor; unfold is_byte; lia.
Qed.

Lemma py_index_elem {A} (l : list A) i x : py_index l i = Some x -> x ∈ l.
Proof.
  unfold py_index. destruct (0 <=? i).
  - apply list_elem_of_lookup_2.
  - destruct (_ <=? i); [apply list_elem_of_lookup_2|discriminate].
Qed.

Lemma sec_n_elem config i n : sec_n config i = Some n -> n ∈ cfg_sz config.
Proof. unfold sec_n. destruct (_ <? _); apply py_index_elem. Qed.

Lemma placed_as_ready config cyl head sec s :
  placed_as config cyl head sec s ->
  is_byte cyl -> is_byte (default head (cfg_h config)) ->
  is_byte (cfg_id config + sec) -> Forall is_byte (cfg_sz config) ->
  idam_end (idam s) + gap_presync * 16 <= dam_start (dam s) ->
  sector_shape s /\ writable s.
Proof.
  intros (Hr & Hn & Hn0 & Hc & Hh & Hcrc & Hicrc & Hdcrc & Hmark & Hdata & Hlen
          & Hst & Hen & Hie & Hde) Hcyl Hhead Hid Hsz Hgap.
  split.
  - unfold sector_shape, gap_presync in *.
    repeat (split; [first [assumption | lia | (left; assumption)]|]).
    rewrite Hcrc, Hicrc, Hdcrc. reflexivity.
  - unfold writable. rewrite Hc, Hh, Hr, Hmark, Hdata.
    repeat (split; [first [assumption | unfold is_byte, MARK_DAM; lia]|]).
    split.
    + rewrite Forall_forall in Hsz. apply Hsz. eapply sec_n_elem. exact Hn.
    + split; [unfold is_byte, MARK_DAM; lia | apply bad_sector_fill_bytes].
Qed.

Lemma from_config_is_laid_out (config : Configuration) (cyl head : Z) (t : track)
    (Hret : from_config config cyl head = Some t)
    (Hgap1 : forall g, cfg_gap1 config = Some g -> 0 <= g)
    (Hgap2 : forall g, cfg_gap2 config = Some g -> 0 <= g)
    (Hgap3 : forall g, cfg_gap3 config = Some g -> 0 <= g)
    (Hgap4a : forall g, cfg_gap4a config = Some g -> 0 <= g)
    (Hcyl : is_byte cyl) (Hhead : is_byte (default head (cfg_h config)))
    (Hid : 0 <= cfg_id config /\ cfg_id config + cfg_secs config <= 256)
    (Hsz : Forall is_byte (cfg_sz config)) :
  laid_out t.
Proof.
  apply from_config_inv in Hret
    as (tl0 & gap_2 & gap_3 & bc & m & posN & _ & Hg2 & Hg3 & _ & _ & _
        & _ & _ & Hmap & Hiams & Hfold & _).
  assert (H4 : 0 <= default GAP_4A (cfg_gap4a config)).
  { destruct (cfg_gap4a config) as [g|] eqn:Hg; cbn; [auto|unfold GAP_4A; lia]. }
  assert (Hidx : default GAP_4A (cfg_gap4a config) <= config_idx_sz config
                 /\ (cfg_iam config = true ->
                     default GAP_4A (cfg_gap4a config) + gap_presync + 4
                     <= config_idx_sz config)).
  { unfold config_idx_sz, config_gap_1.
    destruct (cfg_iam config); [|split; [lia|discriminate]].
    assert (0 <= default GAP_1 (cfg_gap1 config)).
    { destruct (cfg_gap1 config) as [g|] eqn:Hg; cbn; [auto|unfold GAP_1; lia]. }
    unfold gap_presync. split; [lia|]. intros _. lia. }
  assert (Hone : (length (iams t) <= 1)%nat).
  { rewrite Hiams. destruct (config_gap_1 config); cbn; lia. }
  destruct (Z.leb_spec (cfg_secs config) 0) as [Hn|Hn].
  { unfold range in Hfold. rewrite seqZ_nil in Hfold by lia. cbn in Hfold.
    injection Hfold as _ Hsecs.
    split; [exact Hone|]. rewrite <- Hsecs. split; [|split; constructor].
    rewrite Hiams. destruct (config_gap_1 config); constructor; [|constructor].
    cbn [iam_start iam_end]. unfold gap_presync.
    split; [lia|]. split; [apply Z.divide_factor_r|]. split; [lia|constructor]. }
  assert (Hgap2' : 0 <= gap_2).
  { destruct Hg2 as [[-> _]| ->]; [lia|].
    destruct (cfg_gap2 config) as [g|] eqn:Hg; cbn; [auto|unfold GAP_2; lia]. }
  assert (Hgap3' : 0 <= gap_3).
  { destruct Hg3 as [->|[_ H]]; [|auto].
    destruct (cfg_gap3 config) as [g|] eqn:Hg; cbn; [auto|lia]. }
  destruct (placed_by_fold _ _ _ _ _ _ _ _ _ Hmap Hfold) as [Hperm Hplaced].
  apply (place_fold_layout _ _ _ _ _ _ Hgap2' Hgap3') in Hfold
    as (new & Hnew & Hall & Hsorted & _ & _).
  cbn [app] in Hnew. subst new.
  assert (Hm : Forall (fun sec => 0 <= sec < cfg_secs config) m).
  { rewrite Hperm. unfold range. apply Forall_seqZ. lia. }
  assert (Hready : Forall (fun s => sector_shape s /\ writable s) (sectors t)).
  { clear -Hplaced Hall Hm Hcyl Hhead Hid Hsz.
    induction Hplaced as [|sec s m l Hp _ IH]; [constructor|].
    apply Forall_cons in Hall as [(_ & _ & Hgap & _) Hall].
    apply Forall_cons in Hm as [Hsec Hm].
    constructor; [|apply IH; assumption].
    eapply placed_as_ready; eauto. unfold is_byte. lia. }
  split; [exact Hone|]. split; [|split].
  - rewrite Hiams. unfold config_gap_1 in *.
    destruct (cfg_iam config); constructor; [|constructor].
    cbn [iam_start iam_end]. destruct Hidx as [_ Hidx]. specialize (Hidx eq_refl).
    unfold gap_presync in *.
    split; [lia|]. split; [apply Z.divide_factor_r|]. split; [lia|].
    eapply Forall_impl; [exact Hall|]. cbv beta. intros s (H1 & _). lia.
  - clear -Hall Hready Hidx H4.
    induction Hready as [|s l [Hshape Hw] _ IH]; [constructor|].
    apply Forall_cons in Hall as [(H1 & _ & H3 & H5 & H6) Hall].
    constructor; [|now apply IH].
    unfold gap_presync in *. destruct Hidx as [Hidx _].
    split; [lia|]. auto 10.
  - eapply StronglySorted_weaken; [|exact Hsorted]. cbv beta. auto.
Qed.

(** X20: the tracks of [from_config] are laid out as [raw_track] and
    [decode_raw] need them.  When no configured gap is negative and the
    cylinder, the head value written, the sector IDs and the size codes are
    bytes, the track that [from_config] returns has at most one index
    mark, before the sectors, every area on a whole encoded byte with room
    for the presync run before it, and every sector of the shape that a
    scan gives, with bytes that can be written. *)
Theorem from_config_laid_out (config : Configuration) (cyl head : Z) (t : track)
    (Hret : from_config config cyl head = Some t)
    (Hgap1 : forall g, cfg_gap1 config = Some g -> 0 <= g)
    (Hgap2 : forall g, cfg_gap2 config = Some g -> 0 <= g)
    (Hgap3 : forall g, cfg_gap3 config = Some g -> 0 <= g)
    (Hgap4a : forall g, cfg_gap4a config = Some g -> 0 <= g)
    (Hcyl : is_byte cyl) (Hhead : is_byte (default head (cfg_h config)))
    (Hid : 0 <= cfg_id config /\ cfg_id config + cfg_secs config <= 256)
    (Hsz : Forall is_byte (cfg_sz config)) :
  laid_out t.
Proof.
  eapply from_config_is_laid_out; eassumption.
Qed.


Lemma from_config_laid_out_witness : laid_out gaps_track.
Proof.
  apply (from_config_laid_out config_gaps 2 1);
    [vm_compute; reflexivity | ..];
    try (intros g Hg; injection Hg as <-; lia);
    try (unfold is_byte; cbn; lia).
  repeat constructor; unfold is_byte; lia.
Defined.

(** ** Verifier: the image of the track itself *)







(** ** Image marshalling: storing an image keeps the layout *)

Lemma stored_refilled l : forall buf,
  Forall is_byte buf -> capacity l <= Z.of_nat (length buf) ->
  Forall2 refilled l (stored l buf).
Proof.
  induction l as [|s l IH]; intros buf Hb Hlen; [constructor|].
  rewrite capacity_cons in Hlen. cbn [stored].
  pose proof (sector_size_nonneg s). pose proof (capacity_nonneg l).
  constructor.
  - eexists. split; [reflexivity|]. split.
    + rewrite length_take. lia.
    + now apply Forall_take.
  - apply IH; [now apply Forall_drop|]. rewrite length_drop. lia.
Qed.

Lemma refilled_keys {B} (f : Sector -> B) l l' :
  (forall s data, f (store_slice s data) = f s) ->
  Forall2 refilled l l' -> f <$> l' = f <$> l.
Proof.
  intros Hf. induction 1 as [|s s' l l' (data & -> & _) _ IH]; [reflexivity|].
  cbn. now rewrite IH, Hf.
Qed.

Lemma refilled_Forall (P P' : Sector -> Prop) l l' :
  (forall s s', refilled s s' -> P s -> P' s') ->
  Forall2 refilled l l' -> Forall P l -> Forall P' l'.
Proof.
  intros HP. induction 1 as [|s s' l l' Hs _ IH]; intros Hl; [constructor|].
  apply Forall_cons in Hl as [H1 H2]. constructor; eauto.
Qed.

Lemma refilled_laid_out (t : track) (l' : list Sector) :
  laid_out t -> Forall2 refilled (sectors t) l' -> laid_out (set_sectors t l').
Proof.
  intros (Hone & Hiams & Hsecs & Hsorted) H2. unfold laid_out.
  cbn [iams sectors set_sectors].
  split; [exact Hone|]. split; [|split].
  - eapply Forall_impl; [exact Hiams|]. cbv beta.
    intros m (H1 & H3 & H4 & Hall). repeat split; try assumption.
    eapply refilled_Forall; [|exact H2|exact Hall]. cbv beta.
    intros s s' (data & -> & _) Hs. exact Hs.
  - eapply refilled_Forall; [|exact H2|exact Hsecs]. cbv beta.
    intros s s' (data & -> & Hlen & Hbytes) (H1 & H3 & H4 & H5 & Hshape & Hw).
    destruct Hshape as (S1 & S2 & S3 & S4 & S5 & S6 & S7 & S8).
    destruct Hw as (W1 & W2 & W3 & W4 & W5 & W6).
    unfold sector_shape, writable, store_slice, IDAM_set_crc.
    cbn [sec_start sec_end sec_crc idam dam idam_start idam_end idam_crc
         idam_c idam_h idam_r idam_n dam_start dam_end dam_crc dam_mark dam_data].
    unfold sector_size in Hlen.
    split; [exact H1|]. split; [exact H3|]. split; [exact H4|]. split; [exact H5|].
    split.
    + exact (conj S1 (conj S2 (conj S3 (conj S4 (conj S5 (conj Hlen (conj S7 eq_refl))))))).
    + exact (conj W1 (conj W2 (conj W3 (conj W4 (conj W5 Hbytes))))).
  - clear Hiams Hsecs Hone. induction H2 as [|s s' l l' Hs H2 IH]; [constructor|].
    apply StronglySorted_inv in Hsorted as [Hl Hx].
    constructor; [now apply IH|].
    destruct Hs as (data & -> & _).
    eapply refilled_Forall; [|exact H2|exact Hx]. cbv beta.
    intros y y' (datay & -> & _) Hy. exact Hy.
Qed.

Lemma laid_out_starts (t : track) :
  laid_out t ->
  StronglySorted (key_le sec_start) (sectors t)
  /\ NoDup (sec_start <$> sectors t).
Proof.
  intros (_ & _ & Hsecs & Hsorted).
  induction Hsorted as [|x l Hl IH Hx]; [split; constructor|].
  apply Forall_cons in Hsecs as [Hs Hsecs]. destruct (IH Hsecs) as [IH1 IH2].
  destruct Hs as (_ & _ & _ & Hgap & (S1 & S2 & S3 & S4 & S5 & _) & _).
  assert (Hlt : Forall (fun y => sec_start x < sec_start y) l).
  { eapply Forall_impl; [exact Hx|]. cbv beta. unfold gap_presync.
    intros y Hy. pose proof (sector_size_nonneg x) as Hsz.
    unfold sector_size in Hsz. lia. }
  split.
  - constructor; [exact IH1|]. eapply Forall_impl; [exact Hlt|].
    unfold key_le. cbv beta. intros; lia.
  - cbn. apply NoDup_cons. split; [|exact IH2].
    intros Hin. apply list_elem_of_fmap in Hin as (y & Hy & Hin).
    rewrite Forall_forall in Hlt. specialize (Hlt y Hin). lia.
Qed.

(** [set_img_track] on a laid-out track, seen from the track order: the
    sectors stay where they are and are refilled one by one. *)
Lemma set_img_track_refills (self : track) (buf : list Z) :
  laid_out self ->
  stride_fits (img_bps self) (sectors self) ->
  Forall is_byte buf ->
  exists l',
    set_img_track self buf
    = Some (set_sectors self l', capacity (sectors self))
    /\ Forall2 refilled (sectors self) l'.
Proof.
  intros Hlaid Hstride Hbuf.
  set (cap := capacity (sectors self)).
  set (S0 := sort_by sector_id (sectors self)).
  set (P := padded cap buf).
  assert (Hn : Forall (fun s => 0 <= idam_n (idam s)) (sectors self)).
  { destruct Hlaid as (_ & _ & Hsecs & _). eapply Forall_impl; [exact Hsecs|].
    cbv beta. intros s (_ & _ & _ & _ & _ & Hw). destruct Hw as (_ & _ & _ & [H _] & _).
    exact H. }
  assert (HS : S0 ≡ₚ sectors self) by apply sort_by_perm.
  assert (Hcap : capacity S0 = cap) by now apply capacity_perm.
  assert (HnS : Forall (fun s => 0 <= idam_n (idam s)) S0) by now rewrite HS.
  assert (HstrideS : stride_fits (img_bps self) S0).
  { unfold stride_fits in *. destruct (img_bps self); [now rewrite HS | exact I]. }
  assert (Htot : match img_bps self with
                 | Some b => Some (Z.of_nat (length S0) * b)
                 | None => total_size S0
                 end = Some cap).
  { destruct (img_bps self) as [b|].
    - cbn in HstrideS. now rewrite <- (capacity_stride b S0 HstrideS), Hcap.
    - now rewrite total_size_capacity, Hcap. }
  assert (Hassign : assign_slices (img_bps self) P 0 S0 = Some (stored S0 P)).
  { rewrite assign_slices_stored; [reflexivity|assumption|assumption|lia|].
    rewrite Hcap. apply length_padded. }
  assert (HP : Forall is_byte P).
  { unfold P, padded. apply Forall_app. split; [exact Hbuf|].
    apply Forall_replicate. unfold is_byte. lia. }
  assert (H2 : Forall2 refilled S0 (stored S0 P)).
  { apply stored_refilled; [exact HP|]. rewrite Hcap. apply length_padded. }
  destruct (Permutation_Forall2 HS H2) as (l' & Hperm & H2').
  destruct (laid_out_starts self Hlaid) as [Hsorted Hnd].
  assert (Hkeys : sec_start <$> l' = sec_start <$> sectors self).
  { apply refilled_keys; [reflexivity|exact H2']. }
  exists l'. split; [|exact H2'].
  unfold set_img_track. fold sector_id. fold S0. rewrite Htot. cbn [mbind option_bind].
  rewrite padded_if. fold P. rewrite Hassign. cbn [mbind option_bind].
  do 3 f_equal. apply sort_by_fixed.
  - eapply sorted_same_keys; [exact Hkeys|exact Hsorted].
  - now rewrite Hkeys.
  - exact Hperm.
Qed.

(** X22: storing an image keeps the layout.  On a laid-out track whose
    image stride, if one is set, is the size of every sector,
    [set_img_track] with a buffer of bytes returns the total sector
    capacity and leaves a laid-out track: every sector where it was, in the
    same order and with the same ID, its three CRCs zero, and holding
    exactly [128 << n] bytes. *)
Theorem set_img_track_laid_out (self : track) (buf : list Z)
    (Hlaid : laid_out self)
    (Hstride : stride_fits (img_bps self) (sectors self))
    (Hbuf : Forall is_byte buf) :
  exists t',
    set_img_track self buf = Some (t', capacity (sectors self))
    /\ laid_out t'
    /\ Forall crc_clear (sectors t')
    /\ Forall2 refilled (sectors self) (sectors t')
    /\ set_sectors t' (sectors self) = self.
Proof.
  destruct (set_img_track_refills self buf Hlaid Hstride Hbuf) as (l' & Hset & H2).
  eexists. split; [exact Hset|]. split; [now apply refilled_laid_out|].
  cbn [sectors set_sectors]. split; [|split; [exact H2|]].
  - eapply refilled_Forall with (P := fun _ => True); [|exact H2|].
    + intros s s' (data & -> & _) _. repeat split.
    + apply Forall_forall. auto.
  - destruct self. reflexivity.
Qed.

Lemma set_img_track_laid_out_witness :
  exists t',
    set_img_track gaps_track (replicate 200 90)
    = Some (t', capacity (sectors gaps_track))
    /\ laid_out t'
    /\ Forall crc_clear (sectors t')
    /\ Forall2 refilled (sectors gaps_track) (sectors t')
    /\ set_sectors t' (sectors gaps_track) = gaps_track.
Proof.
  apply (set_img_track_laid_out gaps_track (replicate 200 90)).
  - apply (from_config_is_laid_out config_gaps 2 1);
      [vm_compute; reflexivity | ..];
      try (intros g Hg; injection Hg as <-; lia);
      try (unfold is_byte; cbn; lia).
    repeat constructor; unfold is_byte; lia.
  - exact I.
  - apply Forall_replicate. unfold is_byte. lia.
Defined.
(** ** From the configuration to a verified image *)






